(** * devicetree-parse: a shallow embedding of the tree walker, the value
      classifier and the value formatter, with their properties.

    The walker is [devicetree-parse.c]; the classifier, the string buffer
    and the formatters come from the two [main.c] variants of the
    repository.  Bytes are [Init.Byte.byte]; little-endian fields are
    decoded with coqutil's [le_combine].  Positions in the buffer are
    offsets in [Z] counted from the pointer handed to the walker: the C
    pointers [p], [end] and [*data] become [p], [data_end] and [data]. *)

From Stdlib Require Import String ZArith List Lia Bool.
From coqutil Require Import Byte Word.LittleEndianList.
Import ListNotations.
Local Open Scope Z_scope.

(** ** Machine integers and memory reads *)

Definition u32 (z : Z) : Z := z mod 2 ^ 32.
Definition u64 (z : Z) : Z := z mod 2 ^ 64.

Definition len {A} (l : list A) : Z := Z.of_nat (length l).

(** [slice buf off n]: the [n] bytes at offset [off], when they all lie
    inside [buf]. *)
Definition slice (buf : list byte) (off n : Z) : option (list byte) :=
  if (0 <=? off) && (0 <=? n) && (off + n <=? len buf)
  then Some (firstn (Z.to_nat n) (skipn (Z.to_nat off) buf))
  else None.

(** The pointed-to bytes [data[off .. off+n)], for reads that need no check. *)
Definition bytes_at (data : list byte) (off n : Z) : list byte :=
  firstn (Z.to_nat n) (skipn (Z.to_nat off) data).

Definition load8 (buf : list byte) (off : Z) : option Z :=
  option_map le_combine (slice buf off 1).

Definition load32 (buf : list byte) (off : Z) : option Z :=
  option_map le_combine (slice buf off 4).

Definition load64 (buf : list byte) (off : Z) : option Z :=
  option_map le_combine (slice buf off 8).

(** ** The walker (devicetree-parse.c) *)

(** [sizeof(struct devicetree_node)], [sizeof(struct devicetree_property)]
    and [sizeof(prop->name)]. *)
Definition sizeof_node : Z := 8.
Definition sizeof_prop : Z := 36.
Definition sizeof_name : Z := 32.

(** What a call of the walker comes to.  [Fault] is a read outside the
    buffer, by the walker or through a view it hands to an observer
    (undefined behaviour in C); [OutOfFuel] belongs to the model only.  [Return ok data stop st] is a normal return: the boolean result,
    the cursor [*data], the flag [*stop] and the observers' state. *)
Inductive outcome (S : Type) : Type :=
| OutOfFuel
| Fault
| Return (ok : bool) (data : Z) (stop : bool) (st : S).
Arguments OutOfFuel {S}.
Arguments Fault {S}.
Arguments Return {S} ok data stop st.

(** The property loop either leaves the function or falls through to the
    children with its local pointer [p]. *)
Inductive loop_exit (S : Type) : Type :=
| LFault
| LReturn (ok : bool) (stop : bool) (st : S)
| LNext (p : Z) (st : S).
Arguments LFault {S}.
Arguments LReturn {S} ok stop st.
Arguments LNext {S} p st.

(** One parsed property header: where the name and the payload are, the
    masked size and the pointer after the payload. *)
Record parsed_property : Type := {
  pp_name : Z;
  pp_value : Z;
  pp_size : Z;
  pp_next : Z
}.

Section Walker.
Context {S : Type}.

(** The observers.  A block that writes [*stop] is a function that
    returns the new flag with the new state.  The property observer is
    given the 32-byte name field and the payload as views of the buffer. *)
Definition node_callback : Type :=
  Z -> Z -> Z -> Z -> Z -> S -> S * bool.
Definition property_callback : Type :=
  Z -> list byte -> list byte -> Z -> S -> S * bool.

Variable buf : list byte.
Variable node_cb : option node_callback.
Variable property_cb : option property_callback.

Definition data_end : Z := len buf.

(** Lines 47-70: the header of the property at [p].  [None] is a read
    outside the buffer, [Some None] is [return false]. *)
Definition parse_property (p : Z) : option (option parsed_property) :=
  let prop := p in
  let p := p + sizeof_prop in
  if data_end <? p then Some None else
  match load8 buf (prop + sizeof_name - 1) with
  | None => None
  | Some last =>
      if negb (last =? 0) then Some None else
      match load32 buf (prop + sizeof_name) with
      | None => None
      | Some raw =>
          let prop_size := Z.land raw (u32 (Z.lnot 0x80000000)) in
          let padded_size := Z.land (u32 (prop_size + 0x3)) (u32 (Z.lnot 0x3)) in
          let p := p + padded_size in
          if data_end <? p then
            if p - padded_size + prop_size =? data_end
            then Some (Some {| pp_name := prop; pp_value := prop + sizeof_prop;
                               pp_size := prop_size; pp_next := data_end |})
            else Some None
          else Some (Some {| pp_name := prop; pp_value := prop + sizeof_prop;
                             pp_size := prop_size; pp_next := p |})
      end
  end.

(** Lines 45-78. *)
Fixpoint iterate_properties (n : nat) (depth : Z) (p : Z) (st : S)
  : loop_exit S :=
  match n with
  | O => LNext p st
  | Datatypes.S n' =>
      match parse_property p with
      | None => LFault
      | Some None => LReturn false false st
      | Some (Some pp) =>
          match property_cb with
          | None => iterate_properties n' depth (pp_next pp) st
          | Some cb =>
              match slice buf (pp_name pp) sizeof_name,
                    slice buf (pp_value pp) (pp_size pp) with
              | Some name, Some value =>
                  let '(st', stop) := cb (u32 (depth + 1)) name value (pp_size pp) st in
                  if stop then LReturn true true st'
                  else iterate_properties n' depth (pp_next pp) st'
              | _, _ => LFault
              end
          end
      end
  end.

(** Lines 82-91, over the recursive call [rec]. *)
Fixpoint iterate_children (rec : Z -> S -> outcome S) (n : nat)
    (data : Z) (st : S) : outcome S :=
  match n with
  | O => Return true data false st
  | Datatypes.S n' =>
      match rec data st with
      | Return true data' false st' => iterate_children rec n' data' st'
      | r => r
      end
  end.

Fixpoint devicetree_iterate_node (fuel : nat) (data : Z) (depth : Z) (st : S)
  : outcome S :=
  match fuel with
  | O => OutOfFuel
  | Datatypes.S fuel' =>
      let node := data in
      let p := data + sizeof_node in
      if data_end <? p then Return false data false st else
      match load32 buf node, load32 buf (node + 4) with
      | Some n_properties, Some n_children =>
          let '(st1, stop) :=
            match node_cb with
            | None => (st, false)
            | Some cb =>
                cb depth node (data_end - p + sizeof_node) n_properties n_children st
            end in
          if stop then Return true data true st1 else
          match iterate_properties (Z.to_nat n_properties) depth p st1 with
          | LFault => Fault
          | LReturn ok stop' st2 => Return ok data stop' st2
          | LNext p' st2 =>
              iterate_children
                (fun d s => devicetree_iterate_node fuel' d (u32 (depth + 1)) s)
                (Z.to_nat n_children) p' st2
          end
      | _, _ => Fault
      end
  end.

(** The caller sees the boolean and the cursor; [stop] is a local of
    [devicetree_iterate].  [None]: the walk did not return normally. *)
Definition devicetree_iterate (st : S) : option (bool * Z * S) :=
  match devicetree_iterate_node (Datatypes.S (length buf)) 0 0 st with
  | Return ok data _ st' => Some (ok, data, st')
  | _ => None
  end.

End Walker.

Arguments node_callback S : clear implicits.
Arguments property_callback S : clear implicits.

(** The block [do_not_scan_children] of [devicetree_node_scan_properties]. *)
Definition do_not_scan_children {S} : node_callback S :=
  fun depth _ _ _ _ st => (st, negb (depth =? 0)).

(** The cursor is the by-value parameter [node]: the caller does not see it. *)
Definition devicetree_node_scan_properties {S} (node : list byte)
    (property_cb : option (property_callback S)) (st : S) : option (bool * S) :=
  match devicetree_iterate node (Some do_not_scan_children) property_cb st with
  | Some (ok, _, st') => Some (ok, st')
  | None => None
  end.

(** ** The binary format, as the specification words it (section 6)

    A property is a 32-byte name field whose last byte is NUL, a 32-bit
    little-endian size whose top bit is a flag, the payload, and zero
    padding to the next multiple of 4.  A node is its two 32-bit counts,
    its properties in order, then its children's subtrees in order. *)

Record property : Type := {
  prop_name : list byte;
  prop_flag : bool;
  prop_value : list byte
}.

#[warnings="-register-all"]
Inductive tree : Type :=
| Node (props : list property) (children : list tree).

Definition padding (n : Z) : Z := (4 - n mod 4) mod 4.

Definition size_field (p : property) : Z :=
  len (prop_value p) + (if prop_flag p then 2 ^ 31 else 0).

Definition encode_property (p : property) : list byte :=
  prop_name p ++ le_split 4 (size_field p) ++ prop_value p
  ++ repeat Byte.x00 (Z.to_nat (padding (len (prop_value p)))).

Fixpoint encode (t : tree) : list byte :=
  match t with
  | Node props children =>
      le_split 4 (len props) ++ le_split 4 (len children)
      ++ flat_map encode_property props ++ flat_map encode children
  end.

Definition valid_property (p : property) : bool :=
  (len (prop_name p) =? sizeof_name)
  && (byte.unsigned (nth 31 (prop_name p) Byte.x01) =? 0)
  && (len (prop_value p) <? 2 ^ 31).

Fixpoint valid_tree (t : tree) : bool :=
  match t with
  | Node props children =>
      (len props <? 2 ^ 32) && (len children <? 2 ^ 32)
      && forallb valid_property props && forallb valid_tree children
  end.

Fixpoint height (t : tree) : nat :=
  match t with
  | Node _ children => Datatypes.S (fold_right (fun c h => Nat.max (height c) h) O children)
  end.

(** The padding that ends the encoding, when the encoding ends with a
    property: the bytes the last property of a buffer may leave out. *)
Definition last_padding (props : list property) : Z :=
  match rev props with
  | p :: _ => padding (len (prop_value p))
  | [] => 0
  end.

Fixpoint final_padding (t : tree) : Z :=
  match t with
  | Node props children =>
      fold_left (fun _ c => final_padding c) children (last_padding props)
  end.

(** The buffer holds the bytes [x] at offset [off]. *)
Definition holds (buf : list byte) (off : Z) (x : list byte) : Prop :=
  slice buf off (len x) = Some x.

(** ** The property step, as the claim words it

    The last byte of the name field, the size with bit 31 masked off, and
    a size rounded up to the next multiple of 4. *)
Definition name_terminator (buf : list byte) (p : Z) : byte :=
  nth (Z.to_nat (p + sizeof_name - 1)) buf Byte.x00.

Definition masked_size (buf : list byte) (p : Z) : Z :=
  le_combine (bytes_at buf (p + sizeof_name) 4) mod 2 ^ 31.

Definition round_up4 (n : Z) : Z := 4 * ((n + 3) / 4).

Definition property_rejected (buf : list byte) (p : Z) : Prop :=
  len buf < p + sizeof_prop
  \/ name_terminator buf p <> Byte.x00
  \/ (len buf < p + sizeof_prop + round_up4 (masked_size buf p)
      /\ p + sizeof_prop + masked_size buf p <> len buf).

Definition accepted_property (buf : list byte) (p : Z) : parsed_property :=
  {| pp_name := p; pp_value := p + sizeof_prop;
     pp_size := masked_size buf p;
     pp_next := Z.min (p + sizeof_prop + round_up4 (masked_size buf p)) (len buf) |}.

(** One of the [n] properties that the loop looks at from [p] on is
    rejected: the one at [p], or, when that one is accepted, one of the
    [n - 1] that follow it. *)
Fixpoint rejected_within (buf : list byte) (n : nat) (p : Z) : Prop :=
  match n with
  | O => False
  | Datatypes.S n' =>
      property_rejected buf p
      \/ (~ property_rejected buf p
          /\ rejected_within buf n' (pp_next (accepted_property buf p)))
  end.

(** ** What the observers are told

    [NodeEntered] carries the arguments of the node observer and
    [PropertyFound] those of the property observer. *)
Inductive event : Type :=
| NodeEntered (depth node size n_properties n_children : Z)
| PropertyFound (depth : Z) (name value : list byte) (size : Z).

Definition property_event (depth : Z) (p : property) : event :=
  PropertyFound depth (prop_name p) (prop_value p) (len (prop_value p)).

(** The events of the subtree [t] encoded at offset [off] of a buffer that
    ends at [dend], the root being at depth [depth]; [next] gives the depth
    below a depth. *)
Fixpoint events_from (next : Z -> Z) (dend : Z) (t : tree) (depth off : Z)
  : list event :=
  match t with
  | Node props children =>
      NodeEntered depth off (dend - off) (len props) (len children)
      :: map (property_event (next depth)) props
      ++ (fix siblings (cs : list tree) (off : Z) : list event :=
            match cs with
            | [] => []
            | c :: cs' =>
                events_from next dend c (next depth) off
                ++ siblings cs' (off + len (encode c))
            end) children (off + sizeof_node + len (flat_map encode_property props))
  end.

(** The events of consecutive subtrees, the first one at [off]. *)
Definition forest_events (next : Z -> Z) (dend : Z) (cs : list tree)
    (depth off : Z) : list event :=
  (fix siblings (cs : list tree) (off : Z) : list event :=
     match cs with
     | [] => []
     | c :: cs' =>
         events_from next dend c depth off
         ++ siblings cs' (off + len (encode c))
     end) cs off.

(** Depths as the claim words them, and as [unsigned] arithmetic gives them. *)
Definition events : Z -> tree -> Z -> Z -> list event := events_from Z.succ.
Definition events32 : Z -> tree -> Z -> Z -> list event :=
  events_from (fun d => u32 (d + 1)).

Section Observers.
Context {S : Type}.
Variable node_cb : option (node_callback S).
Variable property_cb : option (property_callback S).

Definition deliver (e : event) (st : S) : S * bool :=
  match e with
  | NodeEntered depth node size np nc =>
      match node_cb with
      | None => (st, false)
      | Some cb => cb depth node size np nc st
      end
  | PropertyFound depth name value size =>
      match property_cb with
      | None => (st, false)
      | Some cb => cb depth name value size st
      end
  end.

(** The observers run over a list of events, up to the first stop. *)
Fixpoint observe (evs : list event) (st : S) : S * bool :=
  match evs with
  | [] => (st, false)
  | e :: evs' =>
      let '(st', stop) := deliver e st in
      if stop then (st', true) else observe evs' st'
  end.

(** Observers that never ask to stop. *)
Definition quiet : Prop :=
  forall e st, snd (deliver e st) = false.

(** Observers that write down what they are told and what the wrapped
    observer answered. *)
Definition logged (e : event) (s : S * list (event * bool))
  : (S * list (event * bool)) * bool :=
  let '(st, stop) := deliver e (fst s) in
  ((st, snd s ++ [(e, stop)]), stop).

Definition logged_node : node_callback (S * list (event * bool)) :=
  fun depth node size np nc => logged (NodeEntered depth node size np nc).

Definition logged_property : property_callback (S * list (event * bool)) :=
  fun depth name value size => logged (PropertyFound depth name value size).
End Observers.

(** Observers that only record. *)
Definition record_node : node_callback (list event) :=
  fun depth node size np nc log => (log ++ [NodeEntered depth node size np nc], false).

Definition record_property : property_callback (list event) :=
  fun depth name value size log => (log ++ [PropertyFound depth name value size], false).

(** The node a recorded run is in: the offset of the last node entered. *)
Fixpoint current_node (evs : list event) (dflt : Z) : Z :=
  match evs with
  | [] => dflt
  | NodeEntered _ node _ _ _ :: evs' => current_node evs' node
  | PropertyFound _ _ _ _ :: evs' => current_node evs' dflt
  end.

(** ** Logs of a walk

    [no_stop]: no observer asked to stop.  [stops_last]: when the walk
    ended with the flag set, the observer that set it was the last one
    called.  [logged_walk]: what a walk that started with the log [log0]
    has added to it; when it ended with the flag set, it returned true and
    its cursor is the node of the last event. *)
Definition no_stop (log : list (event * bool)) : Prop :=
  Forall (fun x => snd x = false) log.

Definition stops_last (new : list (event * bool)) (stop : bool) : Prop :=
  if stop then exists pre e, new = pre ++ [(e, true)] /\ no_stop pre
  else no_stop new.

Definition logged_walk {S} (log0 : list (event * bool))
    (r : outcome (S * list (event * bool))) : Prop :=
  match r with
  | Return ok d stop (_, log') =>
      exists new, log' = log0 ++ new /\ stops_last new stop
        /\ (stop = true ->
            ok = true /\ forall dflt, current_node (map fst new) dflt = d)
  | _ => True
  end.

(** Forgetting the log: what the wrapped observers' own walk returns. *)
Definition erase_log {S} (r : outcome (S * list (event * bool))) : outcome S :=
  match r with
  | OutOfFuel => OutOfFuel
  | Fault => Fault
  | Return ok d stop (st, _) => Return ok d stop st
  end.

Definition erase_loop_log {S} (r : loop_exit (S * list (event * bool)))
  : loop_exit S :=
  match r with
  | LFault => LFault
  | LReturn ok stop (st, _) => LReturn ok stop st
  | LNext p (st, _) => LNext p st
  end.

(** ** The walk of an encoded subtree

    [walks_valid]: the subtree lies in the buffer; the observers see its
    events in order, up to the first stop.  [walks_cut]: the buffer is cut
    inside the subtree and the observers are quiet; the walk returns false,
    unless the cut is where the payload of the last property of the
    encoding ends: then it returns true with the cursor at the cut. *)
Definition walks_valid {S} (node_cb : option (node_callback S))
    (property_cb : option (property_callback S)) (t : tree) : Prop :=
  forall buf fuel off depth (st : S),
    valid_tree t = true -> holds buf off (encode t) ->
    (height t <= fuel)%nat ->
    exists d,
      devicetree_iterate_node buf node_cb property_cb fuel off depth st
      = let '(st', stop) :=
          observe node_cb property_cb (events32 (len buf) t depth off) st in
        Return true (if stop then d else off + len (encode t)) stop st'.

Definition walks_cut {S} (node_cb : option (node_callback S))
    (property_cb : option (property_callback S)) (t : tree) : Prop :=
  forall B k fuel off depth (st : S),
    valid_tree t = true -> holds B off (encode t) ->
    off <= k < off + len (encode t) ->
    (height t <= fuel)%nat ->
    let buf := firstn (Z.to_nat k) B in
    (k <> off + len (encode t) - final_padding t
     /\ exists d st',
         devicetree_iterate_node buf node_cb property_cb fuel off depth st
         = Return false d false st')
    \/ (k = off + len (encode t) - final_padding t
        /\ exists st',
            devicetree_iterate_node buf node_cb property_cb fuel off depth st
            = Return true k false st').

(** ** Value display: what both [main.c] variants share

    A C string is the list of its bytes before the terminator.  [isprint]
    is the one of the "C" locale (the program never calls [setlocale]).
    Counters are [size_t]; they are bounded by the size of the value, so
    no wrap-around is written for them. *)

Definition lit (s : string) : list byte := list_byte_of_string s.
Arguments lit s%_string.

Definition isprint (c : byte) : bool :=
  (0x20 <=? byte.unsigned c) && (byte.unsigned c <=? 0x7e).

Definition is_nul (c : byte) : bool := byte.unsigned c =? 0.

Fixpoint cstring (s : list byte) : list byte :=
  match s with
  | [] => []
  | c :: s' => if is_nul c then [] else c :: cstring s'
  end.

(** [strnlen(data, size)] bytes of [data]. *)
Definition strnlen (data : list byte) : Z := len (cstring data).

Fixpoint bytes_eqb (a b : list byte) : bool :=
  match a, b with
  | [], [] => true
  | x :: a', y :: b' => Byte.eqb x y && bytes_eqb a' b'
  | _, _ => false
  end.

(** [strcmp(a, b) == 0] and [strncmp(a, b, n) == 0]. *)
Definition strcmp_eq (a b : list byte) : bool := bytes_eqb a b.
Definition strncmp_eq (a b : list byte) (n : nat) : bool :=
  bytes_eqb (firstn n a) (firstn n b).

Fixpoint starts_with (needle s : list byte) : bool :=
  match needle, s with
  | [], _ => true
  | x :: needle', y :: s' => Byte.eqb x y && starts_with needle' s'
  | _ :: _, [] => false
  end.

(** [strstr(haystack, needle) != NULL]. *)
Fixpoint strstr (haystack needle : list byte) : bool :=
  starts_with needle haystack
  || match haystack with
     | [] => false
     | _ :: h' => strstr h' needle
     end.

(** [name[0] == c]; the first byte of the empty string is the terminator. *)
Definition first_char_is (name : list byte) (c : byte) : bool :=
  match name with
  | [] => Byte.eqb Byte.x00 c
  | x :: _ => Byte.eqb x c
  end.

Definition read_uint (data : list byte) (size : Z) : Z :=
  if size =? 1 then le_combine (bytes_at data 0 1)
  else if size =? 2 then le_combine (bytes_at data 0 2)
  else if size =? 4 then le_combine (bytes_at data 0 4)
  else if size =? 8 then le_combine (bytes_at data 0 8)
  else u64 (-1).

Definition all_printable_ascii (data : list byte) : bool :=
  forallb isprint data.

Record measure_string_info : Type := {
  printable : Z;
  first_null : Z;
  after_null : Z;
  null_count : Z;
  printable_run_count : Z
}.

(** The body of the loop of [measure_string] at index [i]. *)
Definition measure_string_step (size i : Z) (byte : byte)
    (s : measure_string_info * Z) : measure_string_info * Z :=
  let '(info, current_printable_run) := s in
  let null_count1 := if is_nul byte then null_count info + 1 else null_count info in
  let '(printable1, run_count1, run1) :=
    if isprint byte
    then (printable info + 1, printable_run_count info, current_printable_run + 1)
    else (printable info,
          (if 8 <=? current_printable_run
           then printable_run_count info + current_printable_run
           else printable_run_count info),
          0) in
  let after_null1 :=
    if negb (first_null info =? size) && negb (is_nul byte)
    then after_null info + 1 else after_null info in
  let first_null1 :=
    if is_nul byte && (first_null info =? size) then i else first_null info in
  ({| printable := printable1; first_null := first_null1;
      after_null := after_null1; null_count := null_count1;
      printable_run_count := run_count1 |}, run1).

Fixpoint measure_string_loop (size i : Z) (bytes : list byte)
    (s : measure_string_info * Z) : measure_string_info * Z :=
  match bytes with
  | [] => s
  | byte :: rest =>
      measure_string_loop size (i + 1) rest (measure_string_step size i byte s)
  end.

Definition measure_string (data : list byte) : measure_string_info :=
  let size := len data in
  let '(info, current_printable_run) :=
    measure_string_loop size 0 data
      ({| printable := 0; first_null := size; after_null := 0;
          null_count := 0; printable_run_count := 0 |}, 0) in
  if 8 <=? current_printable_run
  then {| printable := printable info; first_null := first_null info;
          after_null := after_null info; null_count := null_count info;
          printable_run_count := printable_run_count info + current_printable_run |}
  else info.

(** [x >= (num/den) * size] in the classifier, where [num/den] is 0.75,
    0.90 or 0.6 and the product is computed in [double].  [size] is a
    property size, below 2^31: the product of 0.75 is exact, and for 0.90
    and 0.6 rounding returns the integer 9*size/10 (6*size/10) when there is
    one and stays strictly between the neighbouring integers otherwise; so
    the comparison with the integer [x] is the comparison of integers. *)
Definition ge_fraction (x num den size : Z) : bool := num * size <=? den * x.

(** ** The string buffer

    [str] is the allocated array, [cap] bytes long.  [malloc] and [realloc]
    are taken to succeed; fresh bytes are modelled as zero (the ones past a
    write are never read).  The formatted text of a [printf] call is the
    argument [text]; it is short, so [int ret] is its length. *)
Record strbuf : Type := {
  str : list byte;
  pos : Z;
  cap : Z;
  max : Z
}.

Definition SIZE_MAX : Z := 2 ^ 64 - 1.

Definition strbuf_alloc (max : Z) : strbuf :=
  let cap := 0x4000 in
  let cap := if max <? cap then max else cap in
  {| str := Byte.x00 :: repeat Byte.x00 (Z.to_nat cap - 1);
     pos := 0; cap := cap; max := max |}.

(** [vsnprintf(str + at, size, ...)]: at most [size - 1] characters and a
    terminator; nothing when [size] is 0. *)
Definition vsnprintf (str : list byte) (at_ size : Z) (text : list byte)
  : list byte :=
  if size =? 0 then str
  else
    let n := Z.min (len text) (size - 1) in
    firstn (Z.to_nat at_) str ++ firstn (Z.to_nat n) text ++ [Byte.x00]
    ++ skipn (Z.to_nat (at_ + n + 1)) str.

Definition realloc (str : list byte) (n : Z) : list byte :=
  firstn (Z.to_nat n) str ++ repeat Byte.x00 (Z.to_nat n - length str).

(** The result is [(ok, strbuf, req_cap)]. *)
Definition strbuf_vprintf_no_grow (sb : strbuf) (text : list byte)
  : bool * strbuf * Z :=
  let size := u64 (cap sb - pos sb) in
  let size := if (u64 (cap sb - 1) <=? pos sb) || (cap sb =? 0) then 0 else size in
  let str' := vsnprintf (str sb) (pos sb) size text in
  let ret := len text in
  let new_pos := u64 (pos sb + ret) in
  if u64 (cap sb - 1) <? new_pos
  then (false, {| str := str'; pos := pos sb; cap := cap sb; max := max sb |},
        u64 (new_pos + 1))
  else (true, {| str := str'; pos := new_pos; cap := cap sb; max := max sb |}, 0).

Definition strbuf_printf (sb : strbuf) (text : list byte) : bool * strbuf :=
  let '(ok, sb1, req_cap) := strbuf_vprintf_no_grow sb text in
  if ok then (true, sb1)
  else if max sb1 <? req_cap
  then (false, {| str := str sb1; pos := u64 (req_cap - 1);
                  cap := cap sb1; max := max sb1 |})
  else
    let sb2 := {| str := realloc (str sb1) req_cap; pos := pos sb1;
                  cap := req_cap; max := max sb1 |} in
    let '(_, sb3, _) := strbuf_vprintf_no_grow sb2 text in
    (true, sb3).

(** What [printf("%s", sb.str)] shows. *)
Definition contents (sb : strbuf) : list byte := cstring (str sb).

(** ** The conversions of [printf] the formatters use *)

Definition hex_digit (d : Z) : byte :=
  byte.of_Z (if d <? 10 then 48 + d else 87 + d).

Fixpoint hex_digits_rev (fuel : nat) (n : Z) : list byte :=
  match fuel with
  | O => []
  | Datatypes.S fuel' =>
      if n <? 16 then [hex_digit n]
      else hex_digit (n mod 16) :: hex_digits_rev fuel' (n / 16)
  end.

Fixpoint dec_digits_rev (fuel : nat) (n : Z) : list byte :=
  match fuel with
  | O => []
  | Datatypes.S fuel' =>
      if n <? 10 then [byte.of_Z (48 + n)]
      else byte.of_Z (48 + n mod 10) :: dec_digits_rev fuel' (n / 10)
  end.

Definition zero_pad (width : nat) (digits : list byte) : list byte :=
  repeat (byte.of_Z 48) (width - length digits) ++ digits.

(** [%x] and [%llx] of an unsigned value below 2^64. *)
Definition fmt_x (n : Z) : list byte := rev (hex_digits_rev 16 n).
(** [%02x] and [%016llx]. *)
Definition fmt_02x (n : Z) : list byte := zero_pad 2 (fmt_x n).
Definition fmt_016llx (n : Z) : list byte := zero_pad 16 (fmt_x n).
(** [%lld] of a [uint64_t]: the bits read as a signed value. *)
Definition fmt_lld (n : Z) : list byte :=
  if n <? 2 ^ 63 then rev (dec_digits_rev 20 n)
  else lit "-" ++ rev (dec_digits_rev 20 (2 ^ 64 - n)).

Definition quote : byte := Byte.x22.
Definition backslash : byte := Byte.x5c.

(** ** The formatters both variants share *)

(** A [for (; ok && ...; )] loop over [items] whose body is [body]; the
    body is told whether the item is the last one. *)
Fixpoint print_loop {A} (body : strbuf -> A -> bool -> bool * strbuf)
    (sb : strbuf) (items : list A) : bool * strbuf :=
  match items with
  | [] => (true, sb)
  | x :: rest =>
      let '(ok, sb') := body sb x (match rest with [] => true | _ => false end) in
      if ok then print_loop body sb' rest else (false, sb')
  end.

(** The text of [strbuf_printf(sb, "%02x%s", *p, sep)]; [print_end] is
    [end] throughout. *)
Definition hex_dump_text (size : Z) (c : byte) (last : bool) : list byte :=
  let data_end := size in
  let print_end := data_end in
  let sep :=
    if last then (if print_end =? data_end then lit "" else lit "...")
    else lit " " in
  fmt_02x (byte.unsigned c) ++ sep.

Definition print_property_hex_dump (sb : strbuf) (data : list byte)
  : bool * strbuf :=
  print_loop (fun sb c last => strbuf_printf sb (hex_dump_text (len data) c last))
    sb data.

Definition hex_int_text (data : list byte) : list byte :=
  let value := read_uint data (len data) in
  if value =? 0 then lit "0" else lit "0x" ++ fmt_x value.

Definition print_property_hex_int (sb : strbuf) (data : list byte)
  : bool * strbuf :=
  strbuf_printf sb (hex_int_text data).

Definition dec_int_text (data : list byte) : list byte :=
  fmt_lld (read_uint data (len data)).

Definition print_property_dec_int (sb : strbuf) (data : list byte)
  : bool * strbuf :=
  strbuf_printf sb (dec_int_text data).

(** The records of a table: [size / width] consecutive pieces of [width]
    bytes. *)
Definition records (width : Z) (data : list byte) : list (list byte) :=
  map (fun i => bytes_at data (width * Z.of_nat i) width)
      (seq 0 (Z.to_nat (len data / width))).

(** The rules of [compute_display_type] that are the same in both
    variants, in the order of the source. *)
Definition is_hex_int_12 (size : Z) : bool := (size =? 1) || (size =? 2).

Definition is_dec_int (name : list byte) : bool :=
  first_char_is name Byte.x23.

Definition is_string (string : measure_string_info) (size : Z) : bool :=
  (printable string =? first_null string) && (after_null string =? 0)
  && ((negb (size =? 4) && negb (size =? 8))
      || (u64 (size - 1) <=? printable string)).

Definition is_function_prop (name data : list byte) (size : Z) : bool :=
  strncmp_eq name (lit "function-") 9
  && (8 <=? size) && (size mod 4 =? 0)
  && all_printable_ascii (bytes_at data 4 4).

Definition is_hex_string_75 (string : measure_string_info) (size : Z) : bool :=
  ge_fraction (printable string) 75 100 size.

Definition is_hex_string_90 (string : measure_string_info) (size : Z) : bool :=
  (2 <=? printable string) && (24 <=? size)
  && ge_fraction (printable string + null_count string) 90 100 size.

Definition is_hex_string_60 (string : measure_string_info) (size : Z) : bool :=
  (0 <? printable_run_count string) && (24 <=? size)
  && ge_fraction (printable_run_count string + null_count string) 6 10 size.

Definition is_hex_int_48 (size : Z) : bool := (size =? 4) || (size =? 8).

(** *** The variant bundled with [devicetree-parse.h] *)
Module Main.

Inductive display_type : Type :=
| DISP_HEX_DUMP
| DISP_HEX_INT
| DISP_DEC_INT
| DISP_STRING
| DISP_HEX_STRING
| DISP_FUNCTION_PROP
| DISP_PHYS_RANGES
| DISP_SEGMENT_RANGES.

(** [sizeof(struct phys_range)] and [sizeof(struct segment_range)]. *)
Definition sizeof_phys_range : Z := 16.
Definition sizeof_segment_range : Z := 32.

(** The body of the loop of [check_phys_ranges] on [phys_range[i]]. *)
Definition phys_range_ok (r : list byte) : bool :=
  let phys := le_combine (bytes_at r 0 8) in
  let size := le_combine (bytes_at r 8 8) in
  if 0x980000000 <? phys then false
  else if negb (Z.land phys 0xfff =? 0) then false
  else if 0x80000000 <? size then false
  else true.

Definition check_phys_ranges (data : list byte) : bool :=
  forallb phys_range_ok (records sizeof_phys_range data).

Definition is_segment_ranges (name : list byte) (size : Z) : bool :=
  (0 <? size) && (size mod sizeof_segment_range =? 0)
  && strcmp_eq name (lit "segment-ranges").

(** The rules after the address ranges (lines 210-221). *)
Definition late_rules (string : measure_string_info) (size : Z) : display_type :=
  if is_hex_string_90 string size then DISP_HEX_STRING
  else if is_hex_string_60 string size then DISP_HEX_STRING
  else if is_hex_int_48 size then DISP_HEX_INT
  else DISP_HEX_DUMP.

Definition compute_display_type (name data : list byte) : display_type :=
  let size := len data in
  if is_hex_int_12 size then DISP_HEX_INT
  else if is_dec_int name then DISP_DEC_INT
  else if is_segment_ranges name size then DISP_SEGMENT_RANGES
  else
    let string := measure_string data in
    if is_string string size then DISP_STRING
    else if is_function_prop name data size then DISP_FUNCTION_PROP
    else if is_hex_string_75 string size then DISP_HEX_STRING
    else if (0 <? size) && (size mod sizeof_phys_range =? 0) then
      if strstr name (lit "reg") then DISP_PHYS_RANGES
      else if check_phys_ranges data then DISP_PHYS_RANGES
      else late_rules string size
    else late_rules string size.

(** The body of the loop of [print_property_hex_string]: an optional
    backslash, then the character.  The second [strbuf_printf] overwrites
    [ok]. *)
Definition hex_string_char (sb : strbuf) (c : byte) : bool * strbuf :=
  let '(_, sb1) :=
    if Byte.eqb c backslash || Byte.eqb c quote
    then strbuf_printf sb [backslash]
    else (true, sb) in
  if is_nul c then strbuf_printf sb1 [backslash; Byte.x30]
  else if isprint c then strbuf_printf sb1 [c]
  else strbuf_printf sb1 ([backslash; Byte.x78] ++ fmt_02x (byte.unsigned c)).

Definition print_property_hex_string (sb : strbuf) (data : list byte)
  : bool * strbuf :=
  let '(ok, sb1) := strbuf_printf sb [quote] in
  if ok then
    let '(ok, sb2) := print_loop (fun sb c _ => hex_string_char sb c) sb1 data in
    if ok then strbuf_printf sb2 [quote] else (false, sb2)
  else (false, sb1).

Definition print_property_string (sb : strbuf) (data : list byte)
  : bool * strbuf :=
  let len_ := strnlen data in
  print_property_hex_string sb (bytes_at data 0 len_).

Definition print_property_function (sb : strbuf) (data : list byte)
  : bool * strbuf :=
  print_property_hex_string sb data.

Definition phys_range_text (r : list byte) (last : bool) : list byte :=
  lit "0x" ++ fmt_x (le_combine (bytes_at r 0 8)) ++ lit ","
  ++ fmt_x (le_combine (bytes_at r 8 8))
  ++ (if last then lit "" else lit "; ").

Definition print_property_phys_ranges (sb : strbuf) (data : list byte)
  : bool * strbuf :=
  print_loop (fun sb r last => strbuf_printf sb (phys_range_text r last))
    sb (records sizeof_phys_range data).

Definition segment_range_text (r : list byte) (last : bool) : list byte :=
  lit "{ phys=0x" ++ fmt_x (le_combine (bytes_at r 0 8))
  ++ lit ", virt=0x" ++ fmt_x (le_combine (bytes_at r 8 8))
  ++ lit ", remap=0x" ++ fmt_x (le_combine (bytes_at r 16 8))
  ++ lit ", size=0x" ++ fmt_x (le_combine (bytes_at r 24 4))
  ++ lit ", flags=0x" ++ fmt_x (le_combine (bytes_at r 28 4))
  ++ lit " }" ++ (if last then lit "" else lit "; ").

Definition print_property_segment_ranges (sb : strbuf) (data : list byte)
  : bool * strbuf :=
  print_loop (fun sb r last => strbuf_printf sb (segment_range_text r last))
    sb (records sizeof_segment_range data).

(** The [switch] of [print_property]. *)
Definition print_kind (disp : display_type) (sb : strbuf) (data : list byte)
  : bool * strbuf :=
  match disp with
  | DISP_HEX_INT => print_property_hex_int sb data
  | DISP_DEC_INT => print_property_dec_int sb data
  | DISP_STRING => print_property_string sb data
  | DISP_HEX_STRING => print_property_hex_string sb data
  | DISP_FUNCTION_PROP => print_property_function sb data
  | DISP_PHYS_RANGES => print_property_phys_ranges sb data
  | DISP_SEGMENT_RANGES => print_property_segment_ranges sb data
  | DISP_HEX_DUMP => print_property_hex_dump sb data
  end.

Definition print_property (sb : strbuf) (name value : list byte) : bool * strbuf :=
  print_kind (compute_display_type name value) sb value.

End Main.

(** *** The variant of [src/unnamed/part_001] *)
Module Part001.

Inductive display_type : Type :=
| DISP_HEX_DUMP
| DISP_HEX_INT
| DISP_DEC_INT
| DISP_STRING
| DISP_HEX_STRING
| DISP_FUNCTION_PROP
| DISP_PHYSADDR_LEN.

(** [words[i]] of a [const uint64_t *]. *)
Definition word_at (words : list byte) (i : Z) : Z :=
  le_combine (bytes_at words (8 * i) 8).

(** The loop [for (i = 0; i < count; i += 2)]; [n] bounds its length. *)
Fixpoint check_pairs_from (words : list byte) (count i : Z) (n : nat) : bool :=
  match n with
  | O => true
  | Datatypes.S n' =>
      if i <? count then
        let physaddr := word_at words i in
        let length := word_at words (i + 1) in
        if 0x980000000 <? physaddr then false
        else if negb (Z.land physaddr 0x3fff =? 0) then false
        else if 0x80000000 <? length then false
        else check_pairs_from words count (i + 2) n'
      else true
  end.

Definition check_physaddr_length_pairs (words : list byte) (count : Z) : bool :=
  check_pairs_from words count 0 (Z.to_nat count).

(** The rules after the address ranges (lines 153-164). *)
Definition late_rules (string : measure_string_info) (size : Z) : display_type :=
  if is_hex_string_90 string size then DISP_HEX_STRING
  else if is_hex_string_60 string size then DISP_HEX_STRING
  else if is_hex_int_48 size then DISP_HEX_INT
  else DISP_HEX_DUMP.

Definition compute_display_type (name data : list byte) : display_type :=
  let size := len data in
  if is_hex_int_12 size then DISP_HEX_INT
  else if is_dec_int name then DISP_DEC_INT
  else
    let string := measure_string data in
    if is_string string size then DISP_STRING
    else if is_function_prop name data size then DISP_FUNCTION_PROP
    else if is_hex_string_75 string size then DISP_HEX_STRING
    else if (0 <? size) && (size mod 16 =? 0) then
      if strstr name (lit "reg") then DISP_PHYSADDR_LEN
      else if check_physaddr_length_pairs data (size / 8) then DISP_PHYSADDR_LEN
      else late_rules string size
    else late_rules string size.

(** The text one character adds in [print_property_hex_string] (lines
    279-288): [isprint] is asked first. *)
Definition hex_string_char_text (c : byte) : list byte :=
  if isprint c then [c]
  else if Byte.eqb c quote then [backslash; quote]
  else if is_nul c then [backslash; Byte.x30]
  else [backslash; Byte.x78] ++ fmt_02x (byte.unsigned c).

Definition print_property_hex_string (sb : strbuf) (data : list byte)
  : bool * strbuf :=
  let '(ok, sb1) := strbuf_printf sb [quote] in
  if ok then
    let '(ok, sb2) :=
      print_loop (fun sb c _ => strbuf_printf sb (hex_string_char_text c)) sb1 data in
    if ok then strbuf_printf sb2 [quote] else (false, sb2)
  else (false, sb1).

Definition print_property_string (sb : strbuf) (data : list byte)
  : bool * strbuf :=
  let len_ := strnlen data in
  print_property_hex_string sb (bytes_at data 0 len_).

Definition print_property_function (sb : strbuf) (data : list byte)
  : bool * strbuf :=
  print_property_hex_string sb data.

Definition physaddr_len_text (r : list byte) (last : bool) : list byte :=
  lit "0x" ++ fmt_016llx (le_combine (bytes_at r 0 8)) ++ lit ","
  ++ fmt_x (le_combine (bytes_at r 8 8))
  ++ (if last then lit "" else lit "; ").

Definition print_property_physaddr_len (sb : strbuf) (data : list byte)
  : bool * strbuf :=
  print_loop (fun sb r last => strbuf_printf sb (physaddr_len_text r last))
    sb (records 16 data).

(** The [switch] of [print_property]. *)
Definition print_kind (disp : display_type) (sb : strbuf) (data : list byte)
  : bool * strbuf :=
  match disp with
  | DISP_HEX_INT => print_property_hex_int sb data
  | DISP_DEC_INT => print_property_dec_int sb data
  | DISP_STRING => print_property_string sb data
  | DISP_HEX_STRING => print_property_hex_string sb data
  | DISP_FUNCTION_PROP => print_property_function sb data
  | DISP_PHYSADDR_LEN => print_property_physaddr_len sb data
  | DISP_HEX_DUMP => print_property_hex_dump sb data
  end.

Definition print_property (sb : strbuf) (name value : list byte) : bool * strbuf :=
  print_kind (compute_display_type name value) sb value.

End Part001.

(** ** The claims' words for the classifier and the formatter *)

(** [name] contains the substring [needle]. *)
Definition contains (name needle : list byte) : Prop :=
  exists pre post, name = pre ++ needle ++ post.

(** An (address, size) record is plausible: the address is at most the
    ceiling and a multiple of the page size, the size is at most 2 GiB. *)
Definition plausible (page : Z) (r : Z * Z) : Prop :=
  fst r <= 0x980000000 /\ fst r mod page = 0 /\ snd r <= 0x80000000.

(** The (address, size) pairs of a table of 16-byte records. *)
Definition address_ranges (data : list byte) : list (Z * Z) :=
  map (fun r => (le_combine (bytes_at r 0 8), le_combine (bytes_at r 8 8)))
      (records 16 data).

(** The kinds of display, as section 4.2 names them, and the kind that
    each display type of the code stands for. *)
Inductive display_kind : Type :=
| RawHexDump
| SmallHexInteger
| DecimalInteger
| PrintableString
| QuotedHexString
| FunctionDescriptor
| AddressRangeTable
| SegmentRangeTable.

Definition main_kind (disp : Main.display_type) : display_kind :=
  match disp with
  | Main.DISP_HEX_DUMP => RawHexDump
  | Main.DISP_HEX_INT => SmallHexInteger
  | Main.DISP_DEC_INT => DecimalInteger
  | Main.DISP_STRING => PrintableString
  | Main.DISP_HEX_STRING => QuotedHexString
  | Main.DISP_FUNCTION_PROP => FunctionDescriptor
  | Main.DISP_PHYS_RANGES => AddressRangeTable
  | Main.DISP_SEGMENT_RANGES => SegmentRangeTable
  end.

Definition part001_kind (disp : Part001.display_type) : display_kind :=
  match disp with
  | Part001.DISP_HEX_DUMP => RawHexDump
  | Part001.DISP_HEX_INT => SmallHexInteger
  | Part001.DISP_DEC_INT => DecimalInteger
  | Part001.DISP_STRING => PrintableString
  | Part001.DISP_HEX_STRING => QuotedHexString
  | Part001.DISP_FUNCTION_PROP => FunctionDescriptor
  | Part001.DISP_PHYSADDR_LEN => AddressRangeTable
  end.

(** The statistics of section 4.2: the number of printable bytes, the
    number of NUL bytes, and the summed length of the maximal printable
    runs of length 8 or more.  [run_lengths data run] lists the lengths of
    the maximal runs of printable bytes of [data], in order, the first one
    continuing a run of [run] bytes; between two bytes that are not
    printable lies a run of length 0.  The position of the first NUL, or
    the length when there is none, is [strnlen]. *)
Definition printable_count (data : list byte) : Z := len (filter isprint data).

Definition nul_count (data : list byte) : Z := len (filter is_nul data).

Fixpoint run_lengths (data : list byte) (run : Z) : list Z :=
  match data with
  | [] => [run]
  | c :: rest =>
      if isprint c then run_lengths rest (run + 1)
      else run :: run_lengths rest 0
  end.

Definition printable_run_sum (data : list byte) : Z :=
  fold_right Z.add 0 (filter (fun n => 8 <=? n) (run_lengths data 0)).

(** The decision order of section 4.2, rules 1 to 10, each with the kind it
    gives; rule 11 is what is left.  [page] is the page size of the
    plausibility check; [segment_ranges] tells whether the variant has
    rule 3 (the one of part_001 has not). *)
Definition classify_rules (page : Z) (segment_ranges : bool)
    (name data : list byte) : list (Prop * display_kind) :=
  let size := len data in
  [ (size = 1 \/ size = 2, SmallHexInteger);
    (exists rest, name = Byte.x23 :: rest, DecimalInteger);
    (segment_ranges = true /\ 0 < size /\ size mod 32 = 0
     /\ name = lit "segment-ranges", SegmentRangeTable);
    (Forall (fun c => isprint c = true) (cstring data)
     /\ Forall (fun c => c = Byte.x00) (skipn (Z.to_nat (strnlen data)) data)
     /\ ((size <> 4 /\ size <> 8) \/ size - 1 <= printable_count data),
     PrintableString);
    ((exists post, name = lit "function-" ++ post)
     /\ 8 <= size /\ size mod 4 = 0
     /\ Forall (fun c => isprint c = true) (bytes_at data 4 4),
     FunctionDescriptor);
    (3 * size <= 4 * printable_count data, QuotedHexString);
    (0 < size /\ size mod 16 = 0
     /\ (contains name (lit "reg")
         \/ Forall (plausible page) (address_ranges data)),
     AddressRangeTable);
    (2 <= printable_count data /\ 24 <= size
     /\ 9 * size <= 10 * (printable_count data + nul_count data),
     QuotedHexString);
    (0 < printable_run_sum data /\ 24 <= size
     /\ 6 * size <= 10 * (printable_run_sum data + nul_count data),
     QuotedHexString);
    (size = 4 \/ size = 8, SmallHexInteger) ].

(** First match wins: [k] is the kind of the first rule that matches, or
    [otherwise] when none does. *)
Fixpoint first_match (rules : list (Prop * display_kind))
    (otherwise k : display_kind) : Prop :=
  match rules with
  | [] => k = otherwise
  | (P, k') :: rest => (P /\ k = k') \/ (~ P /\ first_match rest otherwise k)
  end.

(** Escaping as section 4.3 gives it: backslash and double quote get a
    backslash, NUL is [\0], any other byte that is not printable is [\xHH]. *)
Definition escape_byte (c : byte) : list byte :=
  if Byte.eqb c backslash || Byte.eqb c quote then [backslash; c]
  else if is_nul c then [backslash; Byte.x30]
  else if isprint c then [c]
  else [backslash; Byte.x78] ++ fmt_02x (byte.unsigned c).

Definition quoted (data : list byte) : list byte :=
  [quote] ++ flat_map escape_byte data ++ [quote].

(** The sink that never runs out: [strbuf_alloc(-1)]. *)
Definition unbounded : strbuf := strbuf_alloc SIZE_MAX.

(** The driver formats every property into the same sink, after
    [sb.pos = 0]: the array keeps the text of the property before.
    [cleared] is that sink with the terminator written at its start, which
    the driver leaves to the first [strbuf_printf]. *)
Definition rewind (sb : strbuf) : strbuf :=
  {| str := str sb; pos := 0; cap := cap sb; max := max sb |}.

Definition cleared (sb : strbuf) : strbuf :=
  {| str := Byte.x00 :: tl (str sb); pos := 0; cap := cap sb; max := max sb |}.

(** ** What a sink has been asked to hold

    [tracks sb text]: the calls of [strbuf_printf] on [sb] so far add up to
    [text].  The array holds the characters of [text] that fit and the
    terminator, [pos] is the length of [text], and either all of [text] is
    in the array or the maximum has been passed. *)
Definition nul_free (text : list byte) : bool :=
  forallb (fun c => negb (is_nul c)) text.

Definition tracks (sb : strbuf) (text : list byte) : Prop :=
  1 <= cap sb <= max sb /\ max sb <= SIZE_MAX
  /\ len (str sb) = cap sb /\ pos sb = len text
  /\ (len text < cap sb \/ max sb <= len text)
  /\ exists junk,
       str sb = firstn (Z.to_nat (Z.min (len text) (cap sb - 1))) text
                ++ Byte.x00 :: junk.

(** The text of a loop of [print_loop] whose body prints [chunk]. *)
Fixpoint loop_text {A} (chunk : A -> bool -> list byte) (items : list A)
  : list byte :=
  match items with
  | [] => []
  | x :: rest =>
      chunk x (match rest with [] => true | _ => false end) ++ loop_text chunk rest
  end.

(** [renders f full]: on a sink that holds [text] and has not passed its
    maximum, the formatter [f] adds [full], or a prefix of it that passes
    the maximum, and says which. *)
Definition renders (f : strbuf -> bool * strbuf) (full : list byte) : Prop :=
  forall sb text,
    tracks sb text -> len text < max sb -> len (text ++ full) < SIZE_MAX ->
    exists added,
      tracks (snd (f sb)) (text ++ added)
      /\ max (snd (f sb)) = max sb
      /\ (exists rest, full = added ++ rest)
      /\ (if fst (f sb) then added = full /\ len (text ++ full) < max sb
          else max sb <= len (text ++ added)).

(** The text each display kind is rendered to. *)
Definition text_of_kind_main (disp : Main.display_type) (data : list byte)
  : list byte :=
  match disp with
  | Main.DISP_HEX_INT => hex_int_text data
  | Main.DISP_DEC_INT => dec_int_text data
  | Main.DISP_STRING => quoted (cstring data)
  | Main.DISP_HEX_STRING => quoted data
  | Main.DISP_FUNCTION_PROP => quoted data
  | Main.DISP_PHYS_RANGES =>
      loop_text Main.phys_range_text (records Main.sizeof_phys_range data)
  | Main.DISP_SEGMENT_RANGES =>
      loop_text Main.segment_range_text (records Main.sizeof_segment_range data)
  | Main.DISP_HEX_DUMP => loop_text (hex_dump_text (len data)) data
  end.

Definition quoted_part001 (data : list byte) : list byte :=
  [quote] ++ flat_map Part001.hex_string_char_text data ++ [quote].

Definition text_of_kind_part001 (disp : Part001.display_type) (data : list byte)
  : list byte :=
  match disp with
  | Part001.DISP_HEX_INT => hex_int_text data
  | Part001.DISP_DEC_INT => dec_int_text data
  | Part001.DISP_STRING => quoted_part001 (cstring data)
  | Part001.DISP_HEX_STRING => quoted_part001 data
  | Part001.DISP_FUNCTION_PROP => quoted_part001 data
  | Part001.DISP_PHYSADDR_LEN =>
      loop_text Part001.physaddr_len_text (records 16 data)
  | Part001.DISP_HEX_DUMP => loop_text (hex_dump_text (len data)) data
  end.

(** ** More words for the classifier and the formatters *)

(** A value that reads as text: printable bytes followed by NUL bytes
    only; at the sizes of an integer (4 and 8) one NUL at most. *)
Definition terminated_text (data : list byte) : Prop :=
  exists s k,
    data = s ++ repeat Byte.x00 k /\ forallb isprint s = true
    /\ ((len data <> 4 /\ len data <> 8) \/ (k <= 1)%nat).

(** The [assert] at the head of the formatter of each display kind (the
    formatters of the other kinds have none). *)
Definition main_formatter_assert (disp : Main.display_type) (size : Z) : bool :=
  match disp with
  | Main.DISP_STRING => 0 <? size
  | Main.DISP_PHYS_RANGES => (size mod Main.sizeof_phys_range =? 0) && (0 <? size)
  | Main.DISP_SEGMENT_RANGES =>
      (0 <? size) && (size mod Main.sizeof_segment_range =? 0)
  | _ => true
  end.

Definition part001_formatter_assert (disp : Part001.display_type) (size : Z)
  : bool :=
  match disp with
  | Part001.DISP_STRING => 0 <? size
  | Part001.DISP_PHYSADDR_LEN => (size mod 16 =? 0) && (0 <? size)
  | _ => true
  end.

(** The [assert]s one call of [strbuf_printf] passes, in the order they
    are reached: line 255 in [strbuf_vprintf_no_grow], then line 284 when
    there is no capacity left, or lines 255 and 294 after the [realloc]. *)
Definition strbuf_printf_asserts (sb : strbuf) (text : list byte) : bool :=
  (cap sb <=? max sb)
  && let '(ok, sb1, req_cap) := strbuf_vprintf_no_grow sb text in
     if ok then true
     else if max sb1 <? req_cap then cap sb1 <=? u64 (req_cap - 1)
     else
       let sb2 := {| str := realloc (str sb1) req_cap; pos := pos sb1;
                     cap := req_cap; max := max sb1 |} in
       (cap sb2 <=? max sb2) && fst (fst (strbuf_vprintf_no_grow sb2 text)).

(** ** The driver: [devicetree_print] and [main]

    Standard output is the list of the bytes written to it.  The blocks
    of [devicetree_print] share [node_name] and [sb]; they are the state
    of the observers, with the output.  [node_name] points into the
    buffer: it is modelled by the view it was set from (the payload of a
    property), or by the literal.  [lost] records that the run has left
    what the views determine: a string without terminator in its view was
    printed ([printf] reads on past the view), or [node_name] was printed
    before anything was assigned to it. *)
Module Driver.

Record printer : Type := {
  node_name : option (list byte);
  sb : strbuf;
  stdout : list byte;
  lost : bool
}.

Definition set_node_name (st : printer) (view : list byte) : printer :=
  {| node_name := Some view; sb := sb st; stdout := stdout st; lost := lost st |}.

Definition printf (st : printer) (text : list byte) : printer :=
  {| node_name := node_name st; sb := sb st; stdout := stdout st ++ text;
     lost := lost st |}.

Definition set_sb (st : printer) (sb' : strbuf) : printer :=
  {| node_name := node_name st; sb := sb'; stdout := stdout st; lost := lost st |}.

Definition lose (st : printer) : printer :=
  {| node_name := node_name st; sb := sb st; stdout := stdout st; lost := true |}.

(** The string that [%s] prints from a view. *)
Definition c_str (view : list byte) : option (list byte) :=
  if existsb is_nul view then Some (cstring view) else None.

(** [%zu]. *)
Definition fmt_zu (n : Z) : list byte := rev (dec_digits_rev 20 n).

Definition newline : list byte := [Byte.x0a].

(** [strcmp(name, "name")] reads at most five bytes of the name field. *)
Definition find_node_name_cb : property_callback printer :=
  fun depth name value size st =>
    if strcmp_eq (cstring name) (lit "name")
    then (set_node_name st value, false)
    else (st, false).

Section Print.
Variable print_indent : Z -> list byte.
Variable print_property : strbuf -> list byte -> list byte -> bool * strbuf.
Variable buf : list byte.

(** [node] and [size] are the rest of the buffer from the node on. *)
Definition node_cb : node_callback printer :=
  fun depth node size n_properties n_children st =>
    match slice buf node size with
    | None => (lose st, false)
    | Some view =>
        match devicetree_node_scan_properties view (Some find_node_name_cb) st with
        | None => (lose st, false)
        | Some (ok, st1) =>
            let st2 :=
              if negb ok then set_node_name st1 (lit "NODE" ++ [Byte.x00])
              else st1 in
            match node_name st2 with
            | None => (lose st2, false)
            | Some view' =>
                match c_str view' with
                | None => (lose st2, false)
                | Some s =>
                    (printf st2 (print_indent depth ++ s ++ lit ":" ++ newline),
                     false)
                end
            end
        end
    end.

(** The view [value] has [size] bytes: the formatters read no others. *)
Definition property_cb : property_callback printer :=
  fun depth name value size st =>
    match c_str name with
    | None => (lose st, false)
    | Some name' =>
        let st1 :=
          printf st (print_indent depth ++ name' ++ lit " (" ++ fmt_zu size
                     ++ lit ")" ++ (if 0 <? size then lit ": " else lit "")) in
        let st2 :=
          if 0 <? size then
            let '(complete, sb') := print_property (rewind (sb st1)) name' value in
            printf (set_sb st1 sb')
              (contents sb' ++ (if complete then lit "" else lit "..."))
          else st1 in
        (printf st2 newline, false)
    end.

(** The result and what was printed; [None] when the run is [lost]. *)
Definition devicetree_print (print_verbose : bool) : option (bool * list byte) :=
  let st0 := {| node_name := None;
                sb := strbuf_alloc (if print_verbose then u64 (-1) else 64);
                stdout := []; lost := false |} in
  let size := len buf in
  match devicetree_iterate buf (Some node_cb) (Some property_cb) st0 with
  | None => None
  | Some (ok, processed, st) =>
      if lost st then None
      else Some (ok && (processed =? 0 + size), stdout st)
  end.
End Print.

(** [main] past its arguments: [mmap_file] is the file system, a path
    gives the bytes of the file or nothing when [open], [fstat] or [mmap]
    fails.  The result is the exit status and standard output. *)
Definition run (mmap_file : list byte -> option (list byte))
    (print_indent : Z -> list byte)
    (print_property : strbuf -> list byte -> list byte -> bool * strbuf)
    (print_verbose : bool) (file : list byte) : option (Z * list byte) :=
  match mmap_file file with
  | None => Some (2, [])
  | Some data =>
      match devicetree_print print_indent print_property data print_verbose with
      | None => None
      | Some (ok, out) => Some (if negb ok then 3 else 0, out)
      end
  end.

End Driver.

(** *** The driver of the variant bundled with [devicetree-parse.h] *)
Module MainTool.

Definition print_indent (print_tree : bool) (depth : Z) : list byte :=
  if print_tree then
    if 0 <? depth then
      flat_map (fun _ => lit "|   ") (seq 0 (Z.to_nat (u32 (depth - 1))))
      ++ lit "|-- "
    else []
  else repeat Byte.x20 (Z.to_nat (u32 (4 * depth))).

Definition devicetree_print (print_verbose print_tree : bool) (data : list byte)
  : option (bool * list byte) :=
  Driver.devicetree_print (print_indent print_tree) Main.print_property data
    print_verbose.

(** The loop over the options: the arguments from [argv[argidx]] on, and
    the two flags.  It returns the flags and the arguments left. *)
Fixpoint parse_options (args : list (list byte)) (print_verbose print_tree : bool)
  : bool * bool * list (list byte) :=
  match args with
  | [] => (print_verbose, print_tree, [])
  | arg :: rest =>
      if strcmp_eq arg (lit "-v") then parse_options rest true print_tree
      else if strcmp_eq arg (lit "-t") then parse_options rest print_verbose true
      else (print_verbose, print_tree, args)
  end.

Definition usage (progname : list byte) : list byte :=
  lit "usage: " ++ progname ++ lit " [-v] [-t] <devicetree-file>" ++ Driver.newline.

Definition main (mmap_file : list byte -> option (list byte))
    (getprogname : list byte) (argv : list (list byte)) : option (Z * list byte) :=
  let '(print_verbose, print_tree, rest) := parse_options (tl argv) false false in
  match rest with
  | [file] =>
      Driver.run mmap_file (print_indent print_tree) Main.print_property
        print_verbose file
  | _ => Some (1, usage getprogname)
  end.

End MainTool.

(** *** The driver of [src/unnamed/part_001] *)
Module Part001Tool.

Definition print_indent (depth : Z) : list byte :=
  repeat Byte.x20 (Z.to_nat (u32 (4 * depth))).

Definition devicetree_print (verbose : bool) (data : list byte)
  : option (bool * list byte) :=
  Driver.devicetree_print print_indent Part001.print_property data verbose.

Definition usage (progname : list byte) : list byte :=
  lit "usage: " ++ progname ++ lit " [-v] <devicetree-file>" ++ Driver.newline.

Definition main (mmap_file : list byte -> option (list byte))
    (getprogname : list byte) (argv : list (list byte)) : option (Z * list byte) :=
  match argv with
  | [_; file] =>
      Driver.run mmap_file print_indent Part001.print_property false file
  | [_; arg; file] =>
      if negb (strcmp_eq arg (lit "-v")) then Some (1, usage getprogname)
      else Driver.run mmap_file print_indent Part001.print_property true file
  | _ => Some (1, usage getprogname)
  end.

End Part001Tool.

(** ** What the driver prints, told from the tree

    A value is shown whole when its text is shorter than the maximum of
    the sink, 64 without [-v]; otherwise 63 characters of it and three
    dots. *)
Definition shown_value (print_verbose : bool) (full : list byte) : list byte :=
  if print_verbose || (len full <? 64) then full
  else firstn 63 full ++ lit "...".

(** The whole text of a value under each variant. *)
Definition main_text (name value : list byte) : list byte :=
  text_of_kind_main (Main.compute_display_type name value) value.

Definition part001_text (name value : list byte) : list byte :=
  text_of_kind_part001 (Part001.compute_display_type name value) value.

(** An argument that the header's [main] takes for an option. *)
Definition is_option (arg : list byte) : bool :=
  strcmp_eq arg (lit "-v") || strcmp_eq arg (lit "-t").

Section Shown.
Variable print_indent : Z -> list byte.
(** The whole text of a value, from its name and its bytes. *)
Variable text_of : list byte -> list byte -> list byte.
Variable print_verbose : bool.

Definition property_line (depth : Z) (p : property) : list byte :=
  let name := cstring (prop_name p) in
  print_indent depth ++ name ++ lit " (" ++ Driver.fmt_zu (len (prop_value p))
  ++ lit ")"
  ++ (if 0 <? len (prop_value p)
      then lit ": " ++ shown_value print_verbose (text_of name (prop_value p))
      else [])
  ++ Driver.newline.

(** The name a node is printed with: the value of its last property
    called name, or what the node before it was printed with. *)
Definition name_of (ps : list property) (before : option (list byte))
  : option (list byte) :=
  fold_left
    (fun nm p =>
       if strcmp_eq (cstring (prop_name p)) (lit "name")
       then Some (prop_value p) else nm)
    ps before.

(** The lines of a subtree and the name in use after it; nothing when
    a name to print has no terminator or there is no name yet. *)
Fixpoint tree_text (t : tree) (depth : Z) (before : option (list byte))
  : option (list byte * option (list byte)) :=
  match t with
  | Node ps cs =>
      match name_of ps before with
      | None => None
      | Some view =>
          match Driver.c_str view with
          | None => None
          | Some s =>
              (fix siblings (cs : list tree) (text : list byte)
                   (nm : option (list byte)) :=
                 match cs with
                 | [] => Some (text, nm)
                 | c :: cs' =>
                     match tree_text c (Z.succ depth) nm with
                     | None => None
                     | Some (text', nm') => siblings cs' (text ++ text') nm'
                     end
                 end)
                cs
                (print_indent depth ++ s ++ lit ":" ++ Driver.newline
                 ++ flat_map (property_line (Z.succ depth)) ps)
                (Some view)
          end
      end
  end.

(** The lines of consecutive subtrees, after [text]. *)
Definition forest_text (cs : list tree) (depth : Z) (text : list byte)
    (nm : option (list byte)) : option (list byte * option (list byte)) :=
  (fix siblings (cs : list tree) (text : list byte) (nm : option (list byte)) :=
     match cs with
     | [] => Some (text, nm)
     | c :: cs' =>
         match tree_text c depth nm with
         | None => None
         | Some (text', nm') => siblings cs' (text ++ text') nm'
         end
     end) cs text nm.
End Shown.

(** A tree whose nodes can all be printed under a name of their own:
    each node has a property called name, and the value of every property
    called name holds a terminator. *)
Definition is_name (p : property) : bool :=
  strcmp_eq (cstring (prop_name p)) (lit "name").

Fixpoint well_named (t : tree) : bool :=
  match t with
  | Node ps cs =>
      existsb is_name ps
      && forallb (fun p => negb (is_name p) || existsb is_nul (prop_value p)) ps
      && forallb well_named cs
  end.

(** The sink of the driver between two properties: it follows some text,
    its maximum is the one [devicetree_print] gave it, and without [-v]
    its array has the 64 bytes it was allocated with. *)
Definition driver_sink (print_verbose : bool) (sb : strbuf) : Prop :=
  (exists text, tracks sb text)
  /\ max sb = (if print_verbose then SIZE_MAX else 64)
  /\ (print_verbose = false -> cap sb = 64).

(** [grows f full]: the formatter [f], whose whole text is [full], does
    not shrink the array of the sink. *)
Definition grows (f : strbuf -> bool * strbuf) (full : list byte) : Prop :=
  forall sb text,
    tracks sb text -> len text < max sb -> len (text ++ full) < SIZE_MAX ->
    cap sb <= cap (snd (f sb)).

(** ** A small device tree, for the examples

    The root has a name and a cell count (whose size field carries the
    flag); its first child has a [reg] table of two ranges, its second
    child a 5-byte string, so that the encoding ends with 3 bytes of
    padding. *)
Definition name_field (s : string) : list byte :=
  lit s ++ repeat Byte.x00 (32 - length (lit s)).
Arguments name_field s%_string.

Definition example_reg : list byte :=
  le_split 8 0x200000000 ++ le_split 8 0x4000
  ++ le_split 8 0x210000000 ++ le_split 8 0x1000.

Definition example_root_properties : list property :=
  [ {| prop_name := name_field "name"; prop_flag := false;
       prop_value := lit "dt" ++ [Byte.x00] |};
    {| prop_name := name_field "#size-cells"; prop_flag := true;
       prop_value := le_split 4 2 |} ].

Definition example_children : list tree :=
  [ Node [ {| prop_name := name_field "reg"; prop_flag := false;
              prop_value := example_reg |} ] [];
    Node [ {| prop_name := name_field "model"; prop_flag := false;
              prop_value := lit "J42d" ++ [Byte.x00] |} ] [] ].

Definition example_tree : tree := Node example_root_properties example_children.

Definition example_buffer : list byte := encode example_tree.

(** An observer that asks to stop at the first property it is given. *)
Definition stop_at_once : property_callback unit :=
  fun _ _ _ _ st => (st, true).

(** The log of the walk of the example with that observer. *)
Definition example_log : list (event * bool) :=
  match devicetree_iterate example_buffer
          (Some (logged_node None (Some stop_at_once)))
          (Some (logged_property None (Some stop_at_once))) (tt, []) with
  | Some (_, _, (_, log)) => log
  | None => []
  end.

(** What the header's variant prints for the example, without options. *)
Definition example_text : list byte :=
  match tree_text (MainTool.print_indent false) main_text false example_tree 0 None with
  | Some (text, _) => text
  | None => []
  end.

(** A file system with one file, which holds the example. *)
Definition example_files (path : list byte) : option (list byte) :=
  if strcmp_eq path (lit "dt.bin") then Some example_buffer else None.

(** A tree whose two nodes both have a name. *)
Definition example_named_tree : tree :=
  Node example_root_properties
    [ Node [ {| prop_name := name_field "name"; prop_flag := false;
                prop_value := lit "cpu0" ++ [Byte.x00] |};
             {| prop_name := name_field "reg"; prop_flag := false;
                prop_value := example_reg |} ] [] ].

(** * Properties *)

(** ** Lengths, slices and little-endian fields *)

Lemma len_nonneg {A} (l : list A) : 0 <= len l.
Proof. unfold len. lia. Qed.

Lemma len_app {A} (a b : list A) : len (a ++ b) = len a + len b.
Proof. unfold len. rewrite length_app. lia. Qed.

Lemma len_cons {A} (x : A) (l : list A) : len (x :: l) = 1 + len l.
Proof. unfold len. cbn [length]. lia. Qed.

Lemma len_nil {A} : len (@nil A) = 0.
Proof. reflexivity. Qed.

Lemma to_nat_len {A} (l : list A) : Z.to_nat (len l) = length l.
Proof. unfold len. apply Nat2Z.id. Qed.

Lemma len_le_split n z : len (le_split n z) = Z.of_nat n.
Proof. unfold len. now rewrite length_le_split. Qed.

Lemma len_repeat {A} (x : A) n : len (repeat x n) = Z.of_nat n.
Proof. unfold len. now rewrite repeat_length. Qed.

Lemma len_firstn {A} (l : list A) k :
  0 <= k <= len l -> len (firstn (Z.to_nat k) l) = k.
Proof. unfold len. intros. rewrite length_firstn. lia. Qed.

Lemma padding_range n : 0 <= padding n < 4.
Proof. unfold padding. apply Z.mod_pos_bound. lia. Qed.

Lemma padding_aligned n : (n + padding n) mod 4 = 0.
Proof.
  unfold padding.
  pose proof (Z.mod_pos_bound n 4 ltac:(lia)).
  destruct (Z.eq_dec (n mod 4) 0) as [E | E].
  - rewrite E. change ((4 - 0) mod 4) with 0. now rewrite Z.add_0_r.
  - rewrite (Z.mod_small (4 - n mod 4)) by lia.
    rewrite (Z.div_mod n 4) at 1 by lia.
    replace (4 * (n / 4) + n mod 4 + (4 - n mod 4)) with ((n / 4 + 1) * 4) by lia.
    apply Z.mod_mul. lia.
Qed.

Lemma len_encode_property p :
  len (encode_property p)
  = len (prop_name p) + 4 + len (prop_value p) + padding (len (prop_value p)).
Proof.
  unfold encode_property. rewrite !len_app, len_le_split, len_repeat.
  pose proof (padding_range (len (prop_value p))). lia.
Qed.

Lemma slice_bounds buf off n x :
  slice buf off n = Some x -> 0 <= off /\ 0 <= n /\ off + n <= len buf.
Proof.
  unfold slice. destruct (_ && _) eqn:E; [|discriminate]. intros _.
  apply andb_prop in E as [E E3]. apply andb_prop in E as [E1 E2]. lia.
Qed.

Lemma slice_len buf off n x : slice buf off n = Some x -> len x = n.
Proof.
  intros H. pose proof (slice_bounds _ _ _ _ H) as (H1 & H2 & H3).
  unfold slice in H. destruct (_ && _); [|discriminate]. injection H as <-.
  unfold len in *. rewrite length_firstn, length_skipn. lia.
Qed.

Lemma slice_inside buf off n :
  0 <= off -> 0 <= n -> off + n <= len buf -> exists x, slice buf off n = Some x.
Proof.
  intros. unfold slice.
  replace ((0 <=? off) && (0 <=? n) && (off + n <=? len buf)) with true; eauto.
  symmetry. rewrite !andb_true_iff. lia.
Qed.

Lemma holds_middle pre x post : holds (pre ++ x ++ post) (len pre) x.
Proof.
  unfold holds, slice.
  pose proof (len_nonneg pre). pose proof (len_nonneg x). pose proof (len_nonneg post).
  replace (_ && _) with true
    by (symmetry; rewrite !andb_true_iff, !len_app; lia).
  f_equal. unfold len. rewrite !Nat2Z.id.
  rewrite skipn_app, skipn_all, Nat.sub_diag. cbn [skipn app].
  rewrite firstn_app, firstn_all, Nat.sub_diag. cbn [firstn]. apply app_nil_r.
Qed.

Lemma holds_app buf off x y :
  holds buf off (x ++ y) -> holds buf off x /\ holds buf (off + len x) y.
Proof.
  unfold holds. intros H. pose proof (slice_bounds _ _ _ _ H) as (H1 & H2 & H3).
  rewrite len_app in *.
  pose proof (len_nonneg x). pose proof (len_nonneg y).
  unfold slice in *.
  replace ((0 <=? off) && (0 <=? len x + len y) && (off + (len x + len y) <=? len buf))
    with true in H by (symmetry; rewrite !andb_true_iff; lia).
  replace ((0 <=? off) && (0 <=? len x) && (off + len x <=? len buf))
    with true by (symmetry; rewrite !andb_true_iff; lia).
  replace ((0 <=? off + len x) && (0 <=? len y) && (off + len x + len y <=? len buf))
    with true by (symmetry; rewrite !andb_true_iff; lia).
  injection H as H.
  assert (E : firstn (Z.to_nat (len x)) (firstn (Z.to_nat (len x + len y))
                (skipn (Z.to_nat off) buf)) = x).
  { rewrite H. unfold len. rewrite Nat2Z.id, firstn_app, firstn_all, Nat.sub_diag.
    cbn [firstn]. apply app_nil_r. }
  split; f_equal.
  - rewrite firstn_firstn in E. rewrite <- E at 2. f_equal. lia.
  - apply (f_equal (skipn (Z.to_nat (len x)))) in H.
    rewrite skipn_firstn_comm, skipn_skipn in H.
    replace (Z.to_nat (len x + len y) - Z.to_nat (len x))%nat
      with (Z.to_nat (len y)) in H by lia.
    replace (Z.to_nat (off + len x)) with (Z.to_nat (len x) + Z.to_nat off)%nat by lia.
    rewrite H. unfold len. rewrite Nat2Z.id, skipn_app, skipn_all, Nat.sub_diag.
    reflexivity.
Qed.

Lemma holds_end buf off x : holds buf off x -> off + len x <= len buf /\ 0 <= off.
Proof. intros H. apply slice_bounds in H. lia. Qed.

(** A truncated buffer holds what lies before the cut. *)
Lemma slice_firstn buf k off n :
  0 <= off -> 0 <= n -> off + n <= k -> k <= len buf ->
  slice (firstn (Z.to_nat k) buf) off n = slice buf off n.
Proof.
  intros. unfold slice. rewrite len_firstn by lia.
  replace ((0 <=? off) && (0 <=? n) && (off + n <=? k))
    with true by (symmetry; rewrite !andb_true_iff; lia).
  replace ((0 <=? off) && (0 <=? n) && (off + n <=? len buf))
    with true by (symmetry; rewrite !andb_true_iff; lia).
  f_equal. rewrite skipn_firstn_comm, firstn_firstn. f_equal. lia.
Qed.

Lemma holds_firstn buf k off x :
  holds buf off x -> off + len x <= k -> k <= len buf ->
  holds (firstn (Z.to_nat k) buf) off x.
Proof.
  intros H Hk Hb. unfold holds in *.
  pose proof (slice_bounds _ _ _ _ H). rewrite slice_firstn; auto; lia.
Qed.

Lemma load32_holds buf off z :
  holds buf off (le_split 4 z) -> load32 buf off = Some (z mod 2 ^ 32).
Proof.
  unfold holds, load32. rewrite len_le_split. change (Z.of_nat 4) with 4.
  intros ->. cbn [option_map]. now rewrite le_combine_split.
Qed.

(** ** One property header *)

Lemma mask_flag raw :
  0 <= raw -> Z.land raw (u32 (Z.lnot 0x80000000)) = raw mod 2 ^ 31.
Proof.
  intros H. change (u32 (Z.lnot 0x80000000)) with (Z.ones 31).
  apply Z.land_ones. lia.
Qed.

Lemma land_clear_low2 x :
  0 <= x < 2 ^ 32 -> Z.land x (u32 (Z.lnot 0x3)) = 4 * (x / 4).
Proof.
  intros H.
  change (u32 (Z.lnot 0x3)) with (Z.land (Z.ones 32) (Z.lnot (Z.ones 2))).
  rewrite Z.land_assoc, Z.land_ones by lia.
  rewrite Z.mod_small by lia.
  rewrite <- Z.ldiff_land, Z.ldiff_ones_r by lia.
  rewrite Z.shiftr_div_pow2, Z.shiftl_mul_pow2 by lia.
  change (2 ^ 2) with 4. lia.
Qed.

Lemma padded_size_eq s :
  0 <= s < 2 ^ 31 -> Z.land (u32 (s + 0x3)) (u32 (Z.lnot 0x3)) = round_up4 s.
Proof.
  intros H. unfold u32 at 1. rewrite Z.mod_small by lia.
  rewrite land_clear_low2 by lia. reflexivity.
Qed.

Lemma round_up4_padding s : round_up4 s = s + padding s.
Proof. unfold round_up4, padding. Z.div_mod_to_equations. lia. Qed.

Lemma round_up4_ge s : s <= round_up4 s.
Proof. rewrite round_up4_padding. pose proof (padding_range s). lia. Qed.

Lemma masked_size_range buf p : 0 <= masked_size buf p < 2 ^ 31.
Proof. unfold masked_size. apply Z.mod_pos_bound. lia. Qed.

Lemma slice_bytes_at buf off n :
  0 <= off -> 0 <= n -> off + n <= len buf ->
  slice buf off n = Some (bytes_at buf off n).
Proof.
  intros. unfold slice, bytes_at.
  replace ((0 <=? off) && (0 <=? n) && (off + n <=? len buf)) with true; auto.
  symmetry. rewrite !andb_true_iff. lia.
Qed.

Lemma load8_inside buf off :
  0 <= off -> off + 1 <= len buf ->
  load8 buf off = Some (byte.unsigned (nth (Z.to_nat off) buf Byte.x00)).
Proof.
  intros H1 H2. unfold load8. rewrite slice_bytes_at by lia. cbn [option_map].
  f_equal. unfold bytes_at.
  assert (Hl : (Z.to_nat off < length buf)%nat) by (unfold len in H2; lia).
  revert Hl. generalize (Z.to_nat off) as i. clear. intros i.
  revert buf. induction i; intros [|b buf] Hl; cbn [length] in Hl; try lia.
  - cbn. apply le_combine_1.
  - cbn [skipn nth]. apply IHi. lia.
Qed.

Lemma byte_unsigned_zero b : byte.unsigned b = 0 <-> b = Byte.x00.
Proof.
  split; [|now intros ->].
  intros H. apply byte.unsigned_inj. rewrite H. reflexivity.
Qed.

(** The step as a function of the buffer. *)
Lemma parse_property_eq buf p :
  0 <= p ->
  parse_property buf p =
    if len buf <? p + sizeof_prop then Some None
    else if negb (byte.unsigned (name_terminator buf p) =? 0) then Some None
    else if len buf <? p + sizeof_prop + round_up4 (masked_size buf p)
    then if p + sizeof_prop + masked_size buf p =? len buf
         then Some (Some (accepted_property buf p)) else Some None
    else Some (Some (accepted_property buf p)).
Proof.
  intros Hp. unfold parse_property, data_end, accepted_property.
  unfold sizeof_prop, sizeof_name in *.
  destruct (len buf <? p + 36) eqn:E1; [reflexivity|].
  apply Z.ltb_ge in E1.
  rewrite load8_inside by lia. fold (name_terminator buf p).
  unfold name_terminator, sizeof_name.
  destruct (negb _) eqn:E2; [reflexivity|].
  unfold load32. rewrite slice_bytes_at by lia. cbn [option_map].
  pose proof (le_combine_bound (bytes_at buf (p + 32) 4)) as Hb.
  rewrite mask_flag by lia.
  fold (masked_size buf p). unfold masked_size, sizeof_name.
  set (s := le_combine (bytes_at buf (p + 32) 4) mod 2 ^ 31).
  assert (Hs : 0 <= s < 2 ^ 31) by (apply Z.mod_pos_bound; lia).
  rewrite padded_size_eq by lia.
  pose proof (round_up4_ge s).
  destruct (len buf <? p + 36 + round_up4 s) eqn:E3.
  - replace (p + 36 + round_up4 s - round_up4 s + s) with (p + 36 + s) by lia.
    destruct (p + 36 + s =? len buf); [|reflexivity].
    apply Z.ltb_lt in E3. do 3 f_equal. lia.
  - apply Z.ltb_ge in E3. do 3 f_equal. lia.
Qed.

(** ** A valid property in the buffer *)

Lemma nth_slice buf off n x i d :
  slice buf off n = Some x -> (i < Z.to_nat n)%nat ->
  nth i x d = nth (Z.to_nat off + i) buf d.
Proof.
  intros H Hi. pose proof (slice_bounds _ _ _ _ H) as (H1 & H2 & H3).
  unfold slice in H. destruct (_ && _); [|discriminate]. injection H as <-.
  rewrite nth_firstn. replace (i <? Z.to_nat n)%nat with true
    by (symmetry; apply Nat.ltb_lt; lia).
  rewrite nth_skipn. reflexivity.
Qed.

Lemma valid_property_inv pr :
  valid_property pr = true ->
  len (prop_name pr) = 32 /\ nth 31 (prop_name pr) Byte.x00 = Byte.x00
  /\ 0 <= len (prop_value pr) < 2 ^ 31.
Proof.
  unfold valid_property, sizeof_name. rewrite !andb_true_iff.
  intros [[H1 H2] H3]. apply Z.eqb_eq in H1, H2. apply Z.ltb_lt in H3.
  pose proof (len_nonneg (prop_value pr)). repeat split; try lia.
  apply byte_unsigned_zero in H2.
  rewrite (nth_indep _ Byte.x00 Byte.x01); [exact H2|]. unfold len in H1. lia.
Qed.

Lemma size_field_masked pr :
  0 <= len (prop_value pr) < 2 ^ 31 ->
  (size_field pr mod 2 ^ 32) mod 2 ^ 31 = len (prop_value pr).
Proof.
  intros H. unfold size_field.
  change (2 ^ 31) with 2147483648 in *. change (2 ^ 32) with 4294967296.
  destruct (prop_flag pr); Z.div_mod_to_equations; lia.
Qed.

Lemma header_fields buf p pr :
  valid_property pr = true ->
  holds buf p (prop_name pr ++ le_split 4 (size_field pr)) ->
  0 <= p /\ p + sizeof_prop <= len buf
  /\ slice buf p sizeof_name = Some (prop_name pr)
  /\ name_terminator buf p = Byte.x00
  /\ masked_size buf p = len (prop_value pr).
Proof.
  intros Hv Hh. apply valid_property_inv in Hv as (Hn & Ht & Hs).
  pose proof (holds_end _ _ _ Hh) as [He Hp]. rewrite len_app, len_le_split in He.
  apply holds_app in Hh as [Hname Hsize]. unfold holds in Hname, Hsize.
  rewrite Hn in *. rewrite len_le_split in Hsize. change (Z.of_nat 4) with 4 in *.
  unfold sizeof_prop, sizeof_name. repeat split; try lia; auto.
  - unfold name_terminator, sizeof_name.
    transitivity (nth 31 (prop_name pr) Byte.x00); [|exact Ht].
    rewrite (nth_slice _ _ _ _ 31%nat Byte.x00 Hname) by lia. f_equal. lia.
  - unfold masked_size, sizeof_name.
    rewrite slice_bytes_at in Hsize by lia. injection Hsize as ->.
    rewrite le_combine_split. change (Z.of_nat 4 * 8) with 32.
    now apply size_field_masked.
Qed.

Lemma holds_encode_property buf p pr :
  valid_property pr = true ->
  holds buf p (encode_property pr) ->
  holds buf p (prop_name pr ++ le_split 4 (size_field pr))
  /\ holds buf (p + sizeof_prop) (prop_value pr)
  /\ p + len (encode_property pr) <= len buf.
Proof.
  intros Hv Hh. pose proof (valid_property_inv _ Hv) as (Hn & _ & _).
  pose proof (holds_end _ _ _ Hh) as [He Hp].
  unfold encode_property in Hh. rewrite !app_assoc in Hh. rewrite <- app_assoc in Hh.
  apply holds_app in Hh as [Hhead Hrest]. split; [exact Hhead|].
  apply holds_app in Hrest as [Hval _].
  rewrite len_app, len_le_split, Hn in Hval. split; [exact Hval | lia].
Qed.

(** The whole property lies in the buffer. *)
Lemma parse_valid_property buf p pr :
  valid_property pr = true ->
  holds buf p (encode_property pr) ->
  parse_property buf p
  = Some (Some {| pp_name := p; pp_value := p + sizeof_prop;
                  pp_size := len (prop_value pr);
                  pp_next := p + len (encode_property pr) |})
  /\ slice buf p sizeof_name = Some (prop_name pr)
  /\ slice buf (p + sizeof_prop) (len (prop_value pr)) = Some (prop_value pr).
Proof.
  intros Hv Hh.
  pose proof (holds_encode_property _ _ _ Hv Hh) as (Hhead & Hval & Hend).
  pose proof (header_fields _ _ _ Hv Hhead) as (Hp & Hfit & Hname & Hterm & Hsize).
  pose proof (valid_property_inv _ Hv) as (Hn & _ & Hs).
  rewrite len_encode_property, Hn in *.
  split; [|split; [exact Hname | exact Hval]].
  rewrite parse_property_eq by lia. unfold accepted_property.
  rewrite Hterm, Hsize, round_up4_padding. unfold sizeof_prop in *.
  replace (len buf <? p + 36) with false by (symmetry; apply Z.ltb_ge; lia).
  cbn [byte.unsigned negb Z.eqb]. change (negb (byte.unsigned Byte.x00 =? 0)) with false.
  cbv iota.
  replace (len buf <? _) with false by (symmetry; apply Z.ltb_ge; lia).
  do 3 f_equal. lia.
Qed.

(** The buffer is cut inside the property. *)
Lemma parse_cut_property B k p pr :
  valid_property pr = true ->
  holds B p (encode_property pr) ->
  p <= k < p + len (encode_property pr) ->
  let buf := firstn (Z.to_nat k) B in
  if k =? p + sizeof_prop + len (prop_value pr)
  then parse_property buf p
       = Some (Some {| pp_name := p; pp_value := p + sizeof_prop;
                       pp_size := len (prop_value pr); pp_next := k |})
       /\ slice buf p sizeof_name = Some (prop_name pr)
       /\ slice buf (p + sizeof_prop) (len (prop_value pr)) = Some (prop_value pr)
  else parse_property buf p = Some None.
Proof.
  intros Hv Hh Hk buf.
  pose proof (holds_encode_property _ _ _ Hv Hh) as (Hhead & Hval & Hend).
  pose proof (valid_property_inv _ Hv) as (Hn & _ & Hs).
  pose proof (holds_end _ _ _ Hh) as [_ Hp].
  pose proof (padding_range (len (prop_value pr))) as Hpad.
  rewrite len_encode_property, Hn in *. unfold sizeof_prop in *.
  assert (Hlen : len buf = k) by (apply len_firstn; lia).
  destruct (Z.ltb_spec k (p + 36)) as [Hshort | Hlong].
  { replace (k =? p + 36 + len (prop_value pr)) with false
      by (symmetry; apply Z.eqb_neq; lia).
    rewrite parse_property_eq by lia. rewrite Hlen. unfold sizeof_prop.
    now replace (k <? p + 36) with true by (symmetry; apply Z.ltb_lt; lia). }
  assert (Hhead' : holds buf p (prop_name pr ++ le_split 4 (size_field pr))).
  { apply holds_firstn; auto; try lia. rewrite len_app, len_le_split, Hn. lia. }
  pose proof (header_fields _ _ _ Hv Hhead') as (_ & Hfit & Hname & Hterm & Hsize).
  assert (Hparse : parse_property buf p
    = if k =? p + 36 + len (prop_value pr)
      then Some (Some {| pp_name := p; pp_value := p + 36;
                         pp_size := len (prop_value pr); pp_next := k |})
      else Some None).
  { rewrite parse_property_eq by lia. unfold accepted_property.
    rewrite Hterm, Hsize, round_up4_padding, Hlen. unfold sizeof_prop.
    replace (k <? p + 36) with false by (symmetry; apply Z.ltb_ge; lia).
    change (negb (byte.unsigned Byte.x00 =? 0)) with false. cbv iota.
    replace (k <? _) with true by (symmetry; apply Z.ltb_lt; lia).
    destruct (p + 36 + len (prop_value pr) =? k) eqn:E.
    - apply Z.eqb_eq in E. rewrite (proj2 (Z.eqb_eq _ _)) by lia.
      do 3 f_equal. lia.
    - apply Z.eqb_neq in E. now rewrite (proj2 (Z.eqb_neq _ _)) by lia. }
  rewrite Hparse.
  destruct (k =? p + 36 + len (prop_value pr)) eqn:E; [|reflexivity].
  apply Z.eqb_eq in E. split; [reflexivity|]. split; [exact Hname|].
  apply holds_firstn; auto; lia.
Qed.

(** ** The observers over lists of events *)

Section ObserveFacts.
Context {S : Type}.
Variable node_cb : option (node_callback S).
Variable property_cb : option (property_callback S).

Lemma observe_app evs1 evs2 (st : S) :
  observe node_cb property_cb (evs1 ++ evs2) st
  = let '(st', stop) := observe node_cb property_cb evs1 st in
    if stop then (st', true) else observe node_cb property_cb evs2 st'.
Proof.
  revert st. induction evs1 as [|e evs1 IH]; intros st; cbn [app observe].
  - reflexivity.
  - destruct (deliver node_cb property_cb e st) as [st' [|]]; [reflexivity|].
    apply IH.
Qed.

Lemma quiet_observe evs (st : S) :
  quiet node_cb property_cb ->
  snd (observe node_cb property_cb evs st) = false.
Proof.
  intros Hq. revert st. induction evs as [|e evs IH]; intros st; cbn [observe].
  - reflexivity.
  - pose proof (Hq e st) as H.
    destruct (deliver node_cb property_cb e st) as [st' stop]. cbn in H. subst stop.
    apply IH.
Qed.
End ObserveFacts.

(** ** The property loop *)

Lemma last_padding_cons pr ps :
  last_padding (pr :: ps)
  = match ps with [] => padding (len (prop_value pr)) | _ => last_padding ps end.
Proof.
  unfold last_padding. cbn [rev]. destruct ps as [|q ps]; [reflexivity|].
  destruct (rev (q :: ps)) eqn:E.
  - apply (f_equal (@length _)) in E. rewrite length_rev in E. discriminate.
  - reflexivity.
Qed.

Lemma last_padding_bound ps :
  forallb valid_property ps = true -> ps <> [] ->
  sizeof_prop + last_padding ps <= len (flat_map encode_property ps).
Proof.
  induction ps as [|pr ps IH]; intros Hv Hne; [congruence|].
  cbn [forallb] in Hv. apply andb_prop in Hv as [Hpr Hps].
  pose proof (valid_property_inv _ Hpr) as (Hn & _ & Hsz).
  pose proof (padding_range (len (prop_value pr))) as Hpad.
  rewrite last_padding_cons. cbn [flat_map].
  rewrite len_app, len_encode_property, Hn. unfold sizeof_prop in *.
  destruct ps as [|q ps'].
  - cbn [flat_map]. change (len (@nil byte)) with 0. lia.
  - specialize (IH Hps ltac:(discriminate)). lia.
Qed.

Section PropertyLoop.
Context {S : Type}.
Variable node_cb : option (node_callback S).
Variable property_cb : option (property_callback S).

(** All the properties lie in the buffer. *)
Lemma iterate_properties_valid buf ps : forall depth p (st : S),
  forallb valid_property ps = true ->
  holds buf p (flat_map encode_property ps) ->
  iterate_properties buf property_cb (length ps) depth p st
  = let '(st', stop) :=
      observe node_cb property_cb
        (map (property_event (u32 (depth + 1))) ps) st in
    if stop then LReturn true true st'
    else LNext (p + len (flat_map encode_property ps)) st'.
Proof.
  induction ps as [|pr ps IH]; intros depth p st Hv Hh.
  - cbn [length iterate_properties map observe flat_map]. rewrite len_nil.
    f_equal. lia.
  - cbn [forallb] in Hv. apply andb_prop in Hv as [Hpr Hps].
    cbn [flat_map] in Hh |- *. apply holds_app in Hh as [Hh1 Hh2].
    destruct (parse_valid_property _ _ _ Hpr Hh1) as (Hparse & Hname & Hval).
    cbn [length iterate_properties map observe]. rewrite Hparse.
    cbn [pp_name pp_value pp_size pp_next].
    unfold property_event at 1. cbn [deliver].
    rewrite len_app, Z.add_assoc.
    destruct property_cb as [cb|].
    + rewrite Hname, Hval.
      destruct (cb _ _ _ _ st) as [st' [|]]; [reflexivity|].
      now apply IH.
    + now apply IH.
Qed.

(** The buffer is cut inside the properties: the loop returns false,
    unless the cut is where the payload of the last one ends. *)
Lemma iterate_properties_cut B k ps : forall depth p (st : S),
  quiet node_cb property_cb ->
  forallb valid_property ps = true ->
  holds B p (flat_map encode_property ps) ->
  p <= k < p + len (flat_map encode_property ps) ->
  let buf := firstn (Z.to_nat k) B in
  (k <> p + len (flat_map encode_property ps) - last_padding ps
   /\ exists st', iterate_properties buf property_cb (length ps) depth p st
                  = LReturn false false st')
  \/ (k = p + len (flat_map encode_property ps) - last_padding ps
      /\ exists st', iterate_properties buf property_cb (length ps) depth p st
                     = LNext k st').
Proof.
  intros depth p st Hq. revert depth p st.
  induction ps as [|pr ps IH]; intros depth p st Hv Hh Hk buf.
  { cbn [flat_map] in Hk. change (len (@nil byte)) with 0 in Hk. lia. }
  cbn [forallb] in Hv. apply andb_prop in Hv as [Hpr Hps].
  cbn [flat_map] in Hh, Hk |- *. rewrite len_app in Hk |- *.
  pose proof (holds_end _ _ _ Hh) as [Hend Hp0]. rewrite len_app in Hend.
  apply holds_app in Hh as [Hh1 Hh2].
  pose proof (len_nonneg (flat_map encode_property ps)) as Hrest.
  assert (Hlen : len buf = k) by (apply len_firstn; lia).
  pose proof (valid_property_inv _ Hpr) as (Hn & _ & Hsz).
  pose proof (padding_range (len (prop_value pr))) as Hpad.
  pose proof (len_encode_property pr) as Hpr_len. rewrite Hn in Hpr_len.
  assert (Hlast : ps <> [] ->
                  last_padding (pr :: ps) = last_padding ps
                  /\ sizeof_prop + last_padding ps
                     <= len (flat_map encode_property ps)).
  { intros Hne. rewrite last_padding_cons. destruct ps; [congruence|].
    split; [reflexivity | now apply last_padding_bound]. }
  assert (Hlast0 : ps = [] ->
                   last_padding (pr :: ps) = padding (len (prop_value pr))
                   /\ len (flat_map encode_property ps) = 0).
  { intros ->. split; reflexivity. }
  cbn [length iterate_properties].
  destruct (Z.le_gt_cases (p + len (encode_property pr)) k) as [Hin | Hcut].
  - (* the first property lies before the cut *)
    assert (Hh1' : holds buf p (encode_property pr))
      by (apply holds_firstn; auto; lia).
    destruct (parse_valid_property _ _ _ Hpr Hh1') as (Hparse & Hname & Hval).
    rewrite Hparse. cbn [pp_name pp_value pp_size pp_next].
    assert (Hne : ps <> []).
    { intros E. destruct (Hlast0 E) as [_ E0]. lia. }
    destruct (Hlast Hne) as [Hlp _]. rewrite Hlp.
    assert (Hstep : forall st1,
      (k <> p + (len (encode_property pr) + len (flat_map encode_property ps))
            - last_padding ps
       /\ exists st', iterate_properties buf property_cb (length ps) depth
                        (p + len (encode_property pr)) st1 = LReturn false false st')
      \/ (k = p + (len (encode_property pr) + len (flat_map encode_property ps))
              - last_padding ps
          /\ exists st', iterate_properties buf property_cb (length ps) depth
                           (p + len (encode_property pr)) st1 = LNext k st')).
    { intros st1.
      destruct (IH depth (p + len (encode_property pr)) st1 Hps Hh2 ltac:(lia))
        as [[Hk' Hf] | [Hk' Hnx]];
        [left; split; [lia | exact Hf] | right; split; [lia | exact Hnx]]. }
    destruct property_cb as [cb|] eqn:Ecb.
    + rewrite Hname, Hval.
      pose proof (Hq (PropertyFound (u32 (depth + 1)) (prop_name pr) (prop_value pr)
                        (len (prop_value pr))) st) as Hs.
      cbn [deliver] in Hs.
      destruct (cb _ _ _ _ st) as [st1 stop]. cbn in Hs. subst stop.
      apply Hstep.
    + apply Hstep.
  - (* the cut is inside the first property *)
    assert (Hne_x : ps <> [] ->
                    k <> p + (len (encode_property pr)
                              + len (flat_map encode_property ps))
                         - last_padding (pr :: ps)).
    { intros Hne. destruct (Hlast Hne) as [Hlp Hb]. rewrite Hlp.
      unfold sizeof_prop in Hb. lia. }
    pose proof (parse_cut_property B k p pr Hpr Hh1 ltac:(lia)) as Hcutp.
    cbv zeta in Hcutp. fold buf in Hcutp.
    destruct (k =? p + sizeof_prop + len (prop_value pr)) eqn:E.
    + apply Z.eqb_eq in E. destruct Hcutp as (Hparse & Hname & Hval).
      rewrite Hparse. cbn [pp_name pp_value pp_size pp_next].
      assert (Hnext : forall st1,
        (k <> p + (len (encode_property pr) + len (flat_map encode_property ps))
              - last_padding (pr :: ps)
         /\ exists st', iterate_properties buf property_cb (length ps) depth k st1
                        = LReturn false false st')
        \/ (k = p + (len (encode_property pr) + len (flat_map encode_property ps))
                - last_padding (pr :: ps)
            /\ exists st', iterate_properties buf property_cb (length ps) depth k st1
                           = LNext k st')).
      { intros st1. destruct ps as [|q ps'].
        - right. destruct (Hlast0 eq_refl) as [Hlp Hl0]. rewrite Hlp, Hl0.
          unfold sizeof_prop in E. split; [lia | eexists; reflexivity].
        - left. split; [apply Hne_x; discriminate|].
          exists st1. cbn [length iterate_properties].
          rewrite parse_property_eq by lia. rewrite Hlen.
          unfold sizeof_prop.
          now replace (k <? k + 36) with true by (symmetry; apply Z.ltb_lt; lia). }
      destruct property_cb as [cb|] eqn:Ecb.
      * rewrite Hname, Hval.
        pose proof (Hq (PropertyFound (u32 (depth + 1)) (prop_name pr) (prop_value pr)
                          (len (prop_value pr))) st) as Hs.
        cbn [deliver] in Hs.
        destruct (cb _ _ _ _ st) as [st1 stop]. cbn in Hs. subst stop.
        apply Hnext.
      * apply Hnext.
    + rewrite Hcutp. left. split; [|eexists; reflexivity].
      apply Z.eqb_neq in E. destruct ps as [|q ps'].
      * destruct (Hlast0 eq_refl) as [Hlp Hl0]. rewrite Hlp, Hl0.
        unfold sizeof_prop in E. lia.
      * apply Hne_x. discriminate.
Qed.
End PropertyLoop.

(** ** Trees *)

Lemma tree_induction (P : tree -> Prop) :
  (forall ps cs, Forall P cs -> P (Node ps cs)) -> forall t, P t.
Proof.
  intros H. fix IH 1. intros [ps cs]. apply H.
  induction cs as [|c cs IHcs]; constructor; [apply IH | exact IHcs].
Qed.

Lemma valid_tree_inv ps cs :
  valid_tree (Node ps cs) = true ->
  len ps < 2 ^ 32 /\ len cs < 2 ^ 32
  /\ forallb valid_property ps = true /\ forallb valid_tree cs = true.
Proof.
  cbn [valid_tree]. rewrite !andb_true_iff, !Z.ltb_lt. tauto.
Qed.

Lemma height_pos t : (1 <= height t)%nat.
Proof. destruct t. cbn [height]. lia. Qed.

Lemma height_children ps c cs fuel :
  (height (Node ps (c :: cs)) <= Datatypes.S fuel)%nat ->
  (height c <= fuel)%nat /\ (height (Node ps cs) <= Datatypes.S fuel)%nat.
Proof. cbn [height fold_right]. lia. Qed.

Lemma events_from_Node next dend ps cs depth off :
  events_from next dend (Node ps cs) depth off
  = NodeEntered depth off (dend - off) (len ps) (len cs)
    :: map (property_event (next depth)) ps
    ++ forest_events next dend cs (next depth)
         (off + sizeof_node + len (flat_map encode_property ps)).
Proof. reflexivity. Qed.

Lemma forest_events_cons next dend c cs depth off :
  forest_events next dend (c :: cs) depth off
  = events_from next dend c depth off
    ++ forest_events next dend cs depth (off + len (encode c)).
Proof. reflexivity. Qed.

Lemma len_encode_Node ps cs :
  len (encode (Node ps cs))
  = sizeof_node + len (flat_map encode_property ps) + len (flat_map encode cs).
Proof.
  cbn [encode]. rewrite !len_app, !len_le_split. unfold sizeof_node. lia.
Qed.

Lemma len_encode_ge t : sizeof_node <= len (encode t).
Proof.
  destruct t as [ps cs]. rewrite len_encode_Node.
  pose proof (len_nonneg (flat_map encode_property ps)).
  pose proof (len_nonneg (flat_map encode cs)). lia.
Qed.

(** The header of a node that the buffer holds. *)
Lemma node_header buf off ps cs :
  valid_tree (Node ps cs) = true ->
  holds buf off (le_split 4 (len ps) ++ le_split 4 (len cs)) ->
  0 <= off /\ off + sizeof_node <= len buf
  /\ load32 buf off = Some (len ps) /\ load32 buf (off + 4) = Some (len cs).
Proof.
  intros Hv Hh. apply valid_tree_inv in Hv as (Hps & Hcs & _ & _).
  pose proof (holds_end _ _ _ Hh) as [He H0].
  rewrite len_app, !len_le_split in He.
  apply holds_app in Hh as [H1 H2]. rewrite len_le_split in H2.
  apply load32_holds in H1, H2.
  rewrite Z.mod_small in H1 by (pose proof (len_nonneg ps); lia).
  rewrite Z.mod_small in H2 by (pose proof (len_nonneg cs); lia).
  unfold sizeof_node. repeat split; auto; lia.
Qed.

Lemma holds_encode_Node buf off ps cs :
  holds buf off (encode (Node ps cs)) ->
  holds buf off (le_split 4 (len ps) ++ le_split 4 (len cs))
  /\ holds buf (off + sizeof_node) (flat_map encode_property ps)
  /\ holds buf (off + sizeof_node + len (flat_map encode_property ps))
       (flat_map encode cs).
Proof.
  cbn [encode]. intros Hh. rewrite app_assoc in Hh.
  apply holds_app in Hh as [H1 H2]. rewrite len_app, !len_le_split in H2.
  apply holds_app in H2 as [H2 H3]. unfold sizeof_node. auto.
Qed.

Section NodeWalk.
Context {S : Type}.
Variable node_cb : option (node_callback S).
Variable property_cb : option (property_callback S).

Local Abbreviation walk buf := (devicetree_iterate_node (S := S) buf node_cb property_cb).

Lemma iterate_children_valid buf fuel cs :
  Forall (walks_valid node_cb property_cb) cs ->
  forall off depth (st : S),
    forallb valid_tree cs = true ->
    holds buf off (flat_map encode cs) ->
    Forall (fun c => (height c <= fuel)%nat) cs ->
    exists d,
      iterate_children (fun d s => walk buf fuel d depth s) (length cs) off st
      = let '(st', stop) :=
          observe node_cb property_cb
            (forest_events (fun d => u32 (d + 1)) (len buf) cs depth off) st in
        Return true (if stop then d else off + len (flat_map encode cs)) stop st'.
Proof.
  induction 1 as [|c cs Hc _ IH]; intros off depth st Hv Hh Hf.
  - exists 0. cbn. now rewrite Z.add_0_r.
  - cbn [forallb] in Hv. apply andb_prop in Hv as [Hvc Hvcs].
    inversion Hf as [|? ? Hfc Hfcs]; subst.
    cbn [flat_map] in Hh |- *. apply holds_app in Hh as [Hh1 Hh2].
    rewrite forest_events_cons, observe_app.
    cbn [length iterate_children].
    destruct (Hc buf fuel off depth st Hvc Hh1 Hfc) as [d Hd].
    rewrite Hd. fold (events32 (len buf) c depth off).
    destruct (observe node_cb property_cb (events32 (len buf) c depth off) st)
      as [st1 [|]].
    + exists d. reflexivity.
    + destruct (IH (off + len (encode c)) depth st1 Hvcs Hh2 Hfcs) as [d' Hd'].
      exists d'. rewrite Hd'. rewrite len_app, Z.add_assoc. reflexivity.
Qed.

Lemma heights_children ps cs fuel :
  (height (Node ps cs) <= Datatypes.S fuel)%nat ->
  Forall (fun c => (height c <= fuel)%nat) cs.
Proof.
  induction cs as [|c cs IH]; intros H; constructor.
  - now apply height_children in H.
  - apply IH. now apply height_children in H.
Qed.

Lemma iterate_node_valid t : walks_valid node_cb property_cb t.
Proof.
  induction t as [ps cs IH] using tree_induction.
  intros buf fuel off depth st Hv Hh Hf.
  destruct fuel as [|fuel]; [pose proof (height_pos (Node ps cs)); lia|].
  pose proof (valid_tree_inv _ _ Hv) as (Hps & Hcs & Hvps & Hvcs).
  apply holds_encode_Node in Hh as (Hhead & Hprops & Hkids).
  destruct (node_header _ _ _ _ Hv Hhead) as (H0 & Hfit & Hnp & Hnc).
  cbn [devicetree_iterate_node]. unfold data_end.
  replace (len buf <? off + sizeof_node) with false
    by (symmetry; apply Z.ltb_ge; lia).
  rewrite Hnp, Hnc.
  unfold events32. rewrite events_from_Node. cbn [observe deliver].
  replace (len buf - (off + sizeof_node) + sizeof_node) with (len buf - off) by lia.
  set (st_stop := match node_cb with
                  | Some cb => cb depth off (len buf - off) (len ps) (len cs) st
                  | None => (st, false)
                  end).
  destruct st_stop as [st1 [|]]; [exists off; reflexivity|].
  rewrite observe_app.
  rewrite !to_nat_len.
  rewrite (iterate_properties_valid node_cb property_cb) by assumption.
  destruct (observe node_cb property_cb
              (map (property_event (u32 (depth + 1))) ps) st1) as [st2 [|]].
  - exists off. reflexivity.
  - destruct (iterate_children_valid buf fuel cs IH
                (off + sizeof_node + len (flat_map encode_property ps))
                (u32 (depth + 1)) st2 Hvcs Hkids (heights_children _ _ _ Hf))
      as [d Hd].
    exists d. rewrite Hd.
    rewrite len_encode_Node.
    destruct (observe _ _ _ st2) as [st3 stop]. do 2 f_equal.
    destruct stop; lia.
Qed.
End NodeWalk.

Lemma final_padding_Node ps cs :
  final_padding (Node ps cs)
  = fold_left (fun _ c => final_padding c) cs (last_padding ps).
Proof. reflexivity. Qed.

Lemma forest_padding_bound cs :
  Forall (fun c => final_padding c + sizeof_node <= len (encode c)) cs ->
  cs <> [] ->
  forall dflt,
    fold_left (fun _ c => final_padding c) cs dflt + sizeof_node
    <= len (flat_map encode cs).
Proof.
  induction 1 as [|c cs Hc _ IH]; intros Hne dflt; [congruence|].
  cbn [fold_left flat_map]. rewrite len_app.
  destruct cs as [|c' cs'].
  - cbn [fold_left flat_map]. change (len (@nil byte)) with 0. lia.
  - specialize (IH ltac:(discriminate) (final_padding c)).
    pose proof (len_nonneg (encode c)). lia.
Qed.

(** The bytes that a truncation may drop lie after the header of the last
    node and after the header of the last property. *)
Lemma final_padding_bound t :
  valid_tree t = true -> final_padding t + sizeof_node <= len (encode t).
Proof.
  induction t as [ps cs IH] using tree_induction. intros Hv.
  pose proof (valid_tree_inv _ _ Hv) as (_ & _ & Hvps & Hvcs).
  rewrite final_padding_Node, len_encode_Node.
  pose proof (len_nonneg (flat_map encode_property ps)) as Hp.
  destruct cs as [|c cs'].
  - cbn [fold_left flat_map]. change (len (@nil tree)) with 0.
    change (len (@nil byte)) with 0.
    destruct ps as [|pr ps'].
    + cbn. lia.
    + pose proof (last_padding_bound (pr :: ps') Hvps ltac:(discriminate)).
      unfold sizeof_prop in *. lia.
  - assert (Hb : Forall (fun c => final_padding c + sizeof_node <= len (encode c))
                   (c :: cs')).
    { rewrite forallb_forall in Hvcs. rewrite Forall_forall in IH |- *.
      intros x Hx. apply IH; auto. }
    pose proof (forest_padding_bound _ Hb ltac:(discriminate) (last_padding ps)).
    unfold sizeof_node in *. lia.
Qed.

Lemma forest_padding_valid cs dflt :
  forallb valid_tree cs = true -> cs <> [] ->
  fold_left (fun _ c => final_padding c) cs dflt + sizeof_node
  <= len (flat_map encode cs).
Proof.
  intros Hv Hne. apply forest_padding_bound; [|exact Hne].
  rewrite forallb_forall in Hv. rewrite Forall_forall.
  intros x Hx. apply final_padding_bound. auto.
Qed.

Section NodeCut.
Context {S : Type}.
Variable node_cb : option (node_callback S).
Variable property_cb : option (property_callback S).
Hypothesis Hquiet : quiet node_cb property_cb.

Local Abbreviation walk buf := (devicetree_iterate_node (S := S) buf node_cb property_cb).

(** A node whose header does not fit. *)
Lemma iterate_node_short buf fuel off depth (st : S) :
  len buf < off + sizeof_node ->
  walk buf (Datatypes.S fuel) off depth st = Return false off false st.
Proof.
  intros H. cbn [devicetree_iterate_node]. unfold data_end.
  now replace (len buf <? off + sizeof_node) with true
    by (symmetry; apply Z.ltb_lt; lia).
Qed.

Lemma iterate_node_valid_quiet buf t fuel off depth (st : S) :
  valid_tree t = true -> holds buf off (encode t) -> (height t <= fuel)%nat ->
  exists st', walk buf fuel off depth st
              = Return true (off + len (encode t)) false st'.
Proof.
  intros Hv Hh Hf.
  destruct (iterate_node_valid node_cb property_cb t buf fuel off depth st Hv Hh Hf)
    as [d Hd].
  pose proof (quiet_observe node_cb property_cb
                (events32 (len buf) t depth off) st Hquiet) as Hs.
  destruct (observe _ _ _ st) as [st' stop]. cbn in Hs. subst stop.
  exists st'. exact Hd.
Qed.

Lemma iterate_children_cut B k fuel cs :
  Forall (walks_cut node_cb property_cb) cs ->
  forall off depth (st : S) dflt,
    forallb valid_tree cs = true ->
    holds B off (flat_map encode cs) ->
    off <= k < off + len (flat_map encode cs) ->
    Forall (fun c => (height c <= fuel)%nat) cs ->
    let buf := firstn (Z.to_nat k) B in
    (k <> off + len (flat_map encode cs)
          - fold_left (fun _ c => final_padding c) cs dflt
     /\ exists d st',
         iterate_children (fun d s => walk buf fuel d depth s) (length cs) off st
         = Return false d false st')
    \/ (k = off + len (flat_map encode cs)
            - fold_left (fun _ c => final_padding c) cs dflt
        /\ exists st',
            iterate_children (fun d s => walk buf fuel d depth s) (length cs) off st
            = Return true k false st').
Proof.
  induction 1 as [|c cs Hc _ IH]; intros off depth st dflt Hv Hh Hk Hf buf.
  { cbn [flat_map] in Hk. rewrite len_nil in Hk. lia. }
  cbn [forallb] in Hv. apply andb_prop in Hv as [Hvc Hvcs].
  pose proof (Forall_inv Hf) as Hfc. pose proof (Forall_inv_tail Hf) as Hfcs.
  cbv beta in Hfc.
  cbn [flat_map] in Hh, Hk |- *. rewrite len_app in Hk |- *.
  pose proof (holds_end _ _ _ Hh) as [Hend Hp0]. rewrite len_app in Hend.
  apply holds_app in Hh as [Hh1 Hh2].
  assert (Hlen : len buf = k) by (apply len_firstn; lia).
  assert (Hlater : cs <> [] ->
                   k < off + len (encode c) ->
                   k <> off + (len (encode c) + len (flat_map encode cs))
                        - fold_left (fun _ c => final_padding c) cs
                            (final_padding c)).
  { intros Hne Hlt.
    pose proof (forest_padding_valid cs (final_padding c) Hvcs Hne).
    unfold sizeof_node in *. lia. }
  cbn [length iterate_children fold_left].
  destruct (Z.le_gt_cases (off + len (encode c)) k) as [Hin | Hcut].
  - assert (Hh1' : holds buf off (encode c)) by (apply holds_firstn; auto; lia).
    destruct (iterate_node_valid_quiet buf c fuel off depth st Hvc Hh1' Hfc)
      as [st1 Hw].
    rewrite Hw.
    destruct (IH (off + len (encode c)) depth st1 (final_padding c) Hvcs Hh2
                ltac:(lia) Hfcs) as [[Hk' Hfalse] | [Hk' Htrue]].
    + left. split; [lia | exact Hfalse].
    + right. split; [lia | exact Htrue].
  - pose proof (Hc B k fuel off depth st Hvc Hh1 ltac:(lia) Hfc) as Hc'.
    cbv zeta in Hc'. fold buf in Hc'.
    destruct Hc' as [(Hk' & d & st' & Hw) | (Hk' & st' & Hw)]; rewrite Hw.
    + left. split; [|eauto].
      destruct cs as [|c' cs'].
      * cbn [flat_map fold_left]. change (len (@nil byte)) with 0. lia.
      * apply Hlater; [discriminate | lia].
    + destruct cs as [|c' cs'].
      * right. cbn [flat_map fold_left length iterate_children].
        rewrite len_nil. split; [lia | eauto].
      * left. split; [apply Hlater; [discriminate | lia]|].
        cbn [length iterate_children].
        pose proof (Forall_inv Hfcs) as Hfc'. cbv beta in Hfc'.
        destruct fuel as [|fuel]; [pose proof (height_pos c'); lia|].
        rewrite iterate_node_short by (pose proof (len_encode_ge c); unfold sizeof_node in *; lia).
        eauto.
Qed.

Lemma iterate_node_cut t : walks_cut node_cb property_cb t.
Proof.
  induction t as [ps cs IH] using tree_induction.
  intros B k fuel off depth st Hv Hh Hk Hf buf.
  destruct fuel as [|fuel]; [pose proof (height_pos (Node ps cs)); lia|].
  pose proof (final_padding_bound _ Hv) as Hbound.
  pose proof (valid_tree_inv _ _ Hv) as (Hps & Hcs & Hvps & Hvcs).
  pose proof (holds_end _ _ _ Hh) as [Hend Hp0].
  rewrite len_encode_Node in Hk, Hend, Hbound |- *.
  assert (Hlen : len buf = k) by (apply len_firstn; lia).
  destruct (Z.lt_ge_cases k (off + sizeof_node)) as [Hshort | Hlong].
  { left. rewrite iterate_node_short by lia. split; [lia | eauto]. }
  apply holds_encode_Node in Hh as (Hhead & Hprops & Hkids).
  assert (Hhead' : holds buf off (le_split 4 (len ps) ++ le_split 4 (len cs))).
  { apply holds_firstn; auto;
      rewrite ?len_app, ?len_le_split; unfold sizeof_node in *; lia. }
  destruct (node_header _ _ _ _ Hv Hhead') as (_ & Hfit & Hnp & Hnc).
  cbn [devicetree_iterate_node]. unfold data_end.
  replace (len buf <? off + sizeof_node) with false
    by (symmetry; apply Z.ltb_ge; lia).
  rewrite Hnp, Hnc.
  pose proof (Hquiet (NodeEntered depth off (len buf - (off + sizeof_node) + sizeof_node)
                        (len ps) (len cs)) st) as Hs.
  cbn [deliver] in Hs.
  set (st_stop := match node_cb with
                  | Some cb => cb depth off (len buf - (off + sizeof_node) + sizeof_node)
                                 (len ps) (len cs) st
                  | None => (st, false)
                  end) in *.
  destruct st_stop as [st1 stop]. cbn in Hs. subst stop.
  rewrite !to_nat_len, final_padding_Node.
  pose proof (heights_children _ _ _ Hf) as Hfcs.
  assert (Hlater : cs <> [] ->
                   k < off + sizeof_node + len (flat_map encode_property ps) ->
                   k <> off + (sizeof_node + len (flat_map encode_property ps)
                               + len (flat_map encode cs))
                        - fold_left (fun _ c => final_padding c) cs
                            (last_padding ps)).
  { intros Hne Hlt.
    pose proof (forest_padding_valid cs (last_padding ps) Hvcs Hne).
    unfold sizeof_node in *. lia. }
  destruct (Z.le_gt_cases (off + sizeof_node + len (flat_map encode_property ps)) k)
    as [Hin | Hcut].
  - (* the cut is in the children *)
    assert (Hprops' : holds buf (off + sizeof_node) (flat_map encode_property ps))
      by (apply holds_firstn; auto; lia).
    rewrite (iterate_properties_valid node_cb property_cb) by assumption.
    pose proof (quiet_observe node_cb property_cb
                  (map (property_event (u32 (depth + 1))) ps) st1 Hquiet) as Hs.
    destruct (observe _ _ _ st1) as [st2 stop]. cbn in Hs. subst stop.
    destruct (iterate_children_cut B k fuel cs IH
                (off + sizeof_node + len (flat_map encode_property ps))
                (u32 (depth + 1)) st2 (last_padding ps) Hvcs Hkids ltac:(lia) Hfcs)
      as [[Hk' Hfalse] | [Hk' Htrue]].
    + left. split; [lia | exact Hfalse].
    + right. split; [lia | exact Htrue].
  - (* the cut is in the properties *)
    pose proof (iterate_properties_cut node_cb property_cb B k ps depth
                  (off + sizeof_node) st1 Hquiet Hvps Hprops ltac:(lia)) as Hpc.
    cbv zeta in Hpc. fold buf in Hpc.
    destruct Hpc as [[Hk' [st2 Hl]] | [Hk' [st2 Hl]]]; rewrite Hl.
    + left. split; [|eauto].
      destruct cs as [|c cs'].
      * cbn [flat_map fold_left]. change (len (@nil byte)) with 0. lia.
      * apply Hlater; [discriminate | lia].
    + destruct cs as [|c cs'].
      * right. cbn [flat_map fold_left length Z.to_nat iterate_children].
        rewrite len_nil. split; [lia | eauto].
      * left. split; [apply Hlater; [discriminate | lia]|].
        cbn [length iterate_children].
        pose proof (Forall_inv Hfcs) as Hfc. cbv beta in Hfc.
        destruct fuel as [|fuel]; [pose proof (height_pos c); lia|].
        rewrite iterate_node_short by (unfold sizeof_node; lia).
        eauto.
Qed.
End NodeCut.

(** ** Any buffer: the walk returns, and reads nothing outside the buffer *)

Lemma parse_property_accepted buf p pp :
  0 <= p -> parse_property buf p = Some (Some pp) ->
  pp = accepted_property buf p
  /\ p + sizeof_prop <= pp_next pp <= len buf
  /\ 0 <= pp_size pp /\ pp_value pp + pp_size pp <= len buf.
Proof.
  intros Hp. rewrite parse_property_eq by lia.
  pose proof (masked_size_range buf p) as Hs.
  pose proof (round_up4_ge (masked_size buf p)) as Hr.
  destruct (len buf <? p + sizeof_prop) eqn:E1; [discriminate|].
  apply Z.ltb_ge in E1.
  destruct (negb _); [discriminate|].
  destruct (len buf <? _) eqn:E2.
  - destruct (_ =? len buf) eqn:E3; [|discriminate].
    apply Z.ltb_lt in E2. apply Z.eqb_eq in E3.
    intros [= <-]. split; [reflexivity|].
    unfold accepted_property, sizeof_prop in *. cbn [pp_next pp_size pp_value]. lia.
  - apply Z.ltb_ge in E2.
    intros [= <-]. split; [reflexivity|].
    unfold accepted_property, sizeof_prop in *. cbn [pp_next pp_size pp_value]. lia.
Qed.

Lemma parse_property_no_fault buf p : 0 <= p -> parse_property buf p <> None.
Proof.
  intros Hp. rewrite parse_property_eq by lia.
  repeat match goal with |- context [if ?b then _ else _] => destruct b end;
    discriminate.
Qed.

Section Totality.
Context {S : Type}.
Variable buf : list byte.
Variable node_cb : option (node_callback S).
Variable property_cb : option (property_callback S).

Local Abbreviation walk := (devicetree_iterate_node (S := S) buf node_cb property_cb).

Lemma iterate_properties_safe n : forall depth p (st : S),
  0 <= p <= len buf ->
  match iterate_properties buf property_cb n depth p st with
  | LFault => False
  | LReturn ok stop _ => ok = stop
  | LNext p' _ => p <= p' <= len buf
  end.
Proof.
  induction n as [|n IH]; intros depth p st Hp; cbn [iterate_properties]; [lia|].
  pose proof (parse_property_no_fault buf p ltac:(lia)) as Hnf.
  destruct (parse_property buf p) as [[pp|]|] eqn:E; [|reflexivity|congruence].
  destruct (parse_property_accepted buf p pp ltac:(lia) E) as (-> & Hnext & Hsz & Hval).
  unfold accepted_property in *.
  cbn [accepted_property pp_next pp_size pp_value pp_name] in *.
  assert (Hrec : forall st1,
    match iterate_properties buf property_cb n depth
            (Z.min (p + sizeof_prop + round_up4 (masked_size buf p)) (len buf)) st1 with
    | LFault => False
    | LReturn ok stop _ => ok = stop
    | LNext p' _ => p <= p' <= len buf
    end).
  { intros st1.
    pose proof (IH depth (Z.min (p + sizeof_prop + round_up4 (masked_size buf p))
                            (len buf)) st1 ltac:(unfold sizeof_prop in *; lia)) as H.
    destruct (iterate_properties _ _ _ _ _ st1); auto.
    unfold sizeof_prop in *. lia. }
  destruct property_cb as [cb|]; [|apply Hrec].
  unfold sizeof_prop, sizeof_name in *.
  rewrite (slice_bytes_at buf p 32) by lia.
  rewrite (slice_bytes_at buf (p + 36) (masked_size buf p)) by lia.
  destruct (cb _ _ _ _ st) as [st1 [|]]; [reflexivity | apply Hrec].
Qed.

Lemma iterate_children_total (rec : Z -> S -> outcome S) lo n :
  (forall d s, lo <= d <= len buf ->
     exists ok d' stop s', rec d s = Return ok d' stop s' /\ d <= d' <= len buf) ->
  forall d (st : S), lo <= d <= len buf ->
    exists ok d' stop st',
      iterate_children rec n d st = Return ok d' stop st' /\ d <= d' <= len buf.
Proof.
  intros Hrec. induction n as [|n IH]; intros d st Hd; cbn [iterate_children].
  - exists true, d, false, st. split; [reflexivity | lia].
  - destruct (Hrec d st Hd) as (ok & d' & stop & s' & -> & Hd').
    destruct ok, stop; try (do 4 eexists; split; [reflexivity | lia]).
    destruct (IH d' s' ltac:(lia)) as (ok & d'' & stop & st'' & -> & Hd'').
    do 4 eexists; split; [reflexivity | lia].
Qed.

(** Enough fuel for the bytes that are left. *)
Lemma iterate_node_total fuel : forall data depth (st : S),
  0 <= data <= len buf -> len buf - data < 8 * Z.of_nat fuel ->
  exists ok d stop st',
    walk fuel data depth st = Return ok d stop st' /\ data <= d <= len buf.
Proof.
  induction fuel as [|fuel IH]; intros data depth st Hd Hf; [lia|].
  cbn [devicetree_iterate_node]. unfold data_end, sizeof_node.
  destruct (len buf <? data + 8) eqn:E.
  { do 4 eexists; split; [reflexivity | lia]. }
  apply Z.ltb_ge in E. unfold load32.
  rewrite !slice_bytes_at by lia. cbn [option_map].
  match goal with |- context [match node_cb with _ => _ end] =>
    destruct (match node_cb with Some cb => _ | None => _ end) as [st1 [|]] end.
  { do 4 eexists; split; [reflexivity | lia]. }
  match goal with |- context [iterate_properties buf property_cb ?n depth ?p st1] =>
    pose proof (iterate_properties_safe n depth p st1 ltac:(lia)) as Hp;
    destruct (iterate_properties buf property_cb n depth p st1) as [|ok stop st2|p' st2]
  end.
  - contradiction.
  - do 4 eexists; split; [reflexivity | lia].
  - match goal with |- context [iterate_children ?rec ?n p' st2] =>
      destruct (iterate_children_total rec (data + 8) n) with (d := p') (st := st2)
        as (ok & d & stop & st' & -> & Hd')
    end.
    + intros d s Hds. apply IH; lia.
    + lia.
    + do 4 eexists; split; [reflexivity | lia].
Qed.

Lemma iterate_children_more_fuel (rec rec' : Z -> S -> outcome S) n :
  (forall d s, rec d s <> OutOfFuel -> rec' d s = rec d s) ->
  forall d (st : S),
    iterate_children rec n d st <> OutOfFuel ->
    iterate_children rec' n d st = iterate_children rec n d st.
Proof.
  intros Hrec. induction n as [|n IH]; intros d st; cbn [iterate_children]; auto.
  intros H. rewrite Hrec.
  - destruct (rec d st) as [| |[|] d' [|] st']; auto.
  - intros E. rewrite E in H. congruence.
Qed.

Lemma iterate_node_more_fuel fuel : forall fuel' data depth (st : S),
  (fuel <= fuel')%nat ->
  walk fuel data depth st <> OutOfFuel ->
  walk fuel' data depth st = walk fuel data depth st.
Proof.
  induction fuel as [|fuel IH]; intros fuel' data depth st Hle H.
  { cbn in H. congruence. }
  destruct fuel' as [|fuel']; [lia|].
  cbn [devicetree_iterate_node] in *.
  destruct (data_end buf <? data + sizeof_node); auto.
  destruct (load32 buf data); auto. destruct (load32 buf (data + 4)); auto.
  match goal with |- context [match node_cb with _ => _ end] =>
    destruct (match node_cb with Some cb => _ | None => _ end) as [st1 [|]] end; auto.
  destruct (iterate_properties _ _ _ _ _ st1); auto.
  apply iterate_children_more_fuel; auto.
  intros d s Hds. apply IH; [lia | exact Hds].
Qed.

(** [devicetree_iterate] returns for every buffer and all observers. *)
Lemma devicetree_iterate_total (st : S) :
  exists ok d stop st',
    walk (Datatypes.S (length buf)) 0 0 st = Return ok d stop st'
    /\ devicetree_iterate buf node_cb property_cb st = Some (ok, d, st')
    /\ 0 <= d <= len buf.
Proof.
  destruct (iterate_node_total (Datatypes.S (length buf)) 0 0 st)
    as (ok & d & stop & st' & H & Hd).
  - pose proof (len_nonneg buf). lia.
  - unfold len. lia.
  - exists ok, d, stop, st'. unfold devicetree_iterate. rewrite H. auto.
Qed.

(** The fuel of [devicetree_iterate] is as good as any larger one. *)
Lemma devicetree_iterate_fuel fuel (st : S) :
  devicetree_iterate buf node_cb property_cb st
  = match walk (Nat.max fuel (Datatypes.S (length buf))) 0 0 st with
    | Return ok data _ st' => Some (ok, data, st')
    | _ => None
    end.
Proof.
  unfold devicetree_iterate.
  destruct (devicetree_iterate_total st) as (ok & d & stop & st' & H & _ & _).
  rewrite (iterate_node_more_fuel (Datatypes.S (length buf))
             (Nat.max fuel (Datatypes.S (length buf)))); [reflexivity|lia|].
  rewrite H. discriminate.
Qed.
End Totality.

(** ** The walker on encoded trees *)

Lemma holds_prefix x rest : holds (x ++ rest) 0 x.
Proof. exact (holds_middle [] x rest). Qed.

Lemma holds_whole x : holds x 0 x.
Proof. pose proof (holds_prefix x []) as H. now rewrite app_nil_r in H. Qed.

Lemma final_padding_range t : 0 <= final_padding t < 4.
Proof.
  induction t as [ps cs IH] using tree_induction.
  rewrite final_padding_Node.
  assert (H0 : 0 <= last_padding ps < 4).
  { unfold last_padding. destruct (rev ps); [lia | apply padding_range]. }
  revert H0. generalize (last_padding ps).
  induction IH as [|c cs Hc _ IHcs]; intros z Hz; cbn [fold_left]; auto.
Qed.

Lemma forest_events32_events cs :
  Forall (fun c => forall dend depth off,
            0 <= depth -> depth + Z.of_nat (height c) < 2 ^ 32 ->
            events32 dend c depth off = events dend c depth off) cs ->
  forall dend depth off,
    0 <= depth ->
    Forall (fun c => depth + Z.of_nat (height c) < 2 ^ 32) cs ->
    forest_events (fun d => u32 (d + 1)) dend cs depth off
    = forest_events Z.succ dend cs depth off.
Proof.
  induction 1 as [|c cs Hc _ IH]; intros dend depth off H0 Hh; [reflexivity|].
  rewrite !forest_events_cons. f_equal.
  - apply Hc; [lia | exact (Forall_inv Hh)].
  - apply IH; [lia | exact (Forall_inv_tail Hh)].
Qed.

Lemma events32_events t : forall dend depth off,
  0 <= depth -> depth + Z.of_nat (height t) < 2 ^ 32 ->
  events32 dend t depth off = events dend t depth off.
Proof.
  induction t as [ps cs IH] using tree_induction.
  intros dend depth off H0 Hh. unfold events32, events.
  rewrite !events_from_Node.
  assert (Hs : u32 (depth + 1) = Z.succ depth).
  { unfold u32. rewrite Z.mod_small; [lia|].
    pose proof (height_pos (Node ps cs)). lia. }
  rewrite Hs. do 2 f_equal.
  apply forest_events32_events; [exact IH | lia |].
  clear IH. induction cs as [|c cs IHcs]; constructor.
  - cbn [height fold_right] in Hh. lia.
  - apply IHcs. cbn [height fold_right] in Hh |- *. lia.
Qed.

Lemma observe_record evs : forall log,
  observe (Some record_node) (Some record_property) evs log = (log ++ evs, false).
Proof.
  induction evs as [|e evs IH]; intros log; cbn [observe].
  - now rewrite app_nil_r.
  - destruct e; cbn [deliver]; unfold record_node, record_property;
      rewrite IH, <- app_assoc; reflexivity.
Qed.

(** The walk of the encoding of a valid tree. *)
Lemma walk_of_valid_encoding {S}
    (node_cb : option (node_callback S))
    (property_cb : option (property_callback S)) (t : tree) (st st' : S) :
  valid_tree t = true ->
  observe node_cb property_cb (events32 (len (encode t)) t 0 0) st = (st', false) ->
  devicetree_iterate (encode t) node_cb property_cb st
  = Some (true, len (encode t), st').
Proof.
  intros Hv Hobs. rewrite (devicetree_iterate_fuel _ _ _ (height t)).
  destruct (iterate_node_valid node_cb property_cb t (encode t)
              (Nat.max (height t) (Datatypes.S (length (encode t)))) 0 0 st
              Hv (holds_whole _) ltac:(lia)) as [d Hd].
  rewrite Hd, Hobs. reflexivity.
Qed.

(** C1.  For the encoding of a valid tree (every property padded to 4
    bytes, the children's subtrees in order), [devicetree_iterate] with
    observers that do not ask to stop on this walk returns true, and the
    cursor it leaves is the size of the buffer: the whole buffer is
    consumed.  The observers have seen every event of the tree. *)
Theorem iterate_valid_tree_consumes_buffer {S}
    (node_cb : option (node_callback S))
    (property_cb : option (property_callback S)) (t : tree) (st st' : S) :
  valid_tree t = true ->
  observe node_cb property_cb (events32 (len (encode t)) t 0 0) st = (st', false) ->
  devicetree_iterate (encode t) node_cb property_cb st
  = Some (true, len (encode t), st').
Proof.
  intros Hv Hobs. now apply walk_of_valid_encoding.
Qed.

(** C2.  Cut the encoding of a valid tree at any byte before the end of
    its last child, or before the end of the payload of its last property
    when the encoding ends with a property: with observers that never ask
    to stop, [devicetree_iterate] returns false.  It does return (no read
    falls outside the cut buffer). *)
Theorem iterate_truncated_fails {S}
    (node_cb : option (node_callback S))
    (property_cb : option (property_callback S)) (t : tree) (k : Z) (st : S) :
  valid_tree t = true ->
  quiet node_cb property_cb ->
  0 <= k < len (encode t) - final_padding t ->
  exists d st',
    devicetree_iterate (firstn (Z.to_nat k) (encode t)) node_cb property_cb st
    = Some (false, d, st').
Proof.
  intros Hv Hq Hk. pose proof (final_padding_range t) as Hpad.
  pose proof (len_encode_ge t) as Hge. unfold sizeof_node in Hge.
  rewrite (devicetree_iterate_fuel _ _ _ (height t)).
  assert (Hk0 : 0 <= k < 0 + len (encode t)) by lia.
  assert (Hf : (height t <= Nat.max (height t)
                  (Datatypes.S (length (firstn (Z.to_nat k) (encode t)))))%nat) by lia.
  pose proof (iterate_node_cut node_cb property_cb Hq t (encode t) k _ 0 0 st
                Hv (holds_whole _) Hk0 Hf) as H.
  cbv zeta in H. destruct H as [(_ & d & st' & H) | (Hk' & _)]; [|lia].
  rewrite H. eauto.
Qed.

(** Past the end of the last payload, inside its padding, the walk fails
    as well. *)
Lemma iterate_truncated_in_padding {S}
    (node_cb : option (node_callback S))
    (property_cb : option (property_callback S)) (t : tree) (k : Z) (st : S) :
  valid_tree t = true ->
  quiet node_cb property_cb ->
  len (encode t) - final_padding t < k < len (encode t) ->
  exists d st',
    devicetree_iterate (firstn (Z.to_nat k) (encode t)) node_cb property_cb st
    = Some (false, d, st').
Proof.
  intros Hv Hq Hk. pose proof (final_padding_range t) as Hpad.
  pose proof (len_encode_ge t) as Hge. unfold sizeof_node in Hge.
  rewrite (devicetree_iterate_fuel _ _ _ (height t)).
  assert (Hk0 : 0 <= k < 0 + len (encode t)) by lia.
  assert (Hf : (height t <= Nat.max (height t)
                  (Datatypes.S (length (firstn (Z.to_nat k) (encode t)))))%nat) by lia.
  pose proof (iterate_node_cut node_cb property_cb Hq t (encode t) k _ 0 0 st
                Hv (holds_whole _) Hk0 Hf) as H.
  cbv zeta in H. destruct H as [(_ & d & st' & H) | (Hk' & _)]; [|lia].
  rewrite H. eauto.
Qed.

(** Exactly at the end of the last payload, when padding follows it in
    the full encoding, the walk succeeds and the cursor is the end of the
    cut buffer: the last property is accepted without its padding. *)
Lemma iterate_truncated_at_payload_end {S}
    (node_cb : option (node_callback S))
    (property_cb : option (property_callback S)) (t : tree) (st : S) :
  valid_tree t = true ->
  quiet node_cb property_cb ->
  0 < final_padding t ->
  let k := len (encode t) - final_padding t in
  exists st',
    devicetree_iterate (firstn (Z.to_nat k) (encode t)) node_cb property_cb st
    = Some (true, k, st').
Proof.
  intros Hv Hq Hpos k. pose proof (final_padding_bound t Hv) as Hb.
  unfold sizeof_node in Hb.
  rewrite (devicetree_iterate_fuel _ _ _ (height t)).
  assert (Hk0 : 0 <= k < 0 + len (encode t)) by (unfold k; lia).
  assert (Hf : (height t <= Nat.max (height t)
                  (Datatypes.S (length (firstn (Z.to_nat k) (encode t)))))%nat) by lia.
  pose proof (iterate_node_cut node_cb property_cb Hq t (encode t) k _ 0 0 st
                Hv (holds_whole _) Hk0 Hf) as H.
  cbv zeta in H. destruct H as [(Hne & _) | (_ & st' & H)]; [unfold k in Hne; lia|].
  rewrite H. eauto.
Qed.

(** The two cases of the property step. *)
Lemma parse_property_cases buf p :
  0 <= p ->
  (property_rejected buf p /\ parse_property buf p = Some None)
  \/ (~ property_rejected buf p
      /\ parse_property buf p = Some (Some (accepted_property buf p))).
Proof.
  intros Hp. rewrite parse_property_eq by lia. unfold property_rejected.
  destruct (Z.ltb_spec (len buf) (p + sizeof_prop)) as [H1 | H1]; [left; auto|].
  destruct (byte.unsigned (name_terminator buf p) =? 0) eqn:E2; cbn [negb].
  2: { left. split; [|reflexivity]. right. left. intros E. rewrite E in E2.
       discriminate. }
  apply Z.eqb_eq, byte_unsigned_zero in E2.
  destruct (Z.ltb_spec (len buf) (p + sizeof_prop + round_up4 (masked_size buf p)))
    as [H3 | H3].
  - destruct (Z.eqb_spec (p + sizeof_prop + masked_size buf p) (len buf)) as [H4 | H4].
    + right. split; [|reflexivity]. intros [H | [H | [_ H]]]; auto; lia.
    + left. split; [|reflexivity]. right. right. split; assumption.
  - right. split; [|reflexivity]. intros [H | [H | [H _]]]; auto; lia.
Qed.

(** The loop returns false only at a rejected property. *)
Lemma iterate_properties_false {S} buf (cb : option (property_callback S)) n :
  forall depth p (st : S) stop st',
    0 <= p ->
    iterate_properties buf cb n depth p st = LReturn false stop st' ->
    rejected_within buf n p.
Proof.
  induction n as [|n IH]; intros depth p st stop st' Hp H;
    cbn [iterate_properties rejected_within] in *; [discriminate H|].
  destruct (parse_property_cases buf p Hp) as [[Hr He] | [Hr He]]; [now left|].
  right. split; [exact Hr|].
  destruct (parse_property_accepted buf p _ Hp He) as (_ & Hnext & _).
  rewrite He in H.
  assert (Hp' : 0 <= pp_next (accepted_property buf p))
    by (unfold sizeof_prop in Hnext; lia).
  destruct cb as [cb|]; [|exact (IH _ _ _ _ _ Hp' H)].
  destruct (slice buf _ sizeof_name) as [name|]; [|discriminate H].
  destruct (slice buf _ (pp_size _)) as [value|]; [|discriminate H].
  destruct (cb _ _ _ _ st) as [st1 [|]]; [discriminate H|].
  exact (IH _ _ _ _ _ Hp' H).
Qed.

(** With an observer that does not stop, the loop returns false at the
    first rejected property. *)
Lemma iterate_properties_rejected {S} buf (cb : option (property_callback S)) n :
  quiet None cb ->
  forall depth p (st : S),
    0 <= p -> rejected_within buf n p ->
    exists st', iterate_properties buf cb n depth p st = LReturn false false st'.
Proof.
  intros Hq. induction n as [|n IH]; intros depth p st Hp H;
    cbn [rejected_within] in H; [contradiction|].
  pose proof (iterate_properties_safe buf cb (Datatypes.S n) depth p st) as Hsafe.
  cbn [iterate_properties] in Hsafe |- *.
  destruct (parse_property_cases buf p Hp) as [[Hr He] | [Hr He]];
    rewrite He in Hsafe |- *; [eauto|].
  destruct H as [H | [_ H]]; [contradiction|].
  destruct (parse_property_accepted buf p _ Hp He) as (_ & Hnext & _).
  assert (Hp' : 0 <= pp_next (accepted_property buf p))
    by (unfold sizeof_prop in Hnext; lia).
  specialize (Hsafe ltac:(unfold sizeof_prop in Hnext; lia)).
  destruct cb as [cb|]; [|exact (IH _ _ _ Hp' H)].
  destruct (slice buf _ sizeof_name) as [name|]; [|contradiction].
  destruct (slice buf _ (pp_size _)) as [value|]; [|contradiction].
  pose proof (Hq (PropertyFound (u32 (depth + 1)) name value
                    (pp_size (accepted_property buf p))) st) as Hs.
  cbn [deliver] in Hs.
  destruct (cb _ _ _ _ st) as [st1 stop]. cbn [snd] in Hs. subst stop.
  exact (IH _ _ _ Hp' H).
Qed.

(** The walker on a node whose header is in the buffer, with observers
    that do not stop: false with the cursor on the node comes from the
    loop over the properties, and from nowhere else. *)
Lemma iterate_node_rejected {S} buf (node_cb : option (node_callback S))
    (property_cb : option (property_callback S)) fuel node depth (st : S) np nc :
  quiet node_cb property_cb ->
  0 <= node ->
  load32 buf node = Some np -> load32 buf (node + 4) = Some nc ->
  (length buf <= fuel)%nat ->
  (rejected_within buf (Z.to_nat np) (node + sizeof_node)
   <-> exists st',
         devicetree_iterate_node buf node_cb property_cb (Datatypes.S fuel)
           node depth st
         = Return false node false st').
Proof.
  intros Hq Hnode Hl1 Hl2 Hf.
  assert (Hqp : quiet None property_cb).
  { intros [d nd sz a b | d nm v sz] s;
      [reflexivity | exact (Hq (PropertyFound d nm v sz) s)]. }
  assert (Hfit : node + sizeof_node <= len buf).
  { unfold load32 in Hl2.
    destruct (slice buf (node + 4) 4) as [b2|] eqn:E2; [|discriminate Hl2].
    pose proof (slice_bounds _ _ _ _ E2). unfold sizeof_node. lia. }
  assert (Hp : 0 <= node + sizeof_node) by (unfold sizeof_node; lia).
  cbn [devicetree_iterate_node]. unfold data_end.
  replace (len buf <? node + sizeof_node) with false
    by (symmetry; apply Z.ltb_ge; lia).
  rewrite Hl1, Hl2.
  pose proof (Hq (NodeEntered depth node (len buf - (node + sizeof_node) + sizeof_node)
                    np nc) st) as Hs.
  cbn [deliver] in Hs.
  destruct (match node_cb with
            | Some cb => cb depth node (len buf - (node + sizeof_node) + sizeof_node)
                           np nc st
            | None => (st, false)
            end) as [st1 stop].
  cbn [snd] in Hs. subst stop.
  pose proof (iterate_properties_safe buf property_cb (Z.to_nat np) depth
                (node + sizeof_node) st1 ltac:(lia)) as Hsafe.
  split.
  - intros Hrej.
    destruct (iterate_properties_rejected buf property_cb (Z.to_nat np) Hqp
                depth (node + sizeof_node) st1 Hp Hrej) as [st' ->].
    eauto.
  - intros [st' H].
    destruct (iterate_properties buf property_cb (Z.to_nat np) depth
                (node + sizeof_node) st1) as [|ok stop st2|p' st2] eqn:Ep;
      [contradiction| |].
    + injection H as -> _ _.
      exact (iterate_properties_false buf property_cb (Z.to_nat np) depth
               (node + sizeof_node) st1 stop st2 Hp Ep).
    + exfalso.
      destruct (iterate_children_total buf
                  (fun d s => devicetree_iterate_node buf node_cb property_cb fuel d
                                (u32 (depth + 1)) s)
                  (node + sizeof_node) (Z.to_nat nc)) with (d := p') (st := st2)
        as (ok & d & stop & st3 & Hc & Hd).
      * intros d s Hd. apply iterate_node_total;
          unfold len, sizeof_node in *; lia.
      * lia.
      * rewrite Hc in H. injection H as _ Hdn _ _. unfold sizeof_node in *. lia.
Qed.

(** C3.  During property iteration the walker returns false exactly when
    a property is rejected: the 36-byte header does not fit, or the last
    byte of the name is not NUL, or the payload rounded up to a multiple of
    4 passes the end of the buffer while its unpadded end is not the end of
    the buffer.  Otherwise the property is accepted, and the next one is
    looked for after the padding or, when the padding is missing, at the
    end of the buffer.  For the loop over the properties: it returns false
    only at a rejected property, and with an observer that does not stop
    it returns false exactly when one of the properties it looks at is
    rejected.  For the walker on a node whose header is in the buffer, with
    observers that do not stop: it returns false with the cursor on the
    node exactly when one of the properties of the node is rejected. *)
Theorem property_rejected_exactly (buf : list byte) (p : Z) :
  0 <= p ->
  (parse_property buf p = Some None <-> property_rejected buf p)
  /\ (~ property_rejected buf p ->
      parse_property buf p = Some (Some (accepted_property buf p)))
  /\ (property_rejected buf p ->
      forall S (cb : option (property_callback S)) n depth (st : S),
        iterate_properties buf cb (Datatypes.S n) depth p st = LReturn false false st)
  /\ (forall S (cb : option (property_callback S)) n depth (st : S),
        (exists stop st',
            iterate_properties buf cb n depth p st = LReturn false stop st') ->
        rejected_within buf n p)
  /\ (forall S (cb : option (property_callback S)) n depth (st : S),
        quiet None cb ->
        (rejected_within buf n p
         <-> exists st', iterate_properties buf cb n depth p st
                         = LReturn false false st'))
  /\ (forall S (node_cb : option (node_callback S))
             (property_cb : option (property_callback S))
             fuel node depth (st : S) np nc,
        quiet node_cb property_cb ->
        0 <= node -> node + sizeof_node = p ->
        load32 buf node = Some np -> load32 buf (node + 4) = Some nc ->
        (length buf <= fuel)%nat ->
        (rejected_within buf (Z.to_nat np) p
         <-> exists st',
               devicetree_iterate_node buf node_cb property_cb (Datatypes.S fuel)
                 node depth st
               = Return false node false st')).
Proof.
  intros Hp.
  pose proof (parse_property_cases buf p Hp) as Hc.
  split; [|split; [|split; [|split; [|split]]]].
  - destruct Hc as [[Hr He] | [Hr He]]; rewrite He; split; intros H;
      try assumption; try discriminate H; try reflexivity; contradiction.
  - intros Hn. destruct Hc as [[Hr He] | [Hr He]]; [contradiction | exact He].
  - intros Hy S cb n depth st. destruct Hc as [[Hr He] | [Hr He]]; [|contradiction].
    cbn [iterate_properties]. now rewrite He.
  - intros S cb n depth st (stop & st' & H).
    exact (iterate_properties_false buf cb n depth p st stop st' Hp H).
  - intros S cb n depth st Hq. split.
    + apply (iterate_properties_rejected buf cb n Hq depth p st Hp).
    + intros [st' H].
      exact (iterate_properties_false buf cb n depth p st false st' Hp H).
  - intros S node_cb property_cb fuel node depth st np nc Hq Hnode <- Hl1 Hl2 Hf.
    now apply iterate_node_rejected with (nc := nc).
Qed.

(** C5.  On a buffer that starts with the encoding of a valid node,
    [devicetree_node_scan_properties] returns true after handing to the
    property observer the direct properties of the node, in order and at
    depth 1, up to the first one at which the observer asks to stop; no
    property of a child is handed over. *)
Theorem scan_properties_direct_only {S}
    (property_cb : option (property_callback S))
    (ps : list property) (cs : list tree) (rest : list byte) (st : S) :
  valid_tree (Node ps cs) = true ->
  devicetree_node_scan_properties (encode (Node ps cs) ++ rest) property_cb st
  = Some (true, fst (observe None property_cb (map (property_event 1) ps) st)).
Proof.
  intros Hv.
  pose proof (valid_tree_inv _ _ Hv) as (Hps & Hcs & Hvps & Hvcs).
  set (buf := encode (Node ps cs) ++ rest).
  pose proof (holds_prefix (encode (Node ps cs)) rest) as Hh. fold buf in Hh.
  apply holds_encode_Node in Hh as (Hhead & Hprops & Hkids).
  destruct (node_header _ _ _ _ Hv Hhead) as (_ & Hfit & Hnp & Hnc).
  unfold devicetree_node_scan_properties, devicetree_iterate.
  cbn [devicetree_iterate_node]. unfold data_end.
  replace (len buf <? 0 + sizeof_node) with false by (symmetry; apply Z.ltb_ge; lia).
  rewrite Hnp, Hnc. cbn [do_not_scan_children Z.eqb negb].
  rewrite !to_nat_len.
  rewrite (iterate_properties_valid None property_cb) by assumption.
  change (u32 (0 + 1)) with 1.
  destruct (observe None property_cb (map (property_event 1) ps) st) as [st1 [|]];
    [reflexivity|].
  cbn [fst]. destruct cs as [|c cs']; [reflexivity|].
  cbn [length iterate_children].
  assert (Hc : holds buf (0 + sizeof_node + len (flat_map encode_property ps))
                 (encode c)).
  { cbn [flat_map] in Hkids. apply holds_app in Hkids as [Hk1 _]. exact Hk1. }
  destruct c as [ps' cs''].
  apply holds_encode_Node in Hc as (Hhead' & _ & _).
  cbn [forallb] in Hvcs. apply andb_prop in Hvcs as [Hvc _].
  destruct (node_header _ _ _ _ Hvc Hhead') as (_ & Hfit' & Hnp' & Hnc').
  destruct (length buf) as [|n] eqn:El.
  { unfold len in Hfit. rewrite El in Hfit. unfold sizeof_node in Hfit. lia. }
  cbn [devicetree_iterate_node]. unfold data_end.
  replace (len buf <? _) with false by (symmetry; apply Z.ltb_ge; lia).
  rewrite Hnp', Hnc'. reflexivity.
Qed.

(** C10.  On the encoding of a valid tree (less deep than [unsigned] can
    count), the observers are told: the root at depth 0; the properties of
    a node at the depth of the node plus one; each child at the depth of
    its parent plus one.  So a node and its own properties are not
    reported at the same depth. *)
Theorem property_depth_is_node_depth_plus_one (t : tree) :
  valid_tree t = true ->
  Z.of_nat (height t) < 2 ^ 32 ->
  devicetree_iterate (encode t) (Some record_node) (Some record_property) []
  = Some (true, len (encode t), events (len (encode t)) t 0 0).
Proof.
  intros Hv Hh. apply walk_of_valid_encoding; auto.
  rewrite observe_record, events32_events by lia. reflexivity.
Qed.

(** ** Stop requests, on any buffer *)

Lemma current_node_app evs1 evs2 : forall dflt,
  current_node (evs1 ++ evs2) dflt = current_node evs2 (current_node evs1 dflt).
Proof.
  induction evs1 as [|e evs1 IH]; intros dflt; cbn [app current_node]; auto.
  destruct e; apply IH.
Qed.

Lemma no_stop_app a b : no_stop a -> no_stop b -> no_stop (a ++ b).
Proof. unfold no_stop. intros. apply Forall_app. auto. Qed.

Lemma stops_last_app a b stop :
  no_stop a -> stops_last b stop -> stops_last (a ++ b) stop.
Proof.
  intros Ha Hb. destruct stop; cbn [stops_last] in *.
  - destruct Hb as (pre & e & -> & Hpre). exists (a ++ pre), e.
    split; [now rewrite app_assoc | now apply no_stop_app].
  - now apply no_stop_app.
Qed.

Lemma stop_is_last pre e' pre' e post :
  no_stop pre -> pre ++ [(e', true)] = pre' ++ (e, true) :: post -> post = [].
Proof.
  intros Hpre. revert pre'. induction Hpre as [|x pre Hx _ IH]; intros pre' E.
  - destruct pre' as [|y pre']; cbn in E.
    + now injection E.
    + injection E as _ E. destruct pre'; discriminate.
  - destruct pre' as [|y pre']; cbn in E.
    + injection E as E _. rewrite E in Hx. discriminate.
    + injection E as _ E. eauto.
Qed.

Lemma no_stop_has_no_stop log pre e post :
  no_stop log -> log <> pre ++ (e, true) :: post.
Proof.
  intros H E. subst log. apply Forall_app in H as [_ H].
  apply Forall_inv in H. discriminate.
Qed.

Section Logged.
Context {S : Type}.
Variable buf : list byte.
Variable node_cb : option (node_callback S).
Variable property_cb : option (property_callback S).

Local Abbreviation L := (S * list (event * bool))%type.
Local Abbreviation ncbL := (Some (logged_node node_cb property_cb)).
Local Abbreviation pcbL := (Some (logged_property node_cb property_cb)).

Lemma iterate_properties_logged n : forall depth p (st0 : S) log0,
  match iterate_properties buf pcbL n depth p (st0, log0) with
  | LFault => True
  | LReturn ok stop (_, log') =>
      exists new, log' = log0 ++ new /\ stops_last new stop
        /\ (stop = true -> ok = true)
        /\ forall dflt, current_node (map fst new) dflt = dflt
  | LNext _ (_, log') =>
      exists new, log' = log0 ++ new /\ no_stop new
        /\ forall dflt, current_node (map fst new) dflt = dflt
  end.
Proof.
  induction n as [|n IH]; intros depth p st0 log0; cbn [iterate_properties].
  { exists []. rewrite app_nil_r. repeat split; constructor. }
  destruct (parse_property buf p) as [[pp|]|]; [| |exact I].
  2: { exists []. rewrite app_nil_r. repeat split; try constructor. discriminate. }
  destruct (slice buf (pp_name pp) sizeof_name) as [name|]; [|exact I].
  destruct (slice buf (pp_value pp) (pp_size pp)) as [value|]; [|exact I].
  unfold logged_property at 1, logged. cbn [fst snd].
  set (e := PropertyFound (u32 (depth + 1)) name value (pp_size pp)).
  destruct (deliver node_cb property_cb e st0) as [st1 [|]].
  - exists [(e, true)]. repeat split; auto.
    exists [], e. split; [reflexivity | constructor].
  - specialize (IH depth (pp_next pp) st1 (log0 ++ [(e, false)])).
    destruct (iterate_properties _ _ _ _ _ _) as [|ok stop [st' log']|p' [st' log']];
      [exact I| |].
    + destruct IH as (new & -> & Hs & Hok & Hc).
      exists ((e, false) :: new). rewrite <- app_assoc. repeat split; auto.
      apply (stops_last_app [(e, false)]); [repeat constructor | exact Hs].
    + destruct IH as (new & -> & Hs & Hc).
      exists ((e, false) :: new). rewrite <- app_assoc. repeat split; auto.
      apply (no_stop_app [(e, false)]); [repeat constructor | exact Hs].
Qed.

Lemma iterate_children_logged (rec : Z -> L -> outcome L) n :
  (forall d st0 log0, logged_walk log0 (rec d (st0, log0))) ->
  forall d (st0 : S) log0,
    logged_walk log0 (iterate_children rec n d (st0, log0)).
Proof.
  intros Hrec. induction n as [|n IH]; intros d st0 log0; cbn [iterate_children].
  { exists []. rewrite app_nil_r. repeat split; try constructor; discriminate. }
  pose proof (Hrec d st0 log0) as H.
  destruct (rec d (st0, log0)) as [| |ok d' stop [st' log']]; try exact I.
  destruct ok, stop; try exact H.
  cbn [logged_walk] in H. destruct H as (new & -> & Hs & _).
  specialize (IH d' st' (log0 ++ new)).
  destruct (iterate_children rec n d' (st', log0 ++ new))
    as [| |ok d'' stop [st'' log'']]; try exact I.
  cbn [logged_walk] in IH |- *. destruct IH as (new' & -> & Hs' & Hstop).
  exists (new ++ new'). rewrite app_assoc. split; [reflexivity|].
  split; [now apply stops_last_app|].
  intros E. destruct (Hstop E) as [Hok Hc]. split; [exact Hok|].
  intros dflt. rewrite map_app, current_node_app. apply Hc.
Qed.

Lemma iterate_node_logged fuel : forall data depth (st0 : S) log0,
  logged_walk log0
    (devicetree_iterate_node buf ncbL pcbL fuel data depth (st0, log0)).
Proof.
  induction fuel as [|fuel IH]; intros data depth st0 log0; [exact I|].
  cbn [devicetree_iterate_node].
  destruct (data_end buf <? data + sizeof_node).
  { exists []. rewrite app_nil_r. repeat split; try constructor; discriminate. }
  destruct (load32 buf data) as [np|]; [|exact I].
  destruct (load32 buf (data + 4)) as [nc|]; [|exact I].
  unfold logged_node at 1, logged. cbn [fst snd].
  set (e := NodeEntered depth data (data_end buf - (data + sizeof_node) + sizeof_node)
              np nc).
  destruct (deliver node_cb property_cb e st0) as [st1 [|]].
  { exists [(e, true)]. repeat split; auto.
    exists [], e. split; [reflexivity | constructor]. }
  pose proof (iterate_properties_logged (Z.to_nat np) depth (data + sizeof_node)
                st1 (log0 ++ [(e, false)])) as Hp.
  destruct (iterate_properties _ _ _ _ _ _) as [|ok stop [st2 log2]|p' [st2 log2]];
    [exact I| |].
  - destruct Hp as (new & -> & Hs & Hok & Hc).
    exists ((e, false) :: new). rewrite <- app_assoc. split; [reflexivity|].
    split; [apply (stops_last_app [(e, false)]); [repeat constructor | exact Hs]|].
    intros E. split; [auto|]. intros dflt. cbn [map fst current_node]. apply Hc.
  - destruct Hp as (new & -> & Hs & Hc).
    pose proof (iterate_children_logged
                  (fun d s => devicetree_iterate_node buf ncbL pcbL fuel d
                                (u32 (depth + 1)) s)
                  (Z.to_nat nc) (fun d s l => IH d (u32 (depth + 1)) s l)
                  p' st2 ((log0 ++ [(e, false)]) ++ new)) as Hk.
    destruct (iterate_children _ _ _ _) as [| |ok d stop [st3 log3]]; try exact I.
    cbn [logged_walk] in Hk |- *. destruct Hk as (new' & -> & Hs' & Hstop).
    exists (((e, false) :: new) ++ new').
    split; [now rewrite <- !app_assoc|].
    split; [apply stops_last_app; auto;
            apply (no_stop_app [(e, false)]); [repeat constructor | exact Hs]|].
    intros E. destruct (Hstop E) as [Hok Hcur]. split; [exact Hok|].
    intros dflt. rewrite map_app, current_node_app. apply Hcur.
Qed.

(** The logging observers walk as the observers they wrap. *)
Lemma iterate_properties_erase n : forall depth p (st0 : S) log0,
  0 <= p ->
  erase_loop_log (iterate_properties buf pcbL n depth p (st0, log0))
  = iterate_properties buf property_cb n depth p st0.
Proof.
  induction n as [|n IH]; intros depth p st0 log0 Hp; cbn [iterate_properties];
    [reflexivity|].
  destruct (parse_property buf p) as [[pp|]|] eqn:E; try reflexivity.
  destruct (parse_property_accepted buf p pp Hp E) as (-> & Hnext & Hsz & Hval).
  unfold accepted_property in *. cbn [pp_name pp_value pp_size pp_next] in *.
  unfold sizeof_prop, sizeof_name in *.
  rewrite (slice_bytes_at buf p 32) by lia.
  rewrite (slice_bytes_at buf (p + 36) (masked_size buf p)) by lia.
  unfold logged_property at 1, logged. cbn [fst snd deliver].
  destruct property_cb as [cb|].
  - destruct (cb _ _ _ _ st0) as [st1 [|]]; [reflexivity|]. apply IH. lia.
  - apply IH. lia.
Qed.

Lemma iterate_children_erase (recL : Z -> L -> outcome L)
    (rec : Z -> S -> outcome S) n :
  (forall d st0 log0, erase_log (recL d (st0, log0)) = rec d st0) ->
  forall d (st0 : S) log0,
    erase_log (iterate_children recL n d (st0, log0)) = iterate_children rec n d st0.
Proof.
  intros Hrec. induction n as [|n IH]; intros d st0 log0; cbn [iterate_children];
    [reflexivity|].
  rewrite <- (Hrec d st0 log0).
  destruct (recL d (st0, log0)) as [| |ok d' stop [st' log']]; try reflexivity.
  cbn [erase_log]. destruct ok, stop; try reflexivity. apply IH.
Qed.

Lemma iterate_node_erase fuel : forall data depth (st0 : S) log0,
  erase_log (devicetree_iterate_node buf ncbL pcbL fuel data depth (st0, log0))
  = devicetree_iterate_node buf node_cb property_cb fuel data depth st0.
Proof.
  induction fuel as [|fuel IH]; intros data depth st0 log0; [reflexivity|].
  cbn [devicetree_iterate_node].
  destruct (data_end buf <? data + sizeof_node); [reflexivity|].
  destruct (load32 buf data) as [np|] eqn:E1; [|reflexivity].
  destruct (load32 buf (data + 4)) as [nc|]; [|reflexivity].
  assert (Hd : 0 <= data).
  { unfold load32 in E1. destruct (slice buf data 4) eqn:E; [|discriminate].
    now apply slice_bounds in E. }
  unfold logged_node at 1, logged. cbn [fst snd deliver].
  destruct (match node_cb with
            | Some cb => cb depth data (data_end buf - (data + sizeof_node) + sizeof_node)
                           np nc st0
            | None => (st0, false)
            end) as [st1 [|]]; [reflexivity|].
  rewrite <- (iterate_properties_erase (Z.to_nat np) depth (data + sizeof_node) st1
                (log0 ++ [(NodeEntered depth data
                             (data_end buf - (data + sizeof_node) + sizeof_node) np nc,
                           false)])) by (unfold sizeof_node; lia).
  destruct (iterate_properties buf pcbL _ _ _ _) as [|ok stop [st2 log2]|p [st2 log2]];
    try reflexivity.
  cbn [erase_loop_log]. apply iterate_children_erase.
  intros d s l. apply IH.
Qed.

(** C4.  Take any buffer and any observers, and let them log what they
    are told and what they answer.  If an observer (of nodes or of
    properties) sets the stop flag, [devicetree_iterate] returns true, no
    observer is called after that one (the rest of the node and every
    frame above it are skipped), and the cursor returned is the one of
    that moment: the offset of the node the walk was in.  The walk with
    the observers themselves returns the same. *)
Theorem stop_request_returns_true (st0 st : S) (ok : bool) (data : Z)
    (log pre post : list (event * bool)) (e : event) :
  devicetree_iterate buf ncbL pcbL (st0, []) = Some (ok, data, (st, log)) ->
  log = pre ++ (e, true) :: post ->
  ok = true /\ post = [] /\ data = current_node (map fst log) 0
  /\ devicetree_iterate buf node_cb property_cb st0 = Some (true, data, st).
Proof.
  unfold devicetree_iterate. intros Hrun Hlog.
  pose proof (iterate_node_logged (Datatypes.S (length buf)) 0 0 st0 []) as H.
  pose proof (iterate_node_erase (Datatypes.S (length buf)) 0 0 st0 []) as He.
  destruct (devicetree_iterate_node _ _ _ _ _ _ (st0, [])) as [| |ok' d stop [st' log']];
    try discriminate.
  injection Hrun as -> -> -> ->. cbn [erase_log] in He. rewrite <- He.
  cbn [logged_walk] in H. destruct H as (new & Hnew & Hs & Hstop).
  cbn [app] in Hnew. subst new.
  destruct stop; cbn [stops_last] in Hs.
  - destruct Hs as (pre0 & e0 & Hl & Hpre0).
    destruct (Hstop eq_refl) as [Hok Hcur].
    split; [exact Hok|]. split; [|split; [now rewrite Hcur | now rewrite Hok]].
    rewrite Hlog in Hl. symmetry in Hl. exact (stop_is_last _ _ _ _ _ Hpre0 Hl).
  - exfalso. exact (no_stop_has_no_stop _ _ _ _ Hs Hlog).
Qed.
End Logged.

(** ** The classifier *)

Lemma starts_with_spec needle : forall s,
  starts_with needle s = true <-> exists post, s = needle ++ post.
Proof.
  induction needle as [|x needle IH]; intros s; cbn [starts_with].
  - split; [intros _; exists s; reflexivity | reflexivity].
  - destruct s as [|y s].
    + split; [discriminate | intros [post E]; discriminate].
    + rewrite andb_true_iff, IH. split.
      * intros [Hx [post ->]]. apply Byte.byte_dec_bl in Hx. subst y.
        exists post. reflexivity.
      * intros [post E]. injection E as -> ->.
        split; [now apply Byte.byte_dec_lb | eauto].
Qed.

Lemma strstr_spec needle : forall haystack,
  strstr haystack needle = true <-> contains haystack needle.
Proof.
  unfold contains.
  induction haystack as [|y h IH]; cbn [strstr]; rewrite orb_true_iff, starts_with_spec.
  - split.
    + intros [[post E] | H]; [|discriminate]. exists [], post. exact E.
    + intros (pre & post & E). left. destruct pre as [|? ?]; [|discriminate].
      exists post. exact E.
  - rewrite IH. split.
    + intros [[post E] | (pre & post & E)].
      * exists [], post. exact E.
      * exists (y :: pre), post. cbn. now rewrite E.
    + intros (pre & post & E). destruct pre as [|x pre].
      * left. exists post. exact E.
      * right. injection E as _ E. eauto.
Qed.

Lemma land_page_mask bits x :
  0 <= bits -> 0 <= x -> (Z.land x (Z.ones bits) =? 0) = (x mod 2 ^ bits =? 0).
Proof. intros. now rewrite Z.land_ones. Qed.

Lemma phys_range_ok_spec r :
  Main.phys_range_ok r = true
  <-> plausible 0x1000 (le_combine (bytes_at r 0 8), le_combine (bytes_at r 8 8)).
Proof.
  unfold Main.phys_range_ok, plausible. cbn [fst snd].
  pose proof (le_combine_bound (bytes_at r 0 8)) as [Hp _].
  change 0xfff with (Z.ones 12). rewrite land_page_mask by lia.
  change (2 ^ 12) with 0x1000.
  destruct (Z.ltb_spec 0x980000000 (le_combine (bytes_at r 0 8))).
  { split; [discriminate | lia]. }
  destruct (Z.eqb_spec (le_combine (bytes_at r 0 8) mod 0x1000) 0); cbn [negb].
  2: { split; [discriminate | tauto]. }
  destruct (Z.ltb_spec 0x80000000 (le_combine (bytes_at r 8 8))).
  { split; [discriminate | lia]. }
  split; [intros _; repeat split; lia | reflexivity].
Qed.

Lemma check_phys_ranges_spec data :
  Main.check_phys_ranges data = true
  <-> Forall (plausible 0x1000) (address_ranges data).
Proof.
  unfold Main.check_phys_ranges, address_ranges, Main.sizeof_phys_range.
  induction (records 16 data) as [|r rs IH]; cbn [forallb map].
  - split; [constructor | reflexivity].
  - rewrite andb_true_iff, IH, phys_range_ok_spec. split.
    + intros [H1 H2]. now constructor.
    + intros H. split; [exact (Forall_inv H) | exact (Forall_inv_tail H)].
Qed.

Lemma bytes_at_record_low data off :
  bytes_at (bytes_at data off 16) 0 8 = bytes_at data off 8.
Proof.
  unfold bytes_at. cbn [Z.to_nat skipn]. rewrite firstn_firstn. reflexivity.
Qed.

Lemma bytes_at_record_high data off :
  0 <= off -> bytes_at (bytes_at data off 16) 8 8 = bytes_at data (off + 8) 8.
Proof.
  intros H. unfold bytes_at.
  rewrite skipn_firstn_comm, firstn_firstn, skipn_skipn.
  f_equal. f_equal. lia.
Qed.

Lemma check_pairs_from_spec data count : forall k j n,
  count = 2 * (Z.of_nat j + Z.of_nat k) -> (k <= n)%nat ->
  Part001.check_pairs_from data count (2 * Z.of_nat j) n = true
  <-> Forall (plausible 0x4000)
        (map (fun r => (le_combine (bytes_at r 0 8), le_combine (bytes_at r 8 8)))
           (map (fun i => bytes_at data (16 * Z.of_nat i) 16) (seq j k))).
Proof.
  induction k as [|k IH]; intros j n Hc Hn.
  - cbn [seq map]. split; [constructor|]. intros _.
    destruct n; cbn [Part001.check_pairs_from]; auto.
    now replace (2 * Z.of_nat j <? count) with false by (symmetry; apply Z.ltb_ge; lia).
  - destruct n as [|n]; [lia|]. cbn [seq map Part001.check_pairs_from].
    replace (2 * Z.of_nat j <? count) with true by (symmetry; apply Z.ltb_lt; lia).
    unfold Part001.word_at.
    replace (8 * (2 * Z.of_nat j)) with (16 * Z.of_nat j) by lia.
    replace (8 * (2 * Z.of_nat j + 1)) with (16 * Z.of_nat j + 8) by lia.
    rewrite bytes_at_record_low, bytes_at_record_high by lia.
    replace (2 * Z.of_nat j + 2) with (2 * Z.of_nat (Datatypes.S j)) by lia.
    specialize (IH (Datatypes.S j) n ltac:(lia) ltac:(lia)).
    set (phys := le_combine (bytes_at data (16 * Z.of_nat j) 8)) in *.
    set (sz := le_combine (bytes_at data (16 * Z.of_nat j + 8) 8)) in *.
    assert (Hp : 0 <= phys) by apply le_combine_bound.
    change 0x3fff with (Z.ones 14). rewrite land_page_mask by lia.
    change (2 ^ 14) with 0x4000.
    assert (Hhead : forall rest, Forall (plausible 0x4000) ((phys, sz) :: rest)
                                 <-> plausible 0x4000 (phys, sz) /\ Forall (plausible 0x4000) rest).
    { intros rest. split; [intros H; split; [exact (Forall_inv H) | exact (Forall_inv_tail H)]
                          | intros [H1 H2]; now constructor]. }
    rewrite Hhead. unfold plausible at 1. cbn [fst snd].
    destruct (Z.ltb_spec 0x980000000 phys); [split; [discriminate | lia]|].
    destruct (Z.eqb_spec (phys mod 0x4000) 0); cbn [negb];
      [|split; [discriminate | tauto]].
    destruct (Z.ltb_spec 0x80000000 sz); [split; [discriminate | lia]|].
    rewrite IH. tauto.
Qed.

Lemma check_physaddr_length_pairs_spec data :
  len data mod 16 = 0 ->
  Part001.check_physaddr_length_pairs data (len data / 8) = true
  <-> Forall (plausible 0x4000) (address_ranges data).
Proof.
  intros Hm. unfold Part001.check_physaddr_length_pairs, address_ranges, records.
  pose proof (len_nonneg data) as H0.
  assert (Hc : len data / 8 = 2 * (len data / 16)).
  { Z.div_mod_to_equations. lia. }
  pose proof (check_pairs_from_spec data (len data / 8) (Z.to_nat (len data / 16)) 0
                (Z.to_nat (len data / 8))) as H.
  change (2 * Z.of_nat 0) with 0 in H. apply H.
  - assert (0 <= len data / 16) by (apply Z.div_pos; lia). lia.
  - assert (0 <= len data / 16) by (apply Z.div_pos; lia). lia.
Qed.

Lemma late_rules_not_phys string size :
  Main.late_rules string size <> Main.DISP_PHYS_RANGES.
Proof.
  unfold Main.late_rules.
  repeat match goal with |- context [if ?b then _ else _] => destruct b end;
    discriminate.
Qed.

Lemma late_rules_not_physaddr string size :
  Part001.late_rules string size <> Part001.DISP_PHYSADDR_LEN.
Proof.
  unfold Part001.late_rules.
  repeat match goal with |- context [if ?b then _ else _] => destruct b end;
    discriminate.
Qed.

Lemma strstr_false name needle :
  ~ contains name needle -> strstr name needle = false.
Proof.
  intros H. destruct (strstr name needle) eqn:E; [|reflexivity].
  apply strstr_spec in E. contradiction.
Qed.

(** C7.  The size is a positive multiple of 16, the size of an address
    range, and no earlier rule matched.  If the name contains [reg], the
    value is an address-range table.  Otherwise it is one exactly when
    every (address, size) record is plausible: address at most
    0x980000000 and a multiple of the page size, size at most 0x80000000.
    The page size is 4 KiB in the variant bundled with the header and
    16 KiB in that of part_001; the former tries the segment ranges
    first. *)
Theorem address_range_rule (name data : list byte) :
  0 < len data -> len data mod 16 = 0 ->
  is_dec_int name = false ->
  is_string (measure_string data) (len data) = false ->
  is_function_prop name data (len data) = false ->
  is_hex_string_75 (measure_string data) (len data) = false ->
  (Main.is_segment_ranges name (len data) = false ->
   (contains name (lit "reg") ->
    Main.compute_display_type name data = Main.DISP_PHYS_RANGES)
   /\ (~ contains name (lit "reg") ->
       (Main.compute_display_type name data = Main.DISP_PHYS_RANGES
        <-> Forall (plausible 0x1000) (address_ranges data))))
  /\ (contains name (lit "reg") ->
      Part001.compute_display_type name data = Part001.DISP_PHYSADDR_LEN)
  /\ (~ contains name (lit "reg") ->
      (Part001.compute_display_type name data = Part001.DISP_PHYSADDR_LEN
       <-> Forall (plausible 0x4000) (address_ranges data))).
Proof.
  intros Hpos Hmod Hdec Hstr Hfun H75.
  assert (H12 : is_hex_int_12 (len data) = false).
  { unfold is_hex_int_12. apply orb_false_iff.
    split; apply Z.eqb_neq; intros E; rewrite E in Hmod; discriminate. }
  assert (Hsz : (0 <? len data) && (len data mod 16 =? 0) = true).
  { apply andb_true_iff. split; [apply Z.ltb_lt | apply Z.eqb_eq]; assumption. }
  unfold Main.compute_display_type, Part001.compute_display_type,
    Main.sizeof_phys_range.
  rewrite H12, Hdec, Hstr, Hfun, H75, Hsz.
  split; [intros Hseg; rewrite Hseg; split | split].
  - intros Hreg. apply strstr_spec in Hreg. now rewrite Hreg.
  - intros Hreg. rewrite (strstr_false _ _ Hreg), <- check_phys_ranges_spec.
    destruct (Main.check_phys_ranges data); [tauto|].
    split; [intros E; now apply late_rules_not_phys in E | discriminate].
  - intros Hreg. apply strstr_spec in Hreg. now rewrite Hreg.
  - intros Hreg.
    rewrite (strstr_false _ _ Hreg), <- check_physaddr_length_pairs_spec by assumption.
    destruct (Part001.check_physaddr_length_pairs data (len data / 8)); [tauto|].
    split; [intros E; now apply late_rules_not_physaddr in E | discriminate].
Qed.

(** ** The string buffer *)

Lemma firstn_len_app {A} (a b : list A) : firstn (Z.to_nat (len a)) (a ++ b) = a.
Proof.
  rewrite to_nat_len, firstn_app, Nat.sub_diag, firstn_all. cbn. apply app_nil_r.
Qed.

Lemma skipn_len_app {A} (a b : list A) : skipn (Z.to_nat (len a)) (a ++ b) = b.
Proof. rewrite to_nat_len, skipn_app, Nat.sub_diag, skipn_all. reflexivity. Qed.

Lemma firstn_short {A} (l : list A) k : len l <= k -> firstn (Z.to_nat k) l = l.
Proof. intros H. apply firstn_all2. unfold len in H. lia. Qed.

Lemma skipn_past {A} (l : list A) k : len l <= k -> skipn (Z.to_nat k) l = [].
Proof. intros H. apply skipn_all2. unfold len in H. lia. Qed.

Lemma firstn_app_more {A} (a b : list A) k :
  len a <= k -> firstn (Z.to_nat k) (a ++ b) = a ++ firstn (Z.to_nat (k - len a)) b.
Proof.
  intros H. pose proof (len_nonneg a). rewrite firstn_app, firstn_short by lia.
  f_equal. f_equal. unfold len in *. lia.
Qed.

Lemma firstn_app_less {A} (a b : list A) k :
  k <= len a -> firstn (Z.to_nat k) (a ++ b) = firstn (Z.to_nat k) a.
Proof.
  intros H. rewrite firstn_app.
  replace (Z.to_nat k - length a)%nat with 0%nat by (unfold len in H; lia).
  cbn. apply app_nil_r.
Qed.

Lemma len_zero_nil {A} (l : list A) : len l = 0 -> l = [].
Proof. destruct l; [reflexivity | unfold len; cbn [length]; lia]. Qed.

Lemma len_firstn_min {A} (l : list A) k :
  0 <= k -> len (firstn (Z.to_nat k) l) = Z.min k (len l).
Proof. intros H. unfold len. rewrite length_firstn. lia. Qed.

Lemma len_skipn {A} (l : list A) k :
  0 <= k <= len l -> len (skipn (Z.to_nat k) l) = len l - k.
Proof. intros H. unfold len in *. rewrite length_skipn. lia. Qed.

Lemma u64_small z : 0 <= z < 2 ^ 64 -> u64 z = z.
Proof. apply Z.mod_small. Qed.

Lemma tracks_alloc m : 1 <= m <= SIZE_MAX -> tracks (strbuf_alloc m) [].
Proof.
  intros H. unfold tracks, strbuf_alloc. cbn [cap max str pos].
  change (len (@nil byte)) with 0.
  set (c := if m <? 16384 then m else 16384).
  assert (Hc : 1 <= c <= m) by (subst c; destruct (Z.ltb_spec m 16384); lia).
  split; [lia|]. split; [lia|].
  split; [rewrite len_cons, len_repeat; lia|].
  split; [reflexivity|]. split; [left; lia|].
  eexists. cbn [Z.min Z.compare Z.to_nat firstn app].
  replace (Z.to_nat (Z.min 0 (c - 1))) with 0%nat by lia. reflexivity.
Qed.

Lemma tracks_intro sb text junk :
  1 <= cap sb <= max sb -> max sb <= SIZE_MAX ->
  len (str sb) = cap sb -> pos sb = len text ->
  (len text < cap sb \/ max sb <= len text) ->
  str sb = firstn (Z.to_nat (Z.min (len text) (cap sb - 1))) text ++ Byte.x00 :: junk ->
  tracks sb text.
Proof. unfold tracks. eauto 10. Qed.

(** One call of [strbuf_printf] on a sink that holds [text]. *)
Lemma strbuf_printf_tracks sb text chunk :
  tracks sb text -> len (text ++ chunk) < SIZE_MAX ->
  tracks (snd (strbuf_printf sb chunk)) (text ++ chunk)
  /\ max (snd (strbuf_printf sb chunk)) = max sb
  /\ fst (strbuf_printf sb chunk) = (len (text ++ chunk) <? max sb)
  /\ (max sb <= len text -> str (snd (strbuf_printf sb chunk)) = str sb).
Proof.
  intros (Hcap & Hmax & Hlen & Hpos & Hcase & junk & Hstr) Hfull.
  rewrite len_app in *. unfold SIZE_MAX in *.
  pose proof (len_nonneg text) as Ht. pose proof (len_nonneg chunk) as Hc.
  unfold strbuf_printf, strbuf_vprintf_no_grow.
  rewrite (u64_small (cap sb - 1)) by lia.
  rewrite (u64_small (pos sb + len chunk)) by lia.
  replace (cap sb =? 0) with false by (symmetry; apply Z.eqb_neq; lia).
  rewrite orb_false_r, Hpos.
  destruct Hcase as [Hin | Hover].
  2: { (* the maximum has been passed *)
    replace (cap sb - 1 <=? len text) with true by (symmetry; apply Z.leb_le; lia).
    unfold vsnprintf. cbn [Z.eqb].
    replace (cap sb - 1 <? len text + len chunk) with true
      by (symmetry; apply Z.ltb_lt; lia).
    cbn [max str cap pos fst snd].
    rewrite (u64_small (len text + len chunk + 1)) by lia.
    replace (max sb <? len text + len chunk + 1) with true
      by (symmetry; apply Z.ltb_lt; lia).
    cbn [fst snd max str cap pos].
    rewrite u64_small by lia.
    split; [|split; [reflexivity | split; [symmetry; apply Z.ltb_ge; lia | reflexivity]]].
    apply (tracks_intro _ _ junk); cbn [max str cap pos]; rewrite ?len_app;
      unfold SIZE_MAX; try lia.
    rewrite Hstr. f_equal.
    rewrite !Z.min_r by lia. symmetry. apply firstn_app_less. lia. }
  (* all of [text] is in the array *)
  rewrite Z.min_l in Hstr by lia. rewrite firstn_short in Hstr by lia.
  assert (Hjunk : len junk = cap sb - len text - 1).
  { rewrite Hstr, len_app, len_cons in Hlen. lia. }
  destruct (Z.leb_spec (len text + len chunk) (cap sb - 1)) as [Hfit | Hbig].
  { (* the chunk fits *)
    replace (cap sb - 1 <? len text + len chunk) with false
      by (symmetry; apply Z.ltb_ge; lia).
    cbn [fst snd max str cap pos].
    split; [|split; [reflexivity | split; [symmetry; apply Z.ltb_lt; lia | intros; lia]]].
    destruct (Z.leb_spec (cap sb - 1) (len text)) as [Hfull' | Hroom].
    - (* no room at all: the chunk is empty *)
      assert (chunk = []) by (apply len_zero_nil; lia). subst chunk.
      unfold vsnprintf. cbn [Z.eqb]. rewrite app_nil_r.
      change (len (@nil byte)) with 0 in *.
      apply (tracks_intro _ _ junk); cbn [max str cap pos]; unfold SIZE_MAX; try lia.
      rewrite Z.min_l by lia. rewrite firstn_short by lia. exact Hstr.
    - rewrite (u64_small (cap sb - len text)) by lia. unfold vsnprintf.
      replace (cap sb - len text =? 0) with false by (symmetry; apply Z.eqb_neq; lia).
      rewrite (Z.min_l (len chunk)) by lia. rewrite (firstn_short chunk) by lia.
      rewrite Hstr, firstn_len_app.
      eapply tracks_intro; cbn [max str cap pos]; rewrite ?len_app;
        unfold SIZE_MAX; try lia.
      + change (len [Byte.x00]) with 1.
        rewrite len_skipn by (rewrite len_app, len_cons; lia).
        rewrite len_app, len_cons. lia.
      + rewrite Z.min_l by lia.
        replace (len text + len chunk) with (len (text ++ chunk)) by apply len_app.
        rewrite firstn_short by lia. rewrite <- app_assoc. reflexivity. }
  (* the chunk does not fit *)
  replace (cap sb - 1 <? len text + len chunk) with true
    by (symmetry; apply Z.ltb_lt; lia).
  cbn [fst snd max str cap pos].
  rewrite (u64_small (len text + len chunk + 1)) by lia.
  set (size := if cap sb - 1 <=? len text then 0 else u64 (cap sb - len text)).
  set (str1 := vsnprintf (str sb) (len text) size chunk).
  assert (Hstr1 : str1 = firstn (Z.to_nat (cap sb - 1)) (text ++ chunk) ++ [Byte.x00]).
  { subst str1 size. rewrite firstn_app_more by lia.
    destruct (Z.leb_spec (cap sb - 1) (len text)) as [Hfull' | Hroom].
    - unfold vsnprintf. cbn [Z.eqb].
      replace (cap sb - 1 - len text) with 0 by lia. cbn [Z.to_nat firstn].
      rewrite app_nil_r, Hstr. f_equal. f_equal. apply len_zero_nil. lia.
    - rewrite (u64_small (cap sb - len text)) by lia. unfold vsnprintf.
      replace (cap sb - len text =? 0) with false by (symmetry; apply Z.eqb_neq; lia).
      rewrite (Z.min_r (len chunk)) by lia.
      rewrite Hstr, firstn_len_app.
      rewrite skipn_past by (rewrite len_app, len_cons; lia).
      rewrite app_nil_r, <- app_assoc.
      do 3 f_equal. lia. }
  assert (Hlen1 : len str1 = cap sb).
  { rewrite Hstr1, len_app, len_firstn_min, len_app, len_cons by lia.
    change (len (@nil byte)) with 0. lia. }
  destruct (Z.ltb_spec (max sb) (len text + len chunk + 1)) as [Hfail | Hgrow].
  { (* no available capacity *)
    cbn [fst snd max str cap pos]. rewrite u64_small by lia.
    split; [|split; [reflexivity | split; [symmetry; apply Z.ltb_ge; lia | intros; lia]]].
    apply (tracks_intro _ _ []); cbn [max str cap pos]; rewrite ?len_app;
      unfold SIZE_MAX; try lia.
    rewrite Z.min_r by lia. exact Hstr1. }
  (* room to grow *)
  cbn [fst snd max str cap pos].
  rewrite (u64_small (len text + len chunk + 1 - 1)) by lia.
  rewrite (u64_small (len text + len chunk)) by lia.
  replace (len text + len chunk + 1 - 1 <=? len text) with false
    by (symmetry; apply Z.leb_gt; lia).
  replace (len text + len chunk + 1 =? 0) with false by (symmetry; apply Z.eqb_neq; lia).
  cbn [orb].
  replace (len text + len chunk + 1 - 1 <? len text + len chunk) with false
    by (symmetry; apply Z.ltb_ge; lia).
  cbn [fst snd max str cap pos].
  split; [|split; [reflexivity | split; [symmetry; apply Z.ltb_lt; lia | intros; lia]]].
  rewrite (u64_small (len text + len chunk + 1 - len text)) by lia.
  unfold vsnprintf.
  replace (len text + len chunk + 1 - len text =? 0) with false
    by (symmetry; apply Z.eqb_neq; lia).
  rewrite (Z.min_l (len chunk)) by lia. rewrite (firstn_short chunk) by lia.
  assert (Hpre : firstn (Z.to_nat (len text)) (realloc str1 (len text + len chunk + 1))
                 = text).
  { unfold realloc. rewrite (firstn_short str1) by lia.
    rewrite Hstr1, (firstn_app_more text chunk (cap sb - 1)) by lia.
    rewrite <- !app_assoc. apply firstn_len_app. }
  assert (Hpost : skipn (Z.to_nat (len text + len chunk + 1))
                    (realloc str1 (len text + len chunk + 1)) = []).
  { apply skipn_past. unfold realloc. rewrite (firstn_short str1) by lia.
    rewrite len_app, len_repeat. unfold len in *. lia. }
  rewrite Hpre, Hpost.
  apply (tracks_intro _ _ []); cbn [max str cap pos]; rewrite ?len_app, ?len_cons;
    change (len (@nil byte)) with 0; unfold SIZE_MAX; try lia.
  rewrite Z.min_l by lia.
  replace (len text + len chunk) with (len (text ++ chunk)) by apply len_app.
  rewrite firstn_short by lia. rewrite <- app_assoc. reflexivity.
Qed.

(** ** Texts without NUL *)

Lemma nul_free_app a b : nul_free (a ++ b) = nul_free a && nul_free b.
Proof. apply forallb_app. Qed.

Lemma nul_free_rev a : nul_free (rev a) = nul_free a.
Proof.
  induction a as [|x a IH]; [reflexivity|].
  cbn [rev]. rewrite nul_free_app, IH. cbn [nul_free forallb].
  rewrite andb_true_r. apply andb_comm.
Qed.

Lemma nul_free_firstn a k : nul_free a = true -> nul_free (firstn k a) = true.
Proof.
  revert k. induction a as [|x a IH]; intros [|k] H; try reflexivity.
  cbn [firstn nul_free forallb] in *. apply andb_prop in H as [H1 H2].
  rewrite H1. now apply IH.
Qed.

Lemma nul_free_of_Z z : 0 < z < 256 -> is_nul (byte.of_Z z) = false.
Proof.
  intros H. unfold is_nul. rewrite byte.unsigned_of_Z. unfold byte.wrap.
  rewrite Z.mod_small by lia. apply Z.eqb_neq. lia.
Qed.

Lemma nul_free_hex_digit d : 0 <= d < 16 -> is_nul (hex_digit d) = false.
Proof.
  intros H. unfold hex_digit. apply nul_free_of_Z.
  destruct (d <? 10); lia.
Qed.

Lemma nul_free_hex_digits fuel : forall n,
  0 <= n -> nul_free (hex_digits_rev fuel n) = true.
Proof.
  induction fuel as [|fuel IH]; intros n Hn; [reflexivity|].
  cbn [hex_digits_rev]. destruct (Z.ltb_spec n 16).
  - cbn [nul_free forallb]. now rewrite nul_free_hex_digit by lia.
  - cbn [nul_free forallb].
    rewrite nul_free_hex_digit by (apply Z.mod_pos_bound; lia).
    apply IH. apply Z.div_pos; lia.
Qed.

Lemma nul_free_dec_digits fuel : forall n,
  0 <= n -> nul_free (dec_digits_rev fuel n) = true.
Proof.
  induction fuel as [|fuel IH]; intros n Hn; [reflexivity|].
  cbn [dec_digits_rev]. destruct (Z.ltb_spec n 10).
  - cbn [nul_free forallb]. now rewrite nul_free_of_Z by lia.
  - cbn [nul_free forallb].
    pose proof (Z.mod_pos_bound n 10 ltac:(lia)).
    rewrite nul_free_of_Z by lia.
    apply IH. apply Z.div_pos; lia.
Qed.

Lemma nul_free_fmt_x n : 0 <= n -> nul_free (fmt_x n) = true.
Proof. intros H. unfold fmt_x. rewrite nul_free_rev. now apply nul_free_hex_digits. Qed.

Lemma nul_free_zero_pad w digits :
  nul_free digits = true -> nul_free (zero_pad w digits) = true.
Proof.
  intros H. unfold zero_pad. rewrite nul_free_app, H, andb_true_r.
  induction (w - length digits)%nat as [|k IH]; [reflexivity|].
  cbn [repeat]. change (nul_free (byte.of_Z 48 :: repeat (byte.of_Z 48) k))
    with (negb (is_nul (byte.of_Z 48)) && nul_free (repeat (byte.of_Z 48) k)).
  now rewrite IH.
Qed.

Lemma nul_free_fmt_02x n : 0 <= n -> nul_free (fmt_02x n) = true.
Proof. intros. apply nul_free_zero_pad. now apply nul_free_fmt_x. Qed.

Lemma nul_free_fmt_016llx n : 0 <= n -> nul_free (fmt_016llx n) = true.
Proof. intros. apply nul_free_zero_pad. now apply nul_free_fmt_x. Qed.

Lemma nul_free_fmt_lld n : 0 <= n < 2 ^ 64 -> nul_free (fmt_lld n) = true.
Proof.
  intros H. unfold fmt_lld. destruct (n <? 2 ^ 63).
  - rewrite nul_free_rev. apply nul_free_dec_digits. lia.
  - rewrite nul_free_app, nul_free_rev, nul_free_dec_digits by lia. reflexivity.
Qed.

Lemma read_uint_range data size : 0 <= read_uint data size < 2 ^ 64.
Proof.
  unfold read_uint.
  assert (H : forall n, (n <= 8)%nat ->
                        0 <= le_combine (bytes_at data 0 (Z.of_nat n)) < 2 ^ 64).
  { intros n Hn. pose proof (le_combine_bound (bytes_at data 0 (Z.of_nat n))) as Hb.
    assert (Hl : (length (bytes_at data 0 (Z.of_nat n)) <= 8)%nat).
    { unfold bytes_at. rewrite length_firstn. lia. }
    assert (2 ^ (8 * Z.of_nat (length (bytes_at data 0 (Z.of_nat n)))) <= 2 ^ 64).
    { apply Z.pow_le_mono_r; lia. }
    lia. }
  destruct (size =? 1); [exact (H 1%nat ltac:(lia))|].
  destruct (size =? 2); [exact (H 2%nat ltac:(lia))|].
  destruct (size =? 4); [exact (H 4%nat ltac:(lia))|].
  destruct (size =? 8); [exact (H 8%nat ltac:(lia))|].
  unfold u64. apply Z.mod_pos_bound. lia.
Qed.

Lemma isprint_not_nul c : isprint c = true -> is_nul c = false.
Proof.
  unfold isprint, is_nul. rewrite andb_true_iff, Z.leb_le. intros [H _].
  apply Z.eqb_neq. lia.
Qed.

Lemma nul_free_escape_byte c : nul_free (escape_byte c) = true.
Proof.
  unfold escape_byte.
  destruct (Byte.eqb c backslash) eqn:E1;
    [apply Byte.byte_dec_bl in E1; subst c; reflexivity|].
  destruct (Byte.eqb c quote) eqn:E2;
    [apply Byte.byte_dec_bl in E2; subst c; reflexivity|].
  cbn [orb]. destruct (is_nul c) eqn:E3; [reflexivity|].
  destruct (isprint c).
  - cbn [nul_free forallb]. now rewrite E3.
  - rewrite nul_free_app, nul_free_fmt_02x by apply byte.unsigned_range. reflexivity.
Qed.

Lemma nul_free_hex_string_char_text c :
  nul_free (Part001.hex_string_char_text c) = true.
Proof.
  unfold Part001.hex_string_char_text.
  destruct (isprint c) eqn:E1.
  { cbn [nul_free forallb]. now rewrite (isprint_not_nul _ E1). }
  destruct (Byte.eqb c quote); [reflexivity|].
  destruct (is_nul c); [reflexivity|].
  rewrite nul_free_app, nul_free_fmt_02x by apply byte.unsigned_range. reflexivity.
Qed.

Lemma nul_free_flat_map {A} (f : A -> list byte) items :
  (forall x, nul_free (f x) = true) -> nul_free (flat_map f items) = true.
Proof.
  intros H. induction items as [|x items IH]; [reflexivity|].
  cbn [flat_map]. now rewrite nul_free_app, H, IH.
Qed.

Lemma nul_free_loop_text {A} (chunk : A -> bool -> list byte) items :
  (forall x last, nul_free (chunk x last) = true) ->
  nul_free (loop_text chunk items) = true.
Proof.
  intros H. induction items as [|x items IH]; [reflexivity|].
  cbn [loop_text]. now rewrite nul_free_app, H, IH.
Qed.

Lemma nul_free_quoted data : nul_free (quoted data) = true.
Proof.
  unfold quoted. rewrite !nul_free_app.
  rewrite (nul_free_flat_map escape_byte) by apply nul_free_escape_byte. reflexivity.
Qed.

Lemma nul_free_quoted_part001 data : nul_free (quoted_part001 data) = true.
Proof.
  unfold quoted_part001. rewrite !nul_free_app.
  rewrite (nul_free_flat_map Part001.hex_string_char_text)
    by apply nul_free_hex_string_char_text.
  reflexivity.
Qed.

Lemma le_combine_nonneg bs : 0 <= le_combine bs.
Proof. apply le_combine_bound. Qed.

Lemma nul_free_hex_dump_text size c last : nul_free (hex_dump_text size c last) = true.
Proof.
  unfold hex_dump_text. rewrite nul_free_app, nul_free_fmt_02x by apply byte.unsigned_range.
  rewrite Z.eqb_refl. now destruct last.
Qed.

Lemma nul_free_hex_int_text data : nul_free (hex_int_text data) = true.
Proof.
  unfold hex_int_text. destruct (_ =? 0); [reflexivity|].
  rewrite nul_free_app, nul_free_fmt_x by apply read_uint_range. reflexivity.
Qed.

Lemma nul_free_dec_int_text data : nul_free (dec_int_text data) = true.
Proof. apply nul_free_fmt_lld, read_uint_range. Qed.

Lemma nul_free_phys_range_text r last : nul_free (Main.phys_range_text r last) = true.
Proof.
  unfold Main.phys_range_text.
  rewrite !nul_free_app, !nul_free_fmt_x by apply le_combine_nonneg.
  now destruct last.
Qed.

Lemma nul_free_segment_range_text r last :
  nul_free (Main.segment_range_text r last) = true.
Proof.
  unfold Main.segment_range_text.
  rewrite !nul_free_app, !nul_free_fmt_x by apply le_combine_nonneg.
  now destruct last.
Qed.

Lemma nul_free_physaddr_len_text r last :
  nul_free (Part001.physaddr_len_text r last) = true.
Proof.
  unfold Part001.physaddr_len_text.
  rewrite !nul_free_app, nul_free_fmt_x, nul_free_fmt_016llx by apply le_combine_nonneg.
  now destruct last.
Qed.

Lemma nul_free_text_main disp data : nul_free (text_of_kind_main disp data) = true.
Proof.
  destruct disp; cbn [text_of_kind_main];
    auto using nul_free_hex_int_text, nul_free_dec_int_text, nul_free_quoted.
  - apply nul_free_loop_text, nul_free_hex_dump_text.
  - apply nul_free_loop_text, nul_free_phys_range_text.
  - apply nul_free_loop_text, nul_free_segment_range_text.
Qed.

Lemma nul_free_text_part001 disp data :
  nul_free (text_of_kind_part001 disp data) = true.
Proof.
  destruct disp; cbn [text_of_kind_part001];
    auto using nul_free_hex_int_text, nul_free_dec_int_text, nul_free_quoted_part001.
  - apply nul_free_loop_text, nul_free_hex_dump_text.
  - apply nul_free_loop_text, nul_free_physaddr_len_text.
Qed.

Lemma cstring_terminated a junk :
  nul_free a = true -> cstring (a ++ Byte.x00 :: junk) = a.
Proof.
  induction a as [|x a IH]; intros H; [reflexivity|].
  cbn [nul_free forallb] in H. apply andb_prop in H as [H1 H2].
  cbn [app cstring]. apply negb_true_iff in H1. rewrite H1. f_equal. now apply IH.
Qed.

Lemma cstring_prefix data : firstn (Z.to_nat (strnlen data)) data = cstring data.
Proof.
  unfold strnlen. rewrite to_nat_len.
  induction data as [|x data IH]; [reflexivity|].
  cbn [cstring]. destruct (is_nul x); [reflexivity|].
  cbn [length firstn]. now rewrite IH.
Qed.

(** ** The formatters as writers of a text *)

Lemma renders_printf chunk : renders (fun sb => strbuf_printf sb chunk) chunk.
Proof.
  intros sb text Ht _ Hfull.
  destruct (strbuf_printf_tracks sb text chunk Ht Hfull) as (H1 & H2 & H3 & _).
  exists chunk. split; [exact H1|]. split; [exact H2|].
  split; [exists []; now rewrite app_nil_r|].
  rewrite H3. destruct (Z.ltb_spec (len (text ++ chunk)) (max sb)); [split|]; auto.
Qed.

Lemma renders_nil : renders (fun sb => (true, sb)) [].
Proof.
  intros sb text Ht Hlt _. exists []. cbn [fst snd]. rewrite app_nil_r.
  split; [exact Ht|]. split; [reflexivity|]. split; [exists []; reflexivity|].
  split; [reflexivity | exact Hlt].
Qed.

Lemma renders_seq f g F G :
  renders f F -> renders g G ->
  renders (fun sb => let '(ok, sb1) := f sb in if ok then g sb1 else (false, sb1))
          (F ++ G).
Proof.
  intros Hf Hg sb text Ht Hlt Hfull.
  rewrite !len_app in Hfull. pose proof (len_nonneg G) as HG.
  pose proof (len_nonneg F) as HF.
  destruct (Hf sb text Ht Hlt ltac:(rewrite len_app; lia))
    as (a1 & Ht1 & Hm1 & [r1 Hr1] & Hok1).
  destruct (f sb) as [ok sb1]. cbn [fst snd] in *. destruct ok.
  - destruct Hok1 as [-> Hlt1].
    destruct (Hg sb1 (text ++ F) Ht1 ltac:(lia) ltac:(rewrite !len_app; lia))
      as (a2 & Ht2 & Hm2 & [r2 Hr2] & Hok2).
    exists (F ++ a2). rewrite app_assoc. split; [exact Ht2|].
    split; [lia|]. split; [exists r2; now rewrite <- app_assoc, <- Hr2|].
    destruct (fst (g sb1)).
    + destruct Hok2 as [-> Hlt2]. split; [reflexivity|]. rewrite <- app_assoc in Hlt2. lia.
    + lia.
  - exists a1. cbn [fst snd]. split; [exact Ht1|]. split; [exact Hm1|].
    split; [exists (r1 ++ G); now rewrite Hr1, <- app_assoc|]. lia.
Qed.

Lemma renders_ext f g F :
  (forall sb, f sb = g sb) -> renders f F -> renders g F.
Proof.
  intros E Hf sb text Ht Hlt Hfull. rewrite <- E. now apply Hf.
Qed.

Lemma renders_loop {A} (body : strbuf -> A -> bool -> bool * strbuf)
    (chunk : A -> bool -> list byte) items :
  (forall x last, renders (fun sb => body sb x last) (chunk x last)) ->
  renders (fun sb => print_loop body sb items) (loop_text chunk items).
Proof.
  intros Hbody. induction items as [|x items IH]; cbn [print_loop loop_text].
  - apply renders_nil.
  - apply (renders_seq _ _ _ _ (Hbody x _) IH).
Qed.

Lemma loop_text_flat_map {A} (f : A -> list byte) items :
  loop_text (fun x _ => f x) items = flat_map f items.
Proof.
  induction items as [|x items IH]; [reflexivity|].
  cbn [loop_text flat_map]. now rewrite IH.
Qed.

(** One character of the string formatter of the header's variant. *)
Lemma renders_hex_string_char c :
  renders (fun sb => Main.hex_string_char sb c) (escape_byte c).
Proof.
  unfold Main.hex_string_char, escape_byte.
  destruct (Byte.eqb c backslash || Byte.eqb c quote) eqn:E.
  - assert (Hc : is_nul c = false /\ isprint c = true).
    { apply orb_prop in E as [E | E]; apply Byte.byte_dec_bl in E; subst c;
        split; reflexivity. }
    destruct Hc as [-> ->].
    intros sb text Ht _ Hfull.
    change [backslash; c] with ([backslash] ++ [c]) in *.
    rewrite app_assoc in Hfull.
    assert (Hfull1 : len (text ++ [backslash]) < SIZE_MAX).
    { rewrite len_app in Hfull. change (len [c]) with 1 in Hfull. lia. }
    destruct (strbuf_printf_tracks sb text [backslash] Ht Hfull1) as (H1 & H2 & _ & _).
    destruct (strbuf_printf sb [backslash]) as [ok1 sb1]. cbn [fst snd] in *.
    destruct (strbuf_printf_tracks sb1 (text ++ [backslash]) [c] H1 Hfull)
      as (H3 & H4 & H5 & _).
    exists ([backslash] ++ [c]). rewrite app_assoc.
    split; [exact H3|]. split; [lia|]. split; [exists []; now rewrite app_nil_r|].
    rewrite H5, H2.
    destruct (Z.ltb_spec (len ((text ++ [backslash]) ++ [c])) (max sb)); [split|]; auto.
  - destruct (is_nul c); [apply renders_printf|].
    destruct (isprint c); apply renders_printf.
Qed.

Lemma renders_hex_string_main data :
  renders (fun sb => Main.print_property_hex_string sb data) (quoted data).
Proof.
  unfold Main.print_property_hex_string, quoted.
  apply (renders_seq (fun sb => strbuf_printf sb [quote])
           (fun sb1 =>
              let '(ok, sb2) :=
                print_loop (fun sb c (_ : bool) => Main.hex_string_char sb c) sb1 data in
              if ok then strbuf_printf sb2 [quote] else (false, sb2))).
  - apply renders_printf.
  - apply renders_seq; [|apply renders_printf].
    rewrite <- loop_text_flat_map.
    apply renders_loop. intros c _. apply renders_hex_string_char.
Qed.

Lemma renders_hex_string_part001 data :
  renders (fun sb => Part001.print_property_hex_string sb data) (quoted_part001 data).
Proof.
  unfold Part001.print_property_hex_string, quoted_part001.
  apply (renders_seq (fun sb => strbuf_printf sb [quote])
           (fun sb1 =>
              let '(ok, sb2) :=
                print_loop (fun sb c (_ : bool) =>
                              strbuf_printf sb (Part001.hex_string_char_text c)) sb1 data in
              if ok then strbuf_printf sb2 [quote] else (false, sb2))).
  - apply renders_printf.
  - apply renders_seq; [|apply renders_printf].
    rewrite <- loop_text_flat_map.
    apply renders_loop. intros c _. apply renders_printf.
Qed.

Lemma renders_kind_main disp data :
  renders (fun sb => Main.print_kind disp sb data) (text_of_kind_main disp data).
Proof.
  destruct disp; cbn [Main.print_kind text_of_kind_main].
  - apply renders_loop. intros c last. apply renders_printf.
  - apply renders_printf.
  - apply renders_printf.
  - unfold Main.print_property_string, bytes_at. cbn [Z.to_nat skipn].
    rewrite cstring_prefix. apply renders_hex_string_main.
  - apply renders_hex_string_main.
  - apply renders_hex_string_main.
  - apply renders_loop. intros r last. apply renders_printf.
  - apply renders_loop. intros r last. apply renders_printf.
Qed.

Lemma renders_kind_part001 disp data :
  renders (fun sb => Part001.print_kind disp sb data) (text_of_kind_part001 disp data).
Proof.
  destruct disp; cbn [Part001.print_kind text_of_kind_part001].
  - apply renders_loop. intros c last. apply renders_printf.
  - apply renders_printf.
  - apply renders_printf.
  - unfold Part001.print_property_string, bytes_at. cbn [Z.to_nat skipn].
    rewrite cstring_prefix. apply renders_hex_string_part001.
  - apply renders_hex_string_part001.
  - apply renders_hex_string_part001.
  - apply renders_loop. intros r last. apply renders_printf.
Qed.

(** A formatter on a sink that holds the empty text. *)
Lemma renders_empty f full sb :
  renders f full -> nul_free full = true ->
  tracks sb [] -> len full < SIZE_MAX ->
  let r := f sb in
  fst r = (len full <? max sb)
  /\ contents (snd r)
     = (if len full <? max sb then full
        else firstn (Z.to_nat (cap (snd r) - 1)) full)
  /\ max (snd r) = max sb
  /\ exists text, tracks (snd r) text /\ (fst r = false -> max sb <= len text)
                  /\ len text <= len full.
Proof.
  intros Hf Hnul Hsb Hfull r.
  pose proof Hsb as (Hcap0 & _).
  destruct (Hf sb [] Hsb) as (added & Ht & Hmax & [rest Hr] & Hok).
  { change (len (@nil byte)) with 0. lia. }
  { exact Hfull. }
  fold r in Ht, Hmax, Hok. cbn [app] in *.
  pose proof Ht as (Hcap & _ & Hlen & Hpos & Hcase & junk & Hstr).
  assert (Hadd : len added <= len full).
  { rewrite Hr, len_app. pose proof (len_nonneg rest). lia. }
  assert (Hnul' : nul_free added = true).
  { rewrite Hr, nul_free_app in Hnul. now apply andb_prop in Hnul. }
  unfold contents. rewrite Hstr.
  rewrite cstring_terminated by now apply nul_free_firstn.
  destruct (fst r) eqn:Eok.
  - destruct Hok as [-> Hlt].
    replace (len full <? max sb) with true by (symmetry; apply Z.ltb_lt; lia).
    split; [reflexivity|]. split; [|split; [exact Hmax|]].
    + rewrite Z.min_l by lia. apply firstn_short. lia.
    + exists full. split; [exact Ht|]. split; [discriminate | lia].
  - replace (len full <? max sb) with false by (symmetry; apply Z.ltb_ge; lia).
    split; [reflexivity|]. split; [|split; [exact Hmax|]].
    + rewrite Z.min_r by lia. rewrite Hr. symmetry. apply firstn_app_less. lia.
    + exists added. split; [exact Ht|]. split; [intros _; lia | lia].
Qed.

(** A formatter on a fresh sink of maximum [m]. *)
Lemma renders_fresh f full m :
  renders f full -> nul_free full = true ->
  1 <= m <= SIZE_MAX -> len full < SIZE_MAX ->
  let r := f (strbuf_alloc m) in
  fst r = (len full <? m)
  /\ contents (snd r)
     = (if len full <? m then full
        else firstn (Z.to_nat (cap (snd r) - 1)) full)
  /\ max (snd r) = m
  /\ exists text, tracks (snd r) text /\ (fst r = false -> m <= len text)
                  /\ len text <= len full.
Proof.
  intros Hf Hnul Hm Hfull.
  exact (renders_empty f full (strbuf_alloc m) Hf Hnul (tracks_alloc m Hm) Hfull).
Qed.

(** ** Rendering into a sink *)

(** A formatter on a sink whose maximum is not above the length of the
    text, next to the same formatter on the unbounded sink. *)
Lemma sink_truncates f full m :
  renders f full -> nul_free full = true ->
  1 <= m <= len full -> len full < SIZE_MAX ->
  let r := f (strbuf_alloc m) in
  let u := f unbounded in
  fst u = true /\ contents (snd u) = full
  /\ fst r = false
  /\ (exists rest, contents (snd u) = contents (snd r) ++ rest)
  /\ forall chunk,
       pos (snd r) + len chunk < SIZE_MAX ->
       fst (strbuf_printf (snd r) chunk) = false
       /\ str (snd (strbuf_printf (snd r) chunk)) = str (snd r).
Proof.
  intros Hf Hnul Hm Hfull r u.
  assert (Hmax : 1 <= SIZE_MAX <= SIZE_MAX) by (unfold SIZE_MAX; lia).
  destruct (renders_fresh f full SIZE_MAX Hf Hnul Hmax Hfull) as (Hu1 & Hu2 & _).
  fold unbounded in Hu1, Hu2. fold u in Hu1, Hu2.
  replace (len full <? SIZE_MAX) with true in * by (symmetry; apply Z.ltb_lt; lia).
  destruct (renders_fresh f full m Hf Hnul ltac:(lia) Hfull)
    as (Hr1 & Hr2 & Hr3 & text & Ht & Hover & Hle).
  fold r in Hr1, Hr2, Hr3, Ht, Hover.
  replace (len full <? m) with false in * by (symmetry; apply Z.ltb_ge; lia).
  split; [exact Hu1|]. split; [exact Hu2|]. split; [exact Hr1|].
  split.
  - exists (skipn (Z.to_nat (cap (snd r) - 1)) full).
    rewrite Hu2, Hr2. symmetry. apply firstn_skipn.
  - intros chunk Hchunk.
    pose proof Ht as (_ & _ & _ & Hpos & _).
    destruct (strbuf_printf_tracks (snd r) text chunk Ht
                ltac:(rewrite len_app; lia)) as (_ & _ & Hok & Hstr).
    specialize (Hover Hr1). rewrite Hr3 in *.
    split; [|apply Hstr; lia].
    rewrite Hok, len_app. apply Z.ltb_ge. pose proof (len_nonneg chunk). lia.
Qed.

(** C9.  A value is rendered into a sink whose maximum is not above the
    length of the full text (the text the unbounded sink gets).  The
    formatter reports that the rendering is incomplete; what the sink holds
    is a prefix of the full text; and a later write into that sink fails
    and leaves the array as it is.  This holds for every display kind of
    both variants, on the sink [strbuf_alloc] gives. *)
Theorem truncated_rendering_is_prefix (data : list byte) (m : Z) :
  1 <= m ->
  (forall disp,
      m <= len (text_of_kind_main disp data) < SIZE_MAX ->
      let r := Main.print_kind disp (strbuf_alloc m) data in
      let u := Main.print_kind disp unbounded data in
      fst u = true /\ contents (snd u) = text_of_kind_main disp data
      /\ fst r = false
      /\ (exists rest, contents (snd u) = contents (snd r) ++ rest)
      /\ forall chunk,
           pos (snd r) + len chunk < SIZE_MAX ->
           fst (strbuf_printf (snd r) chunk) = false
           /\ str (snd (strbuf_printf (snd r) chunk)) = str (snd r))
  /\ (forall disp,
         m <= len (text_of_kind_part001 disp data) < SIZE_MAX ->
         let r := Part001.print_kind disp (strbuf_alloc m) data in
         let u := Part001.print_kind disp unbounded data in
         fst u = true /\ contents (snd u) = text_of_kind_part001 disp data
         /\ fst r = false
         /\ (exists rest, contents (snd u) = contents (snd r) ++ rest)
         /\ forall chunk,
              pos (snd r) + len chunk < SIZE_MAX ->
              fst (strbuf_printf (snd r) chunk) = false
              /\ str (snd (strbuf_printf (snd r) chunk)) = str (snd r)).
Proof.
  intros Hm. split; intros disp Hlen.
  - apply (sink_truncates (fun sb => Main.print_kind disp sb data));
      [apply renders_kind_main | apply nul_free_text_main | lia | lia].
  - apply (sink_truncates (fun sb => Part001.print_kind disp sb data));
      [apply renders_kind_part001 | apply nul_free_text_part001 | lia | lia].
Qed.

Lemma len_quoted_cstring data : len (quoted (cstring data)) <= len (quoted data).
Proof.
  unfold quoted. rewrite !len_app.
  assert (H : len (flat_map escape_byte (cstring data))
              <= len (flat_map escape_byte data)); [|lia].
  induction data as [|x data IH]; [cbn; lia|].
  cbn [cstring]. destruct (is_nul x).
  - cbn [flat_map]. change (len (@nil byte)) with 0. apply len_nonneg.
  - cbn [flat_map]. rewrite !len_app. lia.
Qed.

(** The variant bundled with the header quotes and escapes as section 4.3
    says: the string formatter renders the bytes before the first NUL, the
    two others the whole value. *)
Lemma main_quotes_and_escapes (data : list byte) :
  len (quoted data) < SIZE_MAX ->
  (let r := Main.print_property_string unbounded data in
   fst r = true /\ contents (snd r) = quoted (cstring data))
  /\ (let r := Main.print_property_hex_string unbounded data in
      fst r = true /\ contents (snd r) = quoted data)
  /\ (let r := Main.print_property_function unbounded data in
      fst r = true /\ contents (snd r) = quoted data).
Proof.
  intros Hlen. pose proof (len_quoted_cstring data) as Hc.
  assert (Hmax : 1 <= SIZE_MAX <= SIZE_MAX) by (unfold SIZE_MAX; lia).
  assert (H : forall d, len (quoted d) < SIZE_MAX ->
                        let r := Main.print_property_hex_string unbounded d in
                        fst r = true /\ contents (snd r) = quoted d).
  { intros d Hd.
    destruct (renders_fresh _ _ SIZE_MAX (renders_hex_string_main d)
                (nul_free_quoted d) Hmax Hd) as (H1 & H2 & _).
    replace (len (quoted d) <? SIZE_MAX) with true in *
      by (symmetry; apply Z.ltb_lt; lia).
    split; assumption. }
  split; [|split; apply H; lia].
  unfold Main.print_property_string, bytes_at. cbn [Z.to_nat skipn].
  rewrite cstring_prefix. apply H. lia.
Qed.

(** C8.  The string formatter of part_001 asks [isprint] first, so its
    branch for the double quote is never taken, and a backslash is a
    printable character like another: both are written as they are.  The
    three bytes a, double quote, b are rendered as those three bytes
    between double quotes, where the claim has a backslash before the inner
    quote; the single byte backslash is rendered once between double
    quotes, where the claim has it twice. *)
Theorem part001_quote_and_backslash_not_escaped :
  (let r := Part001.print_property_string unbounded
              [Byte.x61; quote; Byte.x62; Byte.x00] in
   fst r = true
   /\ contents (snd r) = [quote; Byte.x61; quote; Byte.x62; quote]
   /\ quoted (cstring [Byte.x61; quote; Byte.x62; Byte.x00])
      = [quote; Byte.x61; backslash; quote; Byte.x62; quote])
  /\ (let r := Part001.print_property_hex_string unbounded [backslash] in
      fst r = true
      /\ contents (snd r) = [quote; backslash; quote]
      /\ quoted [backslash] = [quote; backslash; backslash; quote]).
Proof. vm_compute. repeat split; reflexivity. Qed.

(** ** The sink of the driver, used for one property after another *)

Lemma vsnprintf_first_byte str size text b :
  0 < size -> str <> [] ->
  vsnprintf (b :: tl str) 0 size text = vsnprintf str 0 size text.
Proof.
  intros Hs Hne. unfold vsnprintf.
  replace (size =? 0) with false by (symmetry; apply Z.eqb_neq; lia).
  cbv zeta. pose proof (len_nonneg text).
  replace (Z.to_nat (0 + Z.min (len text) (size - 1) + 1))
    with (Datatypes.S (Z.to_nat (Z.min (len text) (size - 1)))) by lia.
  destruct str as [|x str']; [congruence|]. reflexivity.
Qed.

Lemma tracks_cleared sb text : tracks sb text -> tracks (cleared sb) [].
Proof.
  intros (Hcap & Hmax & Hlen & _ & _ & junk & Hstr).
  apply (tracks_intro _ _ (tl (str sb))); cbn [cleared str pos cap max];
    change (len (@nil byte)) with 0; try lia; try reflexivity.
  - destruct (str sb) as [|x s'] eqn:E; [cbn in Hlen; lia|].
    cbn [tl]. rewrite <- Hlen, !len_cons. reflexivity.
  - now destruct (Z.to_nat (Z.min 0 (cap sb - 1))).
Qed.

(** The first [strbuf_printf] after [sb.pos = 0] does not see the old
    text. *)
Lemma strbuf_printf_rewind sb text chunk :
  tracks sb text ->
  strbuf_printf (rewind sb) chunk = strbuf_printf (cleared sb) chunk.
Proof.
  intros (Hcap & Hmax & Hlen & _ & _ & junk & Hstr).
  destruct (Z.eq_dec (cap sb) 1) as [Hone | Hmore].
  - replace (cleared sb) with (rewind sb); [reflexivity|].
    unfold rewind, cleared. f_equal. rewrite Hstr, Hone.
    pose proof (len_nonneg text).
    replace (Z.to_nat (Z.min (len text) (1 - 1))) with 0%nat by lia.
    reflexivity.
  - assert (Hvp : strbuf_vprintf_no_grow (rewind sb) chunk
                  = strbuf_vprintf_no_grow (cleared sb) chunk).
    { unfold strbuf_vprintf_no_grow, rewind, cleared. cbn [str pos cap max].
      unfold SIZE_MAX in Hmax.
      rewrite !u64_small by lia.
      replace ((cap sb - 1 <=? 0) || (cap sb =? 0)) with false
        by (symmetry; apply orb_false_iff; split;
            [apply Z.leb_gt | apply Z.eqb_neq]; lia).
      cbv zeta.
      rewrite (vsnprintf_first_byte (str sb) (u64 (cap sb - 0)) chunk Byte.x00)
        by (first [ rewrite u64_small by lia; lia
                  | intros E; rewrite E in Hlen; cbn in Hlen; lia ]).
      reflexivity. }
    unfold strbuf_printf. rewrite Hvp. reflexivity.
Qed.

Lemma records_nonempty width data :
  0 < width -> width <= len data ->
  exists r rs, records width data = r :: rs.
Proof.
  intros Hw Hd. unfold records.
  assert (H : 1 <= len data / width) by (apply Z.div_le_lower_bound; lia).
  destruct (Z.to_nat (len data / width)) as [|n] eqn:E; [lia|].
  cbn [seq map]. eauto.
Qed.

Lemma multiple_ge size width :
  0 < width -> 0 < size -> size mod width = 0 -> width <= size.
Proof.
  intros Hw Hs Hm. destruct (Z.lt_ge_cases size width) as [Hlt | Hge]; [|exact Hge].
  rewrite Z.mod_small in Hm by lia. lia.
Qed.

Lemma main_table_sizes name data :
  (Main.compute_display_type name data = Main.DISP_PHYS_RANGES ->
   Main.sizeof_phys_range <= len data)
  /\ (Main.compute_display_type name data = Main.DISP_SEGMENT_RANGES ->
      Main.sizeof_segment_range <= len data).
Proof.
  unfold Main.compute_display_type, Main.late_rules, Main.is_segment_ranges.
  cbv zeta.
  repeat match goal with
         | |- context [if ?b then _ else _] => destruct b eqn:?
         end;
    split; intros E; try discriminate E;
    repeat match goal with
           | H : _ && _ = true |- _ => apply andb_prop in H as [? ?]
           end;
    repeat match goal with
           | H : (_ <? _) = true |- _ => apply Z.ltb_lt in H
           | H : (_ =? _) = true |- _ => apply Z.eqb_eq in H
           end;
    apply multiple_ge; unfold Main.sizeof_phys_range, Main.sizeof_segment_range in *;
    lia.
Qed.

Lemma part001_table_sizes name data :
  Part001.compute_display_type name data = Part001.DISP_PHYSADDR_LEN ->
  16 <= len data.
Proof.
  unfold Part001.compute_display_type, Part001.late_rules. cbv zeta.
  repeat match goal with
         | |- context [if ?b then _ else _] => destruct b eqn:?
         end;
    intros E; try discriminate E;
    repeat match goal with
           | H : _ && _ = true |- _ => apply andb_prop in H as [? ?]
           end;
    repeat match goal with
           | H : (_ <? _) = true |- _ => apply Z.ltb_lt in H
           | H : (_ =? _) = true |- _ => apply Z.eqb_eq in H
           end;
    apply multiple_ge; lia.
Qed.

Lemma print_loop_rewind {A} (chunk : A -> bool -> list byte) sb text items :
  tracks sb text -> items <> [] ->
  print_loop (fun sb x last => strbuf_printf sb (chunk x last)) (rewind sb) items
  = print_loop (fun sb x last => strbuf_printf sb (chunk x last)) (cleared sb) items.
Proof.
  intros Ht Hne. destruct items as [|x xs]; [congruence|].
  cbn [print_loop]. now rewrite (strbuf_printf_rewind sb text).
Qed.

(** Every formatter starts with a [strbuf_printf], when the value is not
    empty: on the sink of the driver it does what it does on a cleared
    one. *)
Lemma main_print_property_rewind sb text name value :
  tracks sb text -> 0 < len value ->
  Main.print_property (rewind sb) name value
  = Main.print_property (cleared sb) name value.
Proof.
  intros Ht Hv. unfold Main.print_property.
  pose proof (main_table_sizes name value) as [Hphys Hseg].
  destruct (Main.compute_display_type name value); cbn [Main.print_kind].
  - unfold print_property_hex_dump.
    apply (print_loop_rewind _ sb text); [exact Ht|].
    intros E. rewrite E in Hv. cbn in Hv. lia.
  - unfold print_property_hex_int. apply (strbuf_printf_rewind sb text _ Ht).
  - unfold print_property_dec_int. apply (strbuf_printf_rewind sb text _ Ht).
  - unfold Main.print_property_string, Main.print_property_hex_string.
    now rewrite (strbuf_printf_rewind sb text).
  - unfold Main.print_property_hex_string.
    now rewrite (strbuf_printf_rewind sb text).
  - unfold Main.print_property_function, Main.print_property_hex_string.
    now rewrite (strbuf_printf_rewind sb text).
  - unfold Main.print_property_phys_ranges.
    destruct (records_nonempty Main.sizeof_phys_range value eq_refl (Hphys eq_refl))
      as (r & rs & E).
    apply (print_loop_rewind _ sb text); [exact Ht | rewrite E; discriminate].
  - unfold Main.print_property_segment_ranges.
    destruct (records_nonempty Main.sizeof_segment_range value eq_refl (Hseg eq_refl))
      as (r & rs & E).
    apply (print_loop_rewind _ sb text); [exact Ht | rewrite E; discriminate].
Qed.

Lemma part001_print_property_rewind sb text name value :
  tracks sb text -> 0 < len value ->
  Part001.print_property (rewind sb) name value
  = Part001.print_property (cleared sb) name value.
Proof.
  intros Ht Hv. unfold Part001.print_property.
  pose proof (part001_table_sizes name value) as Hphys.
  destruct (Part001.compute_display_type name value); cbn [Part001.print_kind].
  - unfold print_property_hex_dump.
    apply (print_loop_rewind _ sb text); [exact Ht|].
    intros E. rewrite E in Hv. cbn in Hv. lia.
  - unfold print_property_hex_int. apply (strbuf_printf_rewind sb text _ Ht).
  - unfold print_property_dec_int. apply (strbuf_printf_rewind sb text _ Ht).
  - unfold Part001.print_property_string, Part001.print_property_hex_string.
    now rewrite (strbuf_printf_rewind sb text).
  - unfold Part001.print_property_hex_string.
    now rewrite (strbuf_printf_rewind sb text).
  - unfold Part001.print_property_function, Part001.print_property_hex_string.
    now rewrite (strbuf_printf_rewind sb text).
  - unfold Part001.print_property_physaddr_len.
    destruct (records_nonempty 16 value eq_refl (Hphys eq_refl)) as (r & rs & E).
    apply (print_loop_rewind _ sb text); [exact Ht | rewrite E; discriminate].
Qed.

(** The driver's use of the sink: whatever was formatted into it before,
    after [sb.pos = 0] a non-empty value is rendered in full when its text
    is shorter than the maximum, and cut to a prefix, with the flag false,
    when it is not. *)
Lemma main_print_property_reused sb text name value :
  tracks sb text -> 0 < len value ->
  let full := text_of_kind_main (Main.compute_display_type name value) value in
  len full < SIZE_MAX ->
  let r := Main.print_property (rewind sb) name value in
  fst r = (len full <? max sb)
  /\ (fst r = true -> contents (snd r) = full)
  /\ exists rest, full = contents (snd r) ++ rest.
Proof.
  intros Ht Hv full Hfull r. subst r.
  rewrite (main_print_property_rewind sb text name value Ht Hv).
  unfold Main.print_property.
  destruct (renders_empty
              (fun s => Main.print_kind (Main.compute_display_type name value) s value)
              full (cleared sb) (renders_kind_main _ _) (nul_free_text_main _ _)
              (tracks_cleared sb text Ht) Hfull) as (Hok & Hc & _).
  cbv beta in Hok, Hc. change (max (cleared sb)) with (max sb) in Hok, Hc.
  split; [exact Hok|]. rewrite Hok, Hc.
  destruct (len full <? max sb).
  - split; [reflexivity|]. exists []. now rewrite app_nil_r.
  - split; [discriminate|]. eexists. symmetry. apply firstn_skipn.
Qed.

Lemma part001_print_property_reused sb text name value :
  tracks sb text -> 0 < len value ->
  let full := text_of_kind_part001 (Part001.compute_display_type name value) value in
  len full < SIZE_MAX ->
  let r := Part001.print_property (rewind sb) name value in
  fst r = (len full <? max sb)
  /\ (fst r = true -> contents (snd r) = full)
  /\ exists rest, full = contents (snd r) ++ rest.
Proof.
  intros Ht Hv full Hfull r. subst r.
  rewrite (part001_print_property_rewind sb text name value Ht Hv).
  unfold Part001.print_property.
  destruct (renders_empty
              (fun s => Part001.print_kind (Part001.compute_display_type name value)
                          s value)
              full (cleared sb) (renders_kind_part001 _ _) (nul_free_text_part001 _ _)
              (tracks_cleared sb text Ht) Hfull) as (Hok & Hc & _).
  cbv beta in Hok, Hc. change (max (cleared sb)) with (max sb) in Hok, Hc.
  split; [exact Hok|]. rewrite Hok, Hc.
  destruct (len full <? max sb).
  - split; [reflexivity|]. exists []. now rewrite app_nil_r.
  - split; [discriminate|]. eexists. symmetry. apply firstn_skipn.
Qed.

(** ** The theorems at work on the example *)

Lemma quiet_none {S} : quiet (S := S) None None.
Proof. intros [ | ] st; reflexivity. Qed.

Lemma iterate_valid_tree_consumes_buffer_witness :
  valid_tree example_tree = true
  /\ observe (Some record_node) (Some record_property)
       (events32 (len (encode example_tree)) example_tree 0 0) []
     = (events32 (len (encode example_tree)) example_tree 0 0, false)
  /\ devicetree_iterate (encode example_tree)
       (Some record_node) (Some record_property) []
     = Some (true, len (encode example_tree),
             events32 (len (encode example_tree)) example_tree 0 0).
Proof.
  split; [vm_compute; reflexivity|]. split; [vm_compute; reflexivity|].
  apply (iterate_valid_tree_consumes_buffer (Some record_node) (Some record_property)
           example_tree []); vm_compute; reflexivity.
Defined.

(** The example buffer ends with a 5-byte payload and 3 bytes of padding:
    cut after the payload it is still walked to the end. *)
Example example_cut_at_payload_end :
  devicetree_iterate (firstn 213 example_buffer) None None tt
  = Some (true, 213, tt).
Proof. vm_compute. reflexivity. Qed.

Lemma iterate_truncated_fails_witness :
  valid_tree example_tree = true
  /\ quiet (S := unit) None None
  /\ 0 <= 100 < len (encode example_tree) - final_padding example_tree
  /\ exists d st',
       devicetree_iterate (firstn (Z.to_nat 100) (encode example_tree)) None None tt
       = Some (false, d, st').
Proof.
  assert (Hv : valid_tree example_tree = true) by (vm_compute; reflexivity).
  assert (Hk : 0 <= 100 < len (encode example_tree) - final_padding example_tree)
    by (vm_compute; split; [discriminate | reflexivity]).
  split; [exact Hv|]. split; [exact quiet_none|]. split; [exact Hk|].
  exact (iterate_truncated_fails None None example_tree 100 tt Hv quiet_none Hk).
Defined.

Lemma property_rejected_exactly_witness :
  0 <= 8
  /\ devicetree_iterate (firstn 60 example_buffer) None None tt = Some (false, 0, tt)
  /\ rejected_within (firstn 60 example_buffer) 2 8.
Proof.
  assert (H : 0 <= 8) by lia.
  assert (Hrun : iterate_properties (firstn 60 example_buffer) None 2 0 8 tt
                 = LReturn false false tt) by (vm_compute; reflexivity).
  split; [exact H|]. split; [vm_compute; reflexivity|].
  exact (proj1 (proj2 (proj2 (proj2 (property_rejected_exactly
                                       (firstn 60 example_buffer) 8 H))))
           unit None 2%nat 0 tt (ex_intro _ false (ex_intro _ tt Hrun))).
Defined.

Lemma stop_request_returns_true_witness :
  devicetree_iterate example_buffer
    (Some (logged_node None (Some stop_at_once)))
    (Some (logged_property None (Some stop_at_once))) (tt, [])
  = Some (true, 0, (tt, example_log))
  /\ example_log
     = firstn 1 example_log
       ++ (fst (nth 1 example_log (NodeEntered 0 0 0 0 0, false)), true) :: []
  /\ (true = true /\ @nil (event * bool) = []
      /\ 0 = current_node (map fst example_log) 0
      /\ devicetree_iterate example_buffer None (Some stop_at_once) tt
         = Some (true, 0, tt)).
Proof.
  assert (H1 : devicetree_iterate example_buffer
                 (Some (logged_node None (Some stop_at_once)))
                 (Some (logged_property None (Some stop_at_once))) (tt, [])
               = Some (true, 0, (tt, example_log))) by (vm_compute; reflexivity).
  assert (H2 : example_log
               = firstn 1 example_log
                 ++ (fst (nth 1 example_log (NodeEntered 0 0 0 0 0, false)), true) :: [])
    by (vm_compute; reflexivity).
  split; [exact H1|]. split; [exact H2|].
  exact (stop_request_returns_true example_buffer None (Some stop_at_once)
           tt tt true 0 example_log _ _ _ H1 H2).
Defined.

Lemma scan_properties_direct_only_witness :
  valid_tree (Node example_root_properties example_children) = true
  /\ devicetree_node_scan_properties
       (encode (Node example_root_properties example_children) ++ [Byte.xff])
       (Some record_property) []
     = Some (true, map (property_event 1) example_root_properties).
Proof.
  assert (Hv : valid_tree (Node example_root_properties example_children) = true)
    by (vm_compute; reflexivity).
  split; [exact Hv|].
  exact (scan_properties_direct_only (Some record_property) example_root_properties
           example_children [Byte.xff] [] Hv).
Defined.

Lemma address_range_rule_witness :
  0 < len example_reg /\ len example_reg mod 16 = 0
  /\ is_dec_int (lit "reg") = false
  /\ is_string (measure_string example_reg) (len example_reg) = false
  /\ is_function_prop (lit "reg") example_reg (len example_reg) = false
  /\ is_hex_string_75 (measure_string example_reg) (len example_reg) = false
  /\ Main.is_segment_ranges (lit "reg") (len example_reg) = false
  /\ contains (lit "reg") (lit "reg")
  /\ Main.compute_display_type (lit "reg") example_reg = Main.DISP_PHYS_RANGES.
Proof.
  assert (H1 : 0 < len example_reg) by reflexivity.
  assert (H2 : len example_reg mod 16 = 0) by reflexivity.
  assert (H3 : is_dec_int (lit "reg") = false) by reflexivity.
  assert (H4 : is_string (measure_string example_reg) (len example_reg) = false)
    by (vm_compute; reflexivity).
  assert (H5 : is_function_prop (lit "reg") example_reg (len example_reg) = false)
    by (vm_compute; reflexivity).
  assert (H6 : is_hex_string_75 (measure_string example_reg) (len example_reg) = false)
    by (vm_compute; reflexivity).
  assert (H7 : Main.is_segment_ranges (lit "reg") (len example_reg) = false)
    by (vm_compute; reflexivity).
  assert (H8 : contains (lit "reg") (lit "reg")) by (exists [], []; reflexivity).
  repeat (split; [assumption|]).
  exact (proj1 (proj1 (address_range_rule (lit "reg") example_reg H1 H2 H3 H4 H5 H6) H7)
           H8).
Defined.

Lemma truncated_rendering_is_prefix_witness :
  1 <= 20
  /\ 20 <= len (text_of_kind_main Main.DISP_PHYS_RANGES example_reg) < SIZE_MAX
  /\ fst (Main.print_kind Main.DISP_PHYS_RANGES (strbuf_alloc 20) example_reg) = false
  /\ exists rest,
       contents (snd (Main.print_kind Main.DISP_PHYS_RANGES unbounded example_reg))
       = contents (snd (Main.print_kind Main.DISP_PHYS_RANGES (strbuf_alloc 20)
                          example_reg)) ++ rest.
Proof.
  assert (H1 : 1 <= 20) by lia.
  assert (H2 : 20 <= len (text_of_kind_main Main.DISP_PHYS_RANGES example_reg) < SIZE_MAX)
    by (vm_compute; split; [discriminate | reflexivity]).
  split; [exact H1|]. split; [exact H2|].
  pose proof (proj1 (truncated_rendering_is_prefix example_reg 20 H1)
                Main.DISP_PHYS_RANGES H2) as H.
  cbv zeta in H. destruct H as (_ & _ & Hr & Hp & _).
  split; [exact Hr | exact Hp].
Defined.

Lemma property_depth_is_node_depth_plus_one_witness :
  valid_tree example_tree = true
  /\ Z.of_nat (height example_tree) < 2 ^ 32
  /\ devicetree_iterate (encode example_tree)
       (Some record_node) (Some record_property) []
     = Some (true, len (encode example_tree),
             events (len (encode example_tree)) example_tree 0 0).
Proof.
  assert (Hv : valid_tree example_tree = true) by (vm_compute; reflexivity).
  assert (Hh : Z.of_nat (height example_tree) < 2 ^ 32) by (vm_compute; reflexivity).
  split; [exact Hv|]. split; [exact Hh|].
  exact (property_depth_is_node_depth_plus_one example_tree Hv Hh).
Defined.

(** The sink after a string has been formatted into it is used again for
    a two-byte integer: the old text does not show. *)
Example example_reused_sink :
  let sb := snd (Main.print_property (strbuf_alloc 64) (lit "name")
                   (lit "hello" ++ [Byte.x00])) in
  let r := Main.print_property (rewind sb) (lit "n") [Byte.x2a; Byte.x00] in
  fst r = true /\ contents (snd r) = lit "0x2a".
Proof. vm_compute. split; reflexivity. Qed.

(** * More of the walker *)

(** The scan of a node whose header and properties are in the buffer:
    after the properties, only the 8 bytes of the header of the first
    child are looked at. *)
Lemma scan_header_and_properties {S}
    (property_cb : option (property_callback S))
    (ps : list property) (nc : Z) (rest : list byte) (st : S) :
  forallb valid_property ps = true ->
  len ps < 2 ^ 32 -> 0 <= nc < 2 ^ 32 ->
  devicetree_node_scan_properties
    (le_split 4 (len ps) ++ le_split 4 nc ++ flat_map encode_property ps ++ rest)
    property_cb st
  = let '(st', stop) := observe None property_cb (map (property_event 1) ps) st in
    Some (stop || (nc =? 0) || (sizeof_node <=? len rest), st').
Proof.
  intros Hvps Hps Hnc.
  set (props := flat_map encode_property ps).
  set (buf := le_split 4 (len ps) ++ le_split 4 nc ++ props ++ rest).
  pose proof (len_nonneg ps) as Hps0. pose proof (len_nonneg props) as Hprops0.
  pose proof (len_nonneg rest) as Hrest0.
  assert (Hlenbuf : len buf = sizeof_node + len props + len rest).
  { unfold buf. rewrite !len_app, !len_le_split. unfold sizeof_node. lia. }
  assert (Hh1 : holds buf 0 (le_split 4 (len ps))) by apply holds_prefix.
  assert (Hh2 : holds buf 4 (le_split 4 nc)).
  { pose proof (holds_middle (le_split 4 (len ps)) (le_split 4 nc) (props ++ rest)) as H.
    rewrite len_le_split in H. exact H. }
  assert (Hh3 : holds buf (0 + sizeof_node) props).
  { pose proof (holds_middle (le_split 4 (len ps) ++ le_split 4 nc) props rest) as H.
    rewrite len_app, !len_le_split, <- app_assoc in H. exact H. }
  apply load32_holds in Hh1, Hh2.
  rewrite Z.mod_small in Hh1 by lia. rewrite Z.mod_small in Hh2 by lia.
  unfold devicetree_node_scan_properties, devicetree_iterate.
  cbn [devicetree_iterate_node]. unfold data_end.
  replace (len buf <? 0 + sizeof_node) with false
    by (symmetry; apply Z.ltb_ge; unfold sizeof_node in *; lia).
  change (0 + 4) with 4. rewrite Hh1, Hh2.
  cbn [do_not_scan_children Z.eqb negb]. rewrite to_nat_len.
  rewrite (iterate_properties_valid None property_cb) by assumption.
  change (u32 (0 + 1)) with 1.
  destruct (observe None property_cb (map (property_event 1) ps) st) as [st1 [|]];
    [reflexivity|].
  cbn [orb]. fold props.
  destruct (Z.eqb_spec nc 0) as [-> | Hne]; [reflexivity|].
  cbn [orb].
  destruct (Z.to_nat nc) as [|n] eqn:En; [lia|].
  cbn [iterate_children].
  destruct (length buf) as [|m] eqn:El.
  { unfold len in Hlenbuf. rewrite El in Hlenbuf. unfold sizeof_node in *. lia. }
  destruct (Z.leb_spec sizeof_node (len rest)) as [Hfit | Hshort].
  - (* the header of the first child is there: its observer asks to stop *)
    cbn [devicetree_iterate_node]. unfold data_end.
    replace (len buf <? 0 + sizeof_node + len props + sizeof_node) with false
      by (symmetry; apply Z.ltb_ge; lia).
    destruct (load32 buf (0 + sizeof_node + len props)) as [a|] eqn:Ea.
    2: { unfold load32, slice in Ea.
         replace ((0 <=? 0 + sizeof_node + len props) && (0 <=? 4)
                  && (0 + sizeof_node + len props + 4 <=? len buf)) with true in Ea
           by (symmetry; rewrite !andb_true_iff, !Z.leb_le;
               unfold sizeof_node in *; lia).
         discriminate Ea. }
    destruct (load32 buf (0 + sizeof_node + len props + 4)) as [b|] eqn:Eb.
    2: { unfold load32, slice in Eb.
         replace ((0 <=? 0 + sizeof_node + len props + 4) && (0 <=? 4)
                  && (0 + sizeof_node + len props + 4 + 4 <=? len buf)) with true in Eb
           by (symmetry; rewrite !andb_true_iff, !Z.leb_le;
               unfold sizeof_node in *; lia).
         discriminate Eb. }
    reflexivity.
  - (* it is not: the walk of the child fails, and so does the scan *)
    rewrite iterate_node_short by lia. reflexivity.
Qed.

(** X1.  Whatever the bytes of the buffer and whatever the observers do,
    [devicetree_iterate] and [devicetree_node_scan_properties] return: no
    header field is read and no view is handed to an observer outside the
    buffer, and the cursor that is left lies inside the buffer. *)
Theorem walker_stays_inside_buffer {S} (buf : list byte)
    (node_cb : option (node_callback S))
    (property_cb : option (property_callback S)) (st : S) :
  (exists ok d st',
      devicetree_iterate buf node_cb property_cb st = Some (ok, d, st')
      /\ 0 <= d <= len buf)
  /\ (exists ok st',
         devicetree_node_scan_properties buf property_cb st = Some (ok, st')).
Proof.
  split.
  - destruct (devicetree_iterate_total buf node_cb property_cb st)
      as (ok & d & stop & st' & _ & H & Hd).
    exists ok, d, st'. split; assumption.
  - unfold devicetree_node_scan_properties.
    destruct (devicetree_iterate_total buf (Some do_not_scan_children) property_cb st)
      as (ok & d & stop & st' & _ & H & _).
    rewrite H. eauto.
Qed.

(** X2.  The bytes a truncation may drop: cut inside the padding that
    ends the encoding of a valid tree, the buffer is rejected; cut exactly
    where the last payload ends, it is accepted, and the cursor is the end
    of the cut buffer. *)
Theorem truncation_inside_final_padding {S}
    (node_cb : option (node_callback S))
    (property_cb : option (property_callback S)) (t : tree) (k : Z) (st : S) :
  valid_tree t = true ->
  quiet node_cb property_cb ->
  len (encode t) - final_padding t <= k < len (encode t) ->
  exists d st',
    devicetree_iterate (firstn (Z.to_nat k) (encode t)) node_cb property_cb st
    = Some (k =? len (encode t) - final_padding t, d, st')
    /\ (k = len (encode t) - final_padding t -> d = k).
Proof.
  intros Hv Hq Hk. pose proof (final_padding_bound t Hv) as Hb.
  unfold sizeof_node in Hb.
  rewrite (devicetree_iterate_fuel _ _ _ (height t)).
  assert (Hk0 : 0 <= k < 0 + len (encode t)) by lia.
  assert (Hf : (height t <= Nat.max (height t)
                  (Datatypes.S (length (firstn (Z.to_nat k) (encode t)))))%nat) by lia.
  pose proof (iterate_node_cut node_cb property_cb Hq t (encode t) k _ 0 0 st
                Hv (holds_whole _) Hk0 Hf) as H.
  cbv zeta in H. destruct H as [(Hne & d & st' & H) | (He & st' & H)]; rewrite H.
  - exists d, st'. split; [|intros E; lia].
    replace (k =? len (encode t) - final_padding t) with false
      by (symmetry; apply Z.eqb_neq; lia).
    reflexivity.
  - exists k, st'. split; [|reflexivity].
    replace (k =? len (encode t) - final_padding t) with true
      by (symmetry; apply Z.eqb_eq; lia).
    reflexivity.
Qed.

Lemma truncation_inside_final_padding_witness :
  valid_tree example_tree = true
  /\ quiet (S := unit) None None
  /\ len (encode example_tree) - final_padding example_tree <= 214
     < len (encode example_tree)
  /\ exists d st',
       devicetree_iterate (firstn (Z.to_nat 214) (encode example_tree)) None None tt
       = Some (214 =? len (encode example_tree) - final_padding example_tree, d, st')
       /\ (214 = len (encode example_tree) - final_padding example_tree -> d = 214).
Proof.
  assert (Hv : valid_tree example_tree = true) by (vm_compute; reflexivity).
  assert (Hk : len (encode example_tree) - final_padding example_tree <= 214
               < len (encode example_tree))
    by (vm_compute; split; [discriminate | reflexivity]).
  split; [exact Hv|]. split; [exact quiet_none|]. split; [exact Hk|].
  exact (truncation_inside_final_padding None None example_tree 214 tt Hv quiet_none Hk).
Defined.

(** X3.  [devicetree_node_scan_properties] needs the header of the node,
    its properties, and the 8 bytes of the header of its first child, no
    more.  With the properties in the buffer it returns true when the
    observer asks to stop, when the node has no child, or when 8 bytes
    follow the properties; it returns false, after every property has been
    handed over, when the node has children and fewer than 8 bytes follow.
    What the bytes after the properties are does not matter. *)
Theorem scan_properties_needs_one_child_header {S}
    (property_cb : option (property_callback S))
    (ps : list property) (nc : Z) (rest : list byte) (st : S) :
  forallb valid_property ps = true ->
  len ps < 2 ^ 32 -> 0 <= nc < 2 ^ 32 ->
  devicetree_node_scan_properties
    (le_split 4 (len ps) ++ le_split 4 nc ++ flat_map encode_property ps ++ rest)
    property_cb st
  = let '(st', stop) := observe None property_cb (map (property_event 1) ps) st in
    Some (stop || (nc =? 0) || (sizeof_node <=? len rest), st').
Proof. apply scan_header_and_properties. Qed.

Lemma scan_properties_needs_one_child_header_witness :
  forallb valid_property example_root_properties = true
  /\ len example_root_properties < 2 ^ 32 /\ 0 <= 2 < 2 ^ 32
  /\ devicetree_node_scan_properties
       (le_split 4 (len example_root_properties) ++ le_split 4 2
        ++ flat_map encode_property example_root_properties ++ [Byte.x01; Byte.x02])
       (Some record_property) []
     = Some (false, map (property_event 1) example_root_properties).
Proof.
  assert (H1 : forallb valid_property example_root_properties = true)
    by (vm_compute; reflexivity).
  assert (H2 : len example_root_properties < 2 ^ 32) by (vm_compute; reflexivity).
  assert (H3 : 0 <= 2 < 2 ^ 32) by lia.
  split; [exact H1|]. split; [exact H2|]. split; [exact H3|].
  exact (scan_properties_needs_one_child_header (Some record_property)
           example_root_properties 2 [Byte.x01; Byte.x02] [] H1 H2 H3).
Defined.

(** X4.  Bytes after the tree are not the walker's business: on the
    encoding of a valid tree followed by anything, with observers that do
    not ask to stop, [devicetree_iterate] returns true and leaves the
    cursor at the end of the tree, not of the buffer.  The observers see
    the events of the tree, the node sizes counted to the end of the
    buffer. *)
Theorem iterate_leaves_trailing_bytes {S}
    (node_cb : option (node_callback S))
    (property_cb : option (property_callback S))
    (t : tree) (rest : list byte) (st st' : S) :
  valid_tree t = true ->
  observe node_cb property_cb (events32 (len (encode t ++ rest)) t 0 0) st
  = (st', false) ->
  devicetree_iterate (encode t ++ rest) node_cb property_cb st
  = Some (true, len (encode t), st').
Proof.
  intros Hv Hobs. rewrite (devicetree_iterate_fuel _ _ _ (height t)).
  destruct (iterate_node_valid node_cb property_cb t (encode t ++ rest)
              (Nat.max (height t) (Datatypes.S (length (encode t ++ rest)))) 0 0 st
              Hv (holds_prefix _ _) ltac:(lia)) as [d Hd].
  rewrite Hd, Hobs. reflexivity.
Qed.

Lemma iterate_leaves_trailing_bytes_witness :
  valid_tree example_tree = true
  /\ observe (Some record_node) (Some record_property)
       (events32 (len (encode example_tree ++ [Byte.xff])) example_tree 0 0) []
     = (events32 (len (encode example_tree ++ [Byte.xff])) example_tree 0 0, false)
  /\ devicetree_iterate (encode example_tree ++ [Byte.xff])
       (Some record_node) (Some record_property) []
     = Some (true, len (encode example_tree),
             events32 (len (encode example_tree ++ [Byte.xff])) example_tree 0 0).
Proof.
  assert (Hv : valid_tree example_tree = true) by (vm_compute; reflexivity).
  assert (Ho : observe (Some record_node) (Some record_property)
                 (events32 (len (encode example_tree ++ [Byte.xff])) example_tree 0 0) []
               = (events32 (len (encode example_tree ++ [Byte.xff])) example_tree 0 0,
                  false)) by (vm_compute; reflexivity).
  split; [exact Hv|]. split; [exact Ho|].
  exact (iterate_leaves_trailing_bytes (Some record_node) (Some record_property)
           example_tree [Byte.xff] [] _ Hv Ho).
Defined.

(** * More of the classifier *)

Lemma cstring_app a b :
  cstring (a ++ b) = if existsb is_nul a then cstring a else a ++ cstring b.
Proof.
  induction a as [|x a IH]; [reflexivity|].
  cbn [app cstring existsb]. destruct (is_nul x); [reflexivity|].
  cbn [orb]. rewrite IH. now destruct (existsb is_nul a).
Qed.

Lemma cstring_no_nul a : existsb is_nul a = false -> cstring a = a.
Proof.
  intros H. pose proof (cstring_app a []) as E. rewrite H, !app_nil_r in E.
  exact E.
Qed.

Lemma strnlen_le a : 0 <= strnlen a <= len a.
Proof.
  unfold strnlen. split; [apply len_nonneg|].
  induction a as [|x a IH]; [cbn; lia|].
  cbn [cstring]. pose proof (len_nonneg a).
  destruct (is_nul x); rewrite ?len_cons; change (len (@nil byte)) with 0; lia.
Qed.

Lemma strnlen_lt a : existsb is_nul a = true -> strnlen a < len a.
Proof.
  unfold strnlen. induction a as [|x a IH]; [discriminate|].
  cbn [cstring existsb]. destruct (is_nul x); cbn [orb]; intros H.
  - rewrite len_cons. change (len (@nil byte)) with 0. pose proof (len_nonneg a). lia.
  - rewrite !len_cons. specialize (IH H). lia.
Qed.

Lemma len_filter_snoc {A} (f : A -> bool) (l : list A) (x : A) :
  len (filter f (l ++ [x])) = len (filter f l) + (if f x then 1 else 0).
Proof.
  rewrite filter_app, len_app. cbn [filter]. destruct (f x); cbn; lia.
Qed.

Lemma skipn_app_le {A} (l r : list A) k :
  0 <= k <= len l ->
  skipn (Z.to_nat k) (l ++ r) = skipn (Z.to_nat k) l ++ r.
Proof.
  intros H. rewrite skipn_app.
  replace (Z.to_nat k - length l)%nat with 0%nat by (unfold len in H; lia).
  reflexivity.
Qed.

(** The loop of [measure_string], [pre] being the bytes it has passed. *)
Lemma measure_string_loop_counts size bytes : forall pre info run,
  len pre + len bytes = size ->
  printable info = len (filter isprint pre) ->
  null_count info = len (filter is_nul pre) ->
  first_null info = (if existsb is_nul pre then strnlen pre else size) ->
  after_null info
  = len (filter (fun c => negb (is_nul c)) (skipn (Z.to_nat (strnlen pre)) pre)) ->
  0 <= run -> 0 <= printable_run_count info ->
  printable_run_count info + run <= printable info ->
  let r := measure_string_loop size (len pre) bytes (info, run) in
  printable (fst r) = len (filter isprint (pre ++ bytes))
  /\ null_count (fst r) = len (filter is_nul (pre ++ bytes))
  /\ first_null (fst r)
     = (if existsb is_nul (pre ++ bytes) then strnlen (pre ++ bytes) else size)
  /\ after_null (fst r)
     = len (filter (fun c => negb (is_nul c))
              (skipn (Z.to_nat (strnlen (pre ++ bytes))) (pre ++ bytes)))
  /\ 0 <= snd r /\ 0 <= printable_run_count (fst r)
  /\ printable_run_count (fst r) + snd r <= printable (fst r).
Proof.
  induction bytes as [|c bytes IH]; intros pre info run Hsz Hp Hn Hf Ha Hr H0 Hrc r.
  { subst r. cbn [measure_string_loop fst snd]. rewrite app_nil_r. auto 10. }
  subst r. cbn [measure_string_loop].
  rewrite len_cons in Hsz.
  pose proof (len_nonneg bytes) as Hb. pose proof (strnlen_le pre) as Hsl.
  replace (len pre + 1) with (len (pre ++ [c])) by (rewrite len_app; reflexivity).
  replace (pre ++ c :: bytes) with ((pre ++ [c]) ++ bytes)
    by (rewrite <- app_assoc; reflexivity).
  destruct (measure_string_step size (len pre) c (info, run)) as [info1 run1] eqn:Estep.
  unfold measure_string_step in Estep.
  assert (Htest : (first_null info =? size) = negb (existsb is_nul pre)).
  { rewrite Hf. destruct (existsb is_nul pre) eqn:E.
    - pose proof (strnlen_lt pre E). cbn [negb]. apply Z.eqb_neq. lia.
    - cbn [negb]. apply Z.eqb_refl. }
  rewrite Htest in Estep.
  assert (Hsn : strnlen (pre ++ [c])
                = if existsb is_nul pre then strnlen pre
                  else if is_nul c then len pre else len pre + 1).
  { unfold strnlen. rewrite cstring_app. destruct (existsb is_nul pre) eqn:E;
      [reflexivity|]. rewrite len_app. cbn [cstring].
    destruct (is_nul c); cbn; lia. }
  apply IH; clear IH.
  - rewrite len_app. change (len [c]) with 1. lia.
  - rewrite len_filter_snoc.
    destruct (isprint c); inversion Estep; subst; cbn [printable]; lia.
  - rewrite len_filter_snoc.
    destruct (isprint c), (is_nul c); inversion Estep; subst; cbn [null_count]; lia.
  - rewrite existsb_app. cbn [existsb]. rewrite orb_false_r, Hsn.
    destruct (isprint c), (is_nul c), (existsb is_nul pre);
      inversion Estep; subst; cbn [first_null andb negb orb]; try exact Hf;
      reflexivity.
  - rewrite Hsn. destruct (existsb is_nul pre) eqn:E.
    + rewrite skipn_app_le by lia. rewrite len_filter_snoc.
      destruct (isprint c), (is_nul c); inversion Estep; subst;
        cbn [after_null andb negb]; lia.
    + assert (Ha0 : after_null info = 0).
      { rewrite Ha. unfold strnlen. rewrite (cstring_no_nul pre E).
        rewrite skipn_past by lia. reflexivity. }
      destruct (is_nul c) eqn:Ec.
      * rewrite skipn_app_le by (pose proof (len_nonneg pre); lia).
        rewrite skipn_past by lia. cbn [app filter]. rewrite Ec. cbn [negb].
        destruct (isprint c); inversion Estep; subst; cbn [after_null]; exact Ha0.
      * rewrite skipn_past by (rewrite len_app; change (len [c]) with 1; lia).
        destruct (isprint c); inversion Estep; subst; cbn [after_null]; exact Ha0.
  - destruct (isprint c); inversion Estep; subst; lia.
  - destruct (isprint c); inversion Estep; subst; cbn [printable_run_count];
      [lia|]. destruct (8 <=? run); lia.
  - destruct (isprint c); inversion Estep; subst;
      cbn [printable_run_count printable]; [lia|].
    destruct (8 <=? run); lia.
Qed.

Lemma measure_string_fields data :
  let m := measure_string data in
  printable m = len (filter isprint data)
  /\ null_count m = len (filter is_nul data)
  /\ first_null m = strnlen data
  /\ after_null m
     = len (filter (fun c => negb (is_nul c))
              (skipn (Z.to_nat (strnlen data)) data))
  /\ 0 <= printable_run_count m <= printable m.
Proof.
  intros m. subst m. unfold measure_string. cbv zeta.
  pose proof (measure_string_loop_counts (len data) data []
                {| printable := 0; first_null := len data; after_null := 0;
                   null_count := 0; printable_run_count := 0 |} 0) as H.
  cbn [app printable null_count first_null after_null printable_run_count
       filter existsb] in H.
  change (len (@nil byte)) with 0 in H.
  specialize (H ltac:(lia) eq_refl eq_refl eq_refl).
  change (strnlen []) with 0 in H. cbn [Z.to_nat skipn filter] in H.
  change (len (@nil byte)) with 0 in H.
  specialize (H eq_refl ltac:(lia) ltac:(lia) ltac:(lia)). cbv zeta in H.
  destruct (measure_string_loop (len data) 0 data _) as [info run].
  cbn [fst snd] in H. destruct H as (Hp & Hn & Hf & Ha & Hr & H0 & Hrc).
  assert (Hfirst : first_null info = strnlen data).
  { rewrite Hf. destruct (existsb is_nul data) eqn:E; [reflexivity|].
    unfold strnlen. now rewrite cstring_no_nul. }
  destruct (8 <=? run); cbn [printable null_count first_null after_null
                             printable_run_count];
    repeat split; try assumption; lia.
Qed.

(** X5.  What [measure_string] measures: the number of printable bytes,
    the number of NUL bytes, the index of the first NUL (the size when
    there is none), and the number of bytes after the first NUL that are
    not NUL, printable or not; the bytes counted in long printable runs are
    among the printable ones. *)
Theorem measure_string_counts (data : list byte) :
  let m := measure_string data in
  printable m = len (filter isprint data)
  /\ null_count m = len (filter is_nul data)
  /\ first_null m = strnlen data
  /\ after_null m
     = len (filter (fun c => negb (is_nul c))
              (skipn (Z.to_nat (strnlen data)) data))
  /\ 0 <= printable_run_count m <= printable m.
Proof. apply measure_string_fields. Qed.

Lemma is_nul_x00 c : is_nul c = true -> c = Byte.x00.
Proof. destruct c; try discriminate; reflexivity. Qed.

Lemma all_nul_repeat l :
  filter (fun c => negb (is_nul c)) l = [] -> l = repeat Byte.x00 (length l).
Proof.
  induction l as [|x l IH]; [reflexivity|].
  cbn [filter length repeat]. destruct (is_nul x) eqn:E; cbn [negb];
    [|discriminate].
  intros H. rewrite (is_nul_x00 x E). f_equal. exact (IH H).
Qed.

Lemma filter_repeat_nul (f : byte -> bool) k :
  f Byte.x00 = false -> filter f (repeat Byte.x00 k) = [].
Proof. intros H. induction k as [|k IH]; [reflexivity|]. cbn [repeat filter]. now rewrite H. Qed.

Lemma filter_all {A} (f : A -> bool) l :
  len (filter f l) = len l -> forallb f l = true.
Proof.
  induction l as [|x l IH]; [reflexivity|].
  cbn [filter forallb]. pose proof (filter_length_le f l) as Hle.
  destruct (f x); rewrite ?len_cons; unfold len in *; intros H; [apply IH|]; lia.
Qed.

Lemma filter_forallb {A} (f : A -> bool) l : forallb f l = true -> filter f l = l.
Proof.
  induction l as [|x l IH]; [reflexivity|].
  cbn [filter forallb]. intros H. apply andb_prop in H as [-> H]. now rewrite IH.
Qed.

Lemma printable_no_nul s : forallb isprint s = true -> existsb is_nul s = false.
Proof.
  induction s as [|x s IH]; [reflexivity|].
  cbn [forallb existsb]. intros H. apply andb_prop in H as [Hx Hs].
  now rewrite (isprint_not_nul x Hx), IH.
Qed.

Lemma cstring_repeat_nul k : cstring (repeat Byte.x00 k) = [].
Proof. destruct k; reflexivity. Qed.

(** The rule of the string display on the measures of the value. *)
Lemma is_string_terminated_text data :
  is_string (measure_string data) (len data) = true <-> terminated_text data.
Proof.
  pose proof (measure_string_fields data) as H. cbv zeta in H.
  destruct H as (Hp & _ & Hf & Ha & _).
  unfold is_string. rewrite Hp, Hf, Ha. clear Hp Hf Ha.
  pose proof (cstring_prefix data) as Hpre.
  pose proof (firstn_skipn (Z.to_nat (strnlen data)) data) as Hsplit.
  rewrite Hpre in Hsplit.
  set (tail := skipn (Z.to_nat (strnlen data)) data) in *.
  pose proof (len_nonneg data) as Hd0.
  split.
  - rewrite !andb_true_iff, Z.eqb_eq, Z.eqb_eq. intros [[Hprint Hafter] Hsize].
    assert (Htail : tail = repeat Byte.x00 (length tail)).
    { apply all_nul_repeat. apply len_zero_nil. exact Hafter. }
    assert (Hs : forallb isprint (cstring data) = true).
    { apply filter_all. rewrite <- Hsplit in Hprint at 1.
      rewrite filter_app, len_app, Htail, filter_repeat_nul in Hprint by reflexivity.
      change (len (@nil byte)) with 0 in Hprint. unfold strnlen in Hprint. lia. }
    exists (cstring data), (length tail). split; [now rewrite <- Htail|].
    split; [exact Hs|].
    apply orb_true_iff in Hsize as [Hne | Hge].
    + left. rewrite andb_true_iff, !negb_true_iff, !Z.eqb_neq in Hne. exact Hne.
    + assert (Hlen : len data = strnlen data + len tail).
      { rewrite <- Hsplit at 1. rewrite len_app. reflexivity. }
      apply Z.leb_le in Hge. rewrite Hprint in Hge.
      pose proof (strnlen_le data) as Hsl.
      destruct (Z.eq_dec (len data) 4) as [E4 | N4];
        [|destruct (Z.eq_dec (len data) 8) as [E8 | N8]; [|left; split; assumption]];
        right; rewrite u64_small in Hge by lia; unfold len in *; lia.
  - intros (s & k & Hdata & Hs & Hsize).
    pose proof (printable_no_nul s Hs) as Hnn.
    assert (Hc : cstring data = s).
    { rewrite Hdata, cstring_app, Hnn, cstring_repeat_nul. apply app_nil_r. }
    assert (Ht : tail = repeat Byte.x00 k).
    { subst tail. unfold strnlen. rewrite Hc. rewrite Hdata at 1.
      apply skipn_len_app. }
    assert (Hfp : filter isprint data = s).
    { rewrite Hdata, filter_app, filter_repeat_nul by reflexivity.
      rewrite app_nil_r. now apply filter_forallb. }
    rewrite Hfp, Ht, filter_repeat_nul by reflexivity.
    unfold strnlen. rewrite Hc. change (len (@nil byte)) with 0.
    rewrite !Z.eqb_refl. cbn [andb].
    destruct Hsize as [[N4 N8] | Hk].
    + apply orb_true_iff. left.
      rewrite andb_true_iff, !negb_true_iff, !Z.eqb_neq. split; assumption.
    + apply orb_true_iff.
      assert (Hlen : len data = len s + Z.of_nat k).
      { rewrite Hdata, len_app, len_repeat. reflexivity. }
      pose proof (len_nonneg s).
      destruct (Z.eq_dec (len data) 0) as [E0 | N0].
      * left. rewrite E0. reflexivity.
      * right. apply Z.leb_le.
        pose proof (Z.mod_le (len data - 1) (2 ^ 64) ltac:(lia) ltac:(lia)) as Hm.
        unfold u64. lia.
Qed.

(** X6.  When the size is not 1 or 2 and the name does not start with
    [#] (and, in the header's variant, the value is not a segment-ranges
    table), a value is displayed as a string exactly when it is printable
    bytes followed by NUL bytes only, with one NUL at most when its size is
    4 or 8.  So the empty value and a value of NUL bytes only count as
    strings. *)
Theorem string_display_exactly (name data : list byte) :
  is_hex_int_12 (len data) = false ->
  is_dec_int name = false ->
  (Part001.compute_display_type name data = Part001.DISP_STRING
   <-> terminated_text data)
  /\ (Main.is_segment_ranges name (len data) = false ->
      (Main.compute_display_type name data = Main.DISP_STRING
       <-> terminated_text data)).
Proof.
  intros H12 Hdec. rewrite <- is_string_terminated_text.
  unfold Part001.compute_display_type, Main.compute_display_type,
    Part001.late_rules, Main.late_rules.
  cbv zeta. rewrite H12, Hdec.
  split; [|intros Hseg; rewrite Hseg];
    destruct (is_string (measure_string data) (len data));
    (split; [intros E | intros E; try reflexivity; try discriminate E]);
    try reflexivity;
    repeat match type of E with
           | context [if ?b then _ else _] => destruct b
           end; discriminate E.
Qed.

Lemma string_display_exactly_witness :
  is_hex_int_12 (len (lit "J42d" ++ [Byte.x00])) = false
  /\ is_dec_int (lit "model") = false
  /\ (Part001.compute_display_type (lit "model") (lit "J42d" ++ [Byte.x00])
      = Part001.DISP_STRING
      <-> terminated_text (lit "J42d" ++ [Byte.x00])).
Proof.
  assert (H1 : is_hex_int_12 (len (lit "J42d" ++ [Byte.x00])) = false)
    by (vm_compute; reflexivity).
  assert (H2 : is_dec_int (lit "model") = false) by (vm_compute; reflexivity).
  split; [exact H1|]. split; [exact H2|].
  exact (proj1 (string_display_exactly (lit "model") (lit "J42d" ++ [Byte.x00]) H1 H2)).
Defined.

(** X7.  The formatter that [print_property] picks for a value that is
    not empty has its [assert] satisfied: a string is not empty, a table
    is a positive number of whole records.  For the empty value this is
    not so unless the name starts with [#]: the empty value is a string,
    and the string formatter asserts a positive size. *)
Theorem print_property_meets_formatter_assert (name value : list byte) :
  (0 < len value ->
   main_formatter_assert (Main.compute_display_type name value) (len value) = true
   /\ part001_formatter_assert (Part001.compute_display_type name value) (len value)
      = true)
  /\ (len value = 0 -> is_dec_int name = false ->
      main_formatter_assert (Main.compute_display_type name value) (len value) = false
      /\ part001_formatter_assert (Part001.compute_display_type name value)
           (len value) = false).
Proof.
  split.
  - intros Hpos.
    assert (H0 : (0 <? len value) = true) by (apply Z.ltb_lt; exact Hpos).
    unfold Part001.compute_display_type, Main.compute_display_type,
      Part001.late_rules, Main.late_rules, Main.is_segment_ranges.
    cbv zeta. rewrite H0. cbn [andb].
    split;
      repeat match goal with
             | |- context [if ?b then _ else _] => destruct b eqn:?
             end;
      cbn [main_formatter_assert part001_formatter_assert];
      rewrite ?H0; try reflexivity;
      repeat match goal with
             | H : _ && _ = true |- _ => apply andb_prop in H as [? ?]
             end;
      rewrite ?andb_true_r; cbn [andb]; assumption.
  - intros Hz Hdec. apply len_zero_nil in Hz. subst value.
    unfold Part001.compute_display_type, Main.compute_display_type.
    cbv zeta. rewrite Hdec. split; reflexivity.
Qed.

Lemma print_property_meets_formatter_assert_witness :
  0 < len example_reg
  /\ main_formatter_assert (Main.compute_display_type (lit "reg") example_reg)
       (len example_reg) = true
  /\ len (@nil byte) = 0 /\ is_dec_int (lit "reg") = false
  /\ main_formatter_assert (Main.compute_display_type (lit "reg") [])
       (len (@nil byte)) = false.
Proof.
  assert (H1 : 0 < len example_reg) by (vm_compute; reflexivity).
  assert (H2 : len (@nil byte) = 0) by reflexivity.
  assert (H3 : is_dec_int (lit "reg") = false) by (vm_compute; reflexivity).
  split; [exact H1|].
  split; [exact (proj1 (proj1 (print_property_meets_formatter_assert (lit "reg")
                                 example_reg) H1))|].
  split; [exact H2|]. split; [exact H3|].
  exact (proj1 (proj2 (print_property_meets_formatter_assert (lit "reg") []) H2 H3)).
Defined.

Lemma plausible_16k_4k r : plausible 0x4000 r -> plausible 0x1000 r.
Proof.
  unfold plausible. intros (H1 & H2 & H3). split; [exact H1|]. split; [|exact H3].
  apply Z.mod_divide in H2; [|lia]. destruct H2 as [q Hq].
  apply Z.mod_divide; [lia|]. exists (4 * q). lia.
Qed.

(** X19.  The older variant asks of an address that it be a multiple of
    16 KiB, the header's variant of 4 KiB: a table that passes the check
    of the older one passes the check of the newer one, and every value
    that the older variant displays as address ranges is displayed as
    address ranges by the header's variant too, unless it is a
    segment-ranges table there. *)
Theorem older_address_ranges_are_newer_ones (name data : list byte) :
  (len data mod 16 = 0 ->
   Part001.check_physaddr_length_pairs data (len data / 8) = true ->
   Main.check_phys_ranges data = true)
  /\ (Part001.compute_display_type name data = Part001.DISP_PHYSADDR_LEN ->
      Main.is_segment_ranges name (len data) = false ->
      Main.compute_display_type name data = Main.DISP_PHYS_RANGES).
Proof.
  assert (Hcheck : len data mod 16 = 0 ->
                   Part001.check_physaddr_length_pairs data (len data / 8) = true ->
                   Main.check_phys_ranges data = true).
  { intros Hm Hc. apply check_phys_ranges_spec.
    apply (check_physaddr_length_pairs_spec data Hm) in Hc.
    revert Hc. apply Forall_impl. exact plausible_16k_4k. }
  split; [exact Hcheck|].
  unfold Part001.compute_display_type, Main.compute_display_type,
    Part001.late_rules, Main.late_rules, Main.sizeof_phys_range.
  cbv zeta. intros Hp Hseg. rewrite Hseg.
  destruct (is_hex_int_12 (len data)); [discriminate Hp|].
  destruct (is_dec_int name); [discriminate Hp|].
  destruct (is_string (measure_string data) (len data)); [discriminate Hp|].
  destruct (is_function_prop name data (len data)); [discriminate Hp|].
  destruct (is_hex_string_75 (measure_string data) (len data)); [discriminate Hp|].
  destruct ((0 <? len data) && (len data mod 16 =? 0)) eqn:E16.
  - destruct (strstr name (lit "reg")); [reflexivity|].
    destruct (Part001.check_physaddr_length_pairs data (len data / 8)) eqn:Ec.
    + apply andb_prop in E16 as [_ Hm]. apply Z.eqb_eq in Hm.
      now rewrite (Hcheck Hm eq_refl).
    + exfalso. revert Hp.
      repeat match goal with
             | |- context [if ?b then _ else _] => destruct b
             end; discriminate.
  - exfalso. revert Hp.
    repeat match goal with
           | |- context [if ?b then _ else _] => destruct b
           end; discriminate.
Qed.

Lemma older_address_ranges_are_newer_ones_witness :
  len example_reg mod 16 = 0
  /\ Part001.check_physaddr_length_pairs example_reg (len example_reg / 8) = true
  /\ Main.check_phys_ranges example_reg = true.
Proof.
  assert (H1 : len example_reg mod 16 = 0) by (vm_compute; reflexivity).
  assert (H2 : Part001.check_physaddr_length_pairs example_reg (len example_reg / 8)
               = true) by (vm_compute; reflexivity).
  split; [exact H1|]. split; [exact H2|].
  exact (proj1 (older_address_ranges_are_newer_ones (lit "ranges") example_reg) H1 H2).
Defined.

(** * More of the string buffer and the formatters *)

Lemma vprintf_no_grow_cap sb text :
  cap (snd (fst (strbuf_vprintf_no_grow sb text))) = cap sb
  /\ max (snd (fst (strbuf_vprintf_no_grow sb text))) = max sb.
Proof.
  unfold strbuf_vprintf_no_grow. cbv zeta.
  destruct (u64 (cap sb - 1) <? u64 (pos sb + len text)); split; reflexivity.
Qed.

Lemma strbuf_printf_cap sb text chunk :
  tracks sb text -> len (text ++ chunk) < SIZE_MAX ->
  cap sb <= cap (snd (strbuf_printf sb chunk)) <= max sb.
Proof.
  intros Ht Hfull.
  destruct (strbuf_printf_tracks sb text chunk Ht Hfull) as (Ht' & Hmax' & _).
  destruct Ht' as (Hcap' & _). rewrite Hmax' in Hcap'.
  split; [|lia]. clear Hcap' Hmax'.
  destruct Ht as (Hcap & Hmax & Hlen & Hpos & _).
  rewrite len_app in Hfull. unfold SIZE_MAX in *.
  pose proof (len_nonneg text) as Ht0. pose proof (len_nonneg chunk) as Hc0.
  unfold strbuf_printf.
  pose proof (vprintf_no_grow_cap sb chunk) as [Hc1 _].
  destruct (strbuf_vprintf_no_grow sb chunk) as [[ok sb1] req_cap] eqn:E.
  cbn [fst snd] in Hc1.
  destruct ok; cbn [snd]; [lia|].
  destruct (max sb1 <? req_cap); cbn [snd cap]; [lia|].
  match goal with
  | |- context [strbuf_vprintf_no_grow ?s chunk] =>
      pose proof (vprintf_no_grow_cap s chunk) as [Hc2 _];
      destruct (strbuf_vprintf_no_grow s chunk) as [[ok3 sb3] r3]
  end.
  cbn [fst snd cap] in Hc2 |- *. rewrite Hc2.
  unfold strbuf_vprintf_no_grow in E. cbv zeta in E.
  rewrite (u64_small (cap sb - 1)), (u64_small (pos sb + len chunk)) in E by lia.
  destruct (cap sb - 1 <? pos sb + len chunk) eqn:E1; inversion E; subst.
  apply Z.ltb_lt in E1. rewrite u64_small by lia. lia.
Qed.

Lemma tracks_contents sb text :
  tracks sb text -> nul_free text = true ->
  contents sb = firstn (Z.to_nat (cap sb - 1)) text.
Proof.
  intros (Hcap & _ & _ & _ & _ & junk & Hstr) Hnul.
  unfold contents. rewrite Hstr.
  rewrite cstring_terminated by now apply nul_free_firstn.
  destruct (Z.le_gt_cases (len text) (cap sb - 1)) as [Hle | Hgt].
  - rewrite Z.min_l by lia. now rewrite !firstn_short by lia.
  - rewrite Z.min_r by lia. reflexivity.
Qed.

(** X8.  What a sink is after every [strbuf_printf]: [pos] is the length
    of all the text it was asked to hold, the array is [cap] bytes long
    and holds the start of that text and a terminator, and [cap] is at
    most [max].  The call returns true exactly when the text so far is
    shorter than [max]; [max] does not change, [cap] does not shrink, and
    what the sink shows is the first [cap - 1] characters of the text. *)
Theorem strbuf_printf_keeps_sink (sb : strbuf) (text chunk : list byte) :
  tracks sb text -> len (text ++ chunk) < SIZE_MAX ->
  let r := strbuf_printf sb chunk in
  tracks (snd r) (text ++ chunk)
  /\ fst r = (len (text ++ chunk) <? max sb)
  /\ max (snd r) = max sb
  /\ cap sb <= cap (snd r) <= max sb
  /\ (nul_free (text ++ chunk) = true ->
      contents (snd r) = firstn (Z.to_nat (cap (snd r) - 1)) (text ++ chunk)).
Proof.
  intros Ht Hfull r.
  destruct (strbuf_printf_tracks sb text chunk Ht Hfull) as (H1 & H2 & H3 & _).
  split; [exact H1|]. split; [exact H3|]. split; [exact H2|].
  split; [now apply (strbuf_printf_cap sb text)|].
  intros Hnul. now apply tracks_contents.
Qed.

Lemma strbuf_printf_keeps_sink_witness :
  tracks (strbuf_alloc 8) [] /\ len ([] ++ lit "0x12345678") < SIZE_MAX
  /\ fst (strbuf_printf (strbuf_alloc 8) (lit "0x12345678")) = false
  /\ contents (snd (strbuf_printf (strbuf_alloc 8) (lit "0x12345678")))
     = lit "0x12345".
Proof.
  assert (H1 : tracks (strbuf_alloc 8) [])
    by (apply tracks_alloc; unfold SIZE_MAX; lia).
  assert (H2 : len ([] ++ lit "0x12345678") < SIZE_MAX) by (vm_compute; reflexivity).
  split; [exact H1|]. split; [exact H2|].
  pose proof (strbuf_printf_keeps_sink (strbuf_alloc 8) [] (lit "0x12345678") H1 H2)
    as H.
  cbv zeta in H. destruct H as (_ & Hok & _ & _ & Hc).
  split; [exact Hok|]. rewrite (Hc eq_refl). vm_compute. reflexivity.
Defined.

(** X9.  No [assert] of [strbuf_printf] fires on a sink in that state:
    the capacity is within the maximum at each attempt, the position set
    when the text is cut is not below the capacity, and the attempt after
    the [realloc] succeeds. *)
Theorem strbuf_printf_asserts_hold (sb : strbuf) (text chunk : list byte) :
  tracks sb text -> len (text ++ chunk) < SIZE_MAX ->
  strbuf_printf_asserts sb chunk = true.
Proof.
  intros (Hcap & Hmax & Hlen & Hpos & Hcase & junk & Hstr) Hfull.
  rewrite len_app in Hfull. unfold SIZE_MAX in *.
  pose proof (len_nonneg text) as Ht0. pose proof (len_nonneg chunk) as Hc0.
  unfold strbuf_printf_asserts.
  replace (cap sb <=? max sb) with true by (symmetry; apply Z.leb_le; lia).
  cbn [andb]. unfold strbuf_vprintf_no_grow at 1. cbv zeta.
  rewrite (u64_small (cap sb - 1)), (u64_small (pos sb + len chunk)) by lia.
  destruct (cap sb - 1 <? pos sb + len chunk) eqn:E1; [|reflexivity].
  apply Z.ltb_lt in E1. cbn [max cap pos str].
  rewrite (u64_small (pos sb + len chunk + 1)) by lia.
  destruct (max sb <? pos sb + len chunk + 1) eqn:E2.
  - apply Z.leb_le. rewrite u64_small by lia. lia.
  - apply Z.ltb_ge in E2.
    replace (pos sb + len chunk + 1 <=? max sb) with true
      by (symmetry; apply Z.leb_le; lia).
    cbn [andb]. unfold strbuf_vprintf_no_grow. cbv zeta. cbn [max cap pos str].
    rewrite (u64_small (pos sb + len chunk + 1 - 1)),
      (u64_small (pos sb + len chunk)) by lia.
    replace (pos sb + len chunk + 1 - 1 <? pos sb + len chunk) with false
      by (symmetry; apply Z.ltb_ge; lia).
    reflexivity.
Qed.

Lemma strbuf_printf_asserts_hold_witness :
  tracks (strbuf_alloc 8) [] /\ len ([] ++ lit "0x12345678") < SIZE_MAX
  /\ strbuf_printf_asserts (strbuf_alloc 8) (lit "0x12345678") = true.
Proof.
  assert (H1 : tracks (strbuf_alloc 8) [])
    by (apply tracks_alloc; unfold SIZE_MAX; lia).
  assert (H2 : len ([] ++ lit "0x12345678") < SIZE_MAX) by (vm_compute; reflexivity).
  split; [exact H1|]. split; [exact H2|].
  exact (strbuf_printf_asserts_hold (strbuf_alloc 8) [] (lit "0x12345678") H1 H2).
Defined.

(** [print_property] on the sink that never runs out. *)
Lemma main_print_property_unbounded name value :
  len (text_of_kind_main (Main.compute_display_type name value) value) < SIZE_MAX ->
  let r := Main.print_property unbounded name value in
  fst r = true
  /\ contents (snd r)
     = text_of_kind_main (Main.compute_display_type name value) value.
Proof.
  intros Hlen.
  assert (Hmax : 1 <= SIZE_MAX <= SIZE_MAX) by (unfold SIZE_MAX; lia).
  destruct (renders_fresh _ _ SIZE_MAX
              (renders_kind_main (Main.compute_display_type name value) value)
              (nul_free_text_main _ _) Hmax Hlen) as (H1 & H2 & _).
  apply Z.ltb_lt in Hlen. rewrite Hlen in H1, H2. split; assumption.
Qed.

Lemma part001_print_property_unbounded name value :
  len (text_of_kind_part001 (Part001.compute_display_type name value) value)
  < SIZE_MAX ->
  let r := Part001.print_property unbounded name value in
  fst r = true
  /\ contents (snd r)
     = text_of_kind_part001 (Part001.compute_display_type name value) value.
Proof.
  intros Hlen.
  assert (Hmax : 1 <= SIZE_MAX <= SIZE_MAX) by (unfold SIZE_MAX; lia).
  destruct (renders_fresh _ _ SIZE_MAX
              (renders_kind_part001 (Part001.compute_display_type name value) value)
              (nul_free_text_part001 _ _) Hmax Hlen) as (H1 & H2 & _).
  apply Z.ltb_lt in Hlen. rewrite Hlen in H1, H2. split; assumption.
Qed.

Lemma read_uint_other_size data :
  is_hex_int_12 (len data) = false -> len data <> 4 -> len data <> 8 ->
  read_uint data (len data) = u64 (-1).
Proof.
  unfold is_hex_int_12, read_uint. intros H12 H4 H8.
  apply orb_false_iff in H12 as [-> ->].
  apply Z.eqb_neq in H4, H8. now rewrite H4, H8.
Qed.

(** X10.  A value whose name starts with [#] is displayed as a decimal
    integer whatever its size; when the size is none of 1, 2, 4 and 8,
    [read_uint] has no integer to read and what is shown is -1. *)
Theorem dec_int_of_other_size_is_minus_one (name data : list byte) :
  is_dec_int name = true ->
  is_hex_int_12 (len data) = false -> len data <> 4 -> len data <> 8 ->
  (let r := Main.print_property unbounded name data in
   fst r = true /\ contents (snd r) = lit "-1")
  /\ (let r := Part001.print_property unbounded name data in
      fst r = true /\ contents (snd r) = lit "-1").
Proof.
  intros Hdec H12 H4 H8.
  assert (Hm : Main.compute_display_type name data = Main.DISP_DEC_INT).
  { unfold Main.compute_display_type. cbv zeta. now rewrite H12, Hdec. }
  assert (Hp : Part001.compute_display_type name data = Part001.DISP_DEC_INT).
  { unfold Part001.compute_display_type. cbv zeta. now rewrite H12, Hdec. }
  assert (Ht : dec_int_text data = lit "-1").
  { unfold dec_int_text. now rewrite read_uint_other_size. }
  split.
  - pose proof (main_print_property_unbounded name data) as H.
    rewrite Hm in H. cbn [text_of_kind_main] in H. rewrite Ht in H.
    apply H. vm_compute. reflexivity.
  - pose proof (part001_print_property_unbounded name data) as H.
    rewrite Hp in H. cbn [text_of_kind_part001] in H. rewrite Ht in H.
    apply H. vm_compute. reflexivity.
Qed.

Lemma dec_int_of_other_size_is_minus_one_witness :
  is_dec_int (lit "#cells") = true
  /\ is_hex_int_12 (len [Byte.x01; Byte.x00; Byte.x00]) = false
  /\ len [Byte.x01; Byte.x00; Byte.x00] <> 4
  /\ len [Byte.x01; Byte.x00; Byte.x00] <> 8
  /\ contents (snd (Main.print_property unbounded (lit "#cells")
                      [Byte.x01; Byte.x00; Byte.x00])) = lit "-1".
Proof.
  assert (H1 : is_dec_int (lit "#cells") = true) by (vm_compute; reflexivity).
  assert (H2 : is_hex_int_12 (len [Byte.x01; Byte.x00; Byte.x00]) = false)
    by (vm_compute; reflexivity).
  assert (H3 : len [Byte.x01; Byte.x00; Byte.x00] <> 4) by (vm_compute; discriminate).
  assert (H4 : len [Byte.x01; Byte.x00; Byte.x00] <> 8) by (vm_compute; discriminate).
  split; [exact H1|]. split; [exact H2|]. split; [exact H3|]. split; [exact H4|].
  exact (proj2 (proj1 (dec_int_of_other_size_is_minus_one (lit "#cells")
                         [Byte.x01; Byte.x00; Byte.x00] H1 H2 H3 H4))).
Defined.

Lemma len_hex_digits_rev fuel : forall n,
  len (hex_digits_rev fuel n) <= Z.of_nat fuel.
Proof.
  induction fuel as [|fuel IH]; intros n; [cbn; lia|].
  cbn [hex_digits_rev]. destruct (n <? 16).
  - change (len [hex_digit n]) with 1. lia.
  - rewrite len_cons. specialize (IH (n / 16)). lia.
Qed.

Lemma len_hex_int_text data : len (hex_int_text data) <= 18.
Proof.
  unfold hex_int_text. cbv zeta. destruct (_ =? 0); [cbn; lia|].
  rewrite len_app. change (len (lit "0x")) with 2.
  pose proof (len_hex_digits_rev 16 (read_uint data (len data))) as H.
  unfold fmt_x. unfold len at 1. rewrite length_rev. fold (len (hex_digits_rev 16 (read_uint data (len data)))).
  lia.
Qed.

Lemma bytes_at_whole data : bytes_at data 0 (len data) = data.
Proof. unfold bytes_at. cbn [Z.to_nat skipn]. apply firstn_short. lia. Qed.

Lemma read_uint_hex_sizes data :
  len data = 1 \/ len data = 2 \/ len data = 4 \/ len data = 8 ->
  read_uint data (len data) = le_combine data.
Proof.
  intros H. pose proof (bytes_at_whole data) as Hw. unfold read_uint.
  destruct H as [E | [E | [E | E]]]; rewrite E in *; cbn [Z.eqb Pos.eqb];
    now rewrite Hw.
Qed.

Lemma main_hex_int_sizes name data :
  Main.compute_display_type name data = Main.DISP_HEX_INT ->
  len data = 1 \/ len data = 2 \/ len data = 4 \/ len data = 8.
Proof.
  unfold Main.compute_display_type, Main.late_rules, is_hex_int_12, is_hex_int_48.
  cbv zeta.
  repeat match goal with
         | |- context [if ?b then _ else _] => destruct b eqn:?
         end;
    intros E; try discriminate E;
    repeat match goal with
           | H : _ || _ = true |- _ => apply orb_true_iff in H as [H | H]
           | H : (_ =? _) = true |- _ => apply Z.eqb_eq in H
           end; auto.
Qed.

Lemma part001_hex_int_sizes name data :
  Part001.compute_display_type name data = Part001.DISP_HEX_INT ->
  len data = 1 \/ len data = 2 \/ len data = 4 \/ len data = 8.
Proof.
  unfold Part001.compute_display_type, Part001.late_rules, is_hex_int_12,
    is_hex_int_48.
  cbv zeta.
  repeat match goal with
         | |- context [if ?b then _ else _] => destruct b eqn:?
         end;
    intros E; try discriminate E;
    repeat match goal with
           | H : _ || _ = true |- _ => apply orb_true_iff in H as [H | H]
           | H : (_ =? _) = true |- _ => apply Z.eqb_eq in H
           end; auto.
Qed.

(** X11.  A value displayed as a hexadecimal integer has 1, 2, 4 or 8
    bytes, and what is shown is its whole content read as a little-endian
    number: 0 for zero, otherwise 0x and the hexadecimal digits. *)
Theorem hex_int_shows_little_endian_value (name data : list byte) :
  (Main.compute_display_type name data = Main.DISP_HEX_INT ->
   let r := Main.print_property unbounded name data in
   fst r = true
   /\ contents (snd r)
      = (if le_combine data =? 0 then lit "0" else lit "0x" ++ fmt_x (le_combine data)))
  /\ (Part001.compute_display_type name data = Part001.DISP_HEX_INT ->
      let r := Part001.print_property unbounded name data in
      fst r = true
      /\ contents (snd r)
         = (if le_combine data =? 0 then lit "0"
            else lit "0x" ++ fmt_x (le_combine data))).
Proof.
  pose proof (len_hex_int_text data) as Hlen.
  split; intros Hd.
  - pose proof (main_print_property_unbounded name data) as H.
    rewrite Hd in H. cbn [text_of_kind_main] in H.
    specialize (H ltac:(unfold SIZE_MAX; lia)).
    unfold hex_int_text in H. cbv zeta in H.
    rewrite (read_uint_hex_sizes data (main_hex_int_sizes name data Hd)) in H.
    exact H.
  - pose proof (part001_print_property_unbounded name data) as H.
    rewrite Hd in H. cbn [text_of_kind_part001] in H.
    specialize (H ltac:(unfold SIZE_MAX; lia)).
    unfold hex_int_text in H. cbv zeta in H.
    rewrite (read_uint_hex_sizes data (part001_hex_int_sizes name data Hd)) in H.
    exact H.
Qed.

Lemma hex_int_shows_little_endian_value_witness :
  Main.compute_display_type (lit "clock") [Byte.x00; Byte.x36; Byte.x6e; Byte.x01]
  = Main.DISP_HEX_INT
  /\ contents (snd (Main.print_property unbounded (lit "clock")
                      [Byte.x00; Byte.x36; Byte.x6e; Byte.x01]))
     = lit "0x16e3600".
Proof.
  assert (H : Main.compute_display_type (lit "clock")
                [Byte.x00; Byte.x36; Byte.x6e; Byte.x01] = Main.DISP_HEX_INT)
    by (vm_compute; reflexivity).
  split; [exact H|].
  exact (proj2 (proj1 (hex_int_shows_little_endian_value (lit "clock")
                         [Byte.x00; Byte.x36; Byte.x6e; Byte.x01]) H)).
Defined.

(** X12.  The driver formats one property after another into the same
    sink, setting only [sb.pos = 0] in between.  Whatever was formatted
    before, for a value that is not empty the sink then shows the text of
    that value alone: all of it, with the result true, when it is shorter
    than the maximum; a prefix of it, with the result false, when it is
    not. *)
Theorem reused_sink_shows_the_new_value (sb : strbuf) (text name value : list byte) :
  tracks sb text -> 0 < len value ->
  (let full := text_of_kind_main (Main.compute_display_type name value) value in
   len full < SIZE_MAX ->
   let r := Main.print_property (rewind sb) name value in
   fst r = (len full <? max sb)
   /\ (fst r = true -> contents (snd r) = full)
   /\ exists rest, full = contents (snd r) ++ rest)
  /\ (let full :=
        text_of_kind_part001 (Part001.compute_display_type name value) value in
      len full < SIZE_MAX ->
      let r := Part001.print_property (rewind sb) name value in
      fst r = (len full <? max sb)
      /\ (fst r = true -> contents (snd r) = full)
      /\ exists rest, full = contents (snd r) ++ rest).
Proof.
  intros Ht Hv. split.
  - apply (main_print_property_reused sb text name value Ht Hv).
  - apply (part001_print_property_reused sb text name value Ht Hv).
Qed.

Lemma reused_sink_shows_the_new_value_witness :
  tracks (snd (strbuf_printf (strbuf_alloc 64) (lit "the text before")))
    ([] ++ lit "the text before")
  /\ 0 < len [Byte.x2a; Byte.x00]
  /\ len (text_of_kind_main
            (Main.compute_display_type (lit "n") [Byte.x2a; Byte.x00])
            [Byte.x2a; Byte.x00]) < SIZE_MAX
  /\ contents (snd (Main.print_property
                      (rewind (snd (strbuf_printf (strbuf_alloc 64)
                                      (lit "the text before"))))
                      (lit "n") [Byte.x2a; Byte.x00]))
     = lit "0x2a".
Proof.
  assert (H0 : tracks (strbuf_alloc 64) [])
    by (apply tracks_alloc; unfold SIZE_MAX; lia).
  assert (H1 : tracks (snd (strbuf_printf (strbuf_alloc 64) (lit "the text before")))
                 ([] ++ lit "the text before")).
  { apply (strbuf_printf_tracks (strbuf_alloc 64) [] (lit "the text before") H0).
    vm_compute. reflexivity. }
  assert (H2 : 0 < len [Byte.x2a; Byte.x00]) by (vm_compute; reflexivity).
  assert (H3 : len (text_of_kind_main
                      (Main.compute_display_type (lit "n") [Byte.x2a; Byte.x00])
                      [Byte.x2a; Byte.x00]) < SIZE_MAX) by (vm_compute; reflexivity).
  split; [exact H1|]. split; [exact H2|]. split; [exact H3|].
  pose proof (proj1 (reused_sink_shows_the_new_value _ _ (lit "n")
                       [Byte.x2a; Byte.x00] H1 H2) H3) as H.
  cbv zeta in H. destruct H as (Hok & Hc & _).
  rewrite Hc; [vm_compute; reflexivity|].
  rewrite Hok. vm_compute. reflexivity.
Defined.

(** X13.  The formatters of the header's variant quote and escape as
    they should: the string formatter shows the bytes before the first
    NUL, the two others the whole value, between double quotes, with a
    backslash before a backslash and before a double quote, NUL as
    backslash-0 and any other byte that is not printable as backslash-x
    and two hexadecimal digits. *)
Theorem header_formatters_quote_and_escape (data : list byte) :
  len (quoted data) < SIZE_MAX ->
  (let r := Main.print_property_string unbounded data in
   fst r = true /\ contents (snd r) = quoted (cstring data))
  /\ (let r := Main.print_property_hex_string unbounded data in
      fst r = true /\ contents (snd r) = quoted data)
  /\ (let r := Main.print_property_function unbounded data in
      fst r = true /\ contents (snd r) = quoted data).
Proof. apply main_quotes_and_escapes. Qed.

Lemma header_formatters_quote_and_escape_witness :
  len (quoted [Byte.x61; quote; backslash; Byte.x00; Byte.x07]) < SIZE_MAX
  /\ contents (snd (Main.print_property_hex_string unbounded
                      [Byte.x61; quote; backslash; Byte.x00; Byte.x07]))
     = [quote; Byte.x61; backslash; quote; backslash; backslash;
        backslash; Byte.x30; backslash; Byte.x78; Byte.x30; Byte.x37; quote].
Proof.
  assert (H : len (quoted [Byte.x61; quote; backslash; Byte.x00; Byte.x07]) < SIZE_MAX)
    by (vm_compute; reflexivity).
  split; [exact H|].
  pose proof (proj2 (proj1 (proj2 (header_formatters_quote_and_escape
                                     [Byte.x61; quote; backslash; Byte.x00; Byte.x07]
                                     H)))) as Hc.
  rewrite Hc. vm_compute. reflexivity.
Defined.

(** The first byte of a value can be read back from its escaped text. *)
Lemma escape_byte_head :
  exists f : list byte -> byte, forall c rest, f (escape_byte c ++ rest) = c.
Proof.
  exists (fun s =>
            match s with
            | [] => Byte.x00
            | b0 :: r =>
                if Byte.eqb b0 backslash then
                  match r with
                  | [] => Byte.x00
                  | b1 :: r' =>
                      if Byte.eqb b1 Byte.x78 then
                        match r' with
                        | h1 :: h2 :: _ =>
                            let unhex h :=
                              if byte.unsigned h <? 58 then byte.unsigned h - 48
                              else byte.unsigned h - 87 in
                            byte.of_Z (16 * unhex h1 + unhex h2)
                        | _ => Byte.x00
                        end
                      else if Byte.eqb b1 Byte.x30 then Byte.x00
                      else b1
                  end
                else b0
            end).
  intros c rest. destruct c; reflexivity.
Qed.

Lemma escape_byte_nonempty c : escape_byte c <> [].
Proof.
  unfold escape_byte.
  destruct (Byte.eqb c backslash || Byte.eqb c quote); [discriminate|].
  destruct (is_nul c); [discriminate|].
  destruct (isprint c); discriminate.
Qed.

Lemma escaped_injective a : forall b,
  flat_map escape_byte a = flat_map escape_byte b -> a = b.
Proof.
  destruct escape_byte_head as [f Hf].
  induction a as [|x a IH]; intros [|y b] H; cbn [flat_map] in H.
  - reflexivity.
  - symmetry in H. apply app_eq_nil in H as [H _].
    now apply escape_byte_nonempty in H.
  - apply app_eq_nil in H as [H _]. now apply escape_byte_nonempty in H.
  - assert (Hxy : x = y).
    { rewrite <- (Hf x (flat_map escape_byte a)), H. apply Hf. }
    subst y. apply app_inv_head in H. f_equal. now apply IH.
Qed.

(** X14.  In the header's variant the quoted text tells the value: two
    values that the string formatter of whole values shows the same way
    are the same bytes. *)
Theorem header_hex_string_is_injective (a b : list byte) :
  len (quoted a) < SIZE_MAX -> len (quoted b) < SIZE_MAX ->
  contents (snd (Main.print_property_hex_string unbounded a))
  = contents (snd (Main.print_property_hex_string unbounded b)) ->
  a = b.
Proof.
  intros Ha Hb.
  destruct (main_quotes_and_escapes a Ha) as (_ & [_ Ea] & _).
  destruct (main_quotes_and_escapes b Hb) as (_ & [_ Eb] & _).
  cbv zeta in Ea, Eb. rewrite Ea, Eb. unfold quoted. cbn [app].
  intros H. injection H as H. apply app_inv_tail in H.
  now apply escaped_injective.
Qed.

Lemma header_hex_string_is_injective_witness :
  len (quoted [backslash; Byte.x30]) < SIZE_MAX
  /\ contents (snd (Main.print_property_hex_string unbounded [backslash; Byte.x30]))
     = contents (snd (Main.print_property_hex_string unbounded [backslash; Byte.x30]))
  /\ [backslash; Byte.x30] = [backslash; Byte.x30].
Proof.
  assert (H : len (quoted [backslash; Byte.x30]) < SIZE_MAX)
    by (vm_compute; reflexivity).
  split; [exact H|]. split; [reflexivity|].
  exact (header_hex_string_is_injective [backslash; Byte.x30] [backslash; Byte.x30]
           H H eq_refl).
Defined.

Lemma len_fmt_02x_byte c : len (fmt_02x (byte.unsigned c)) = 2.
Proof. destruct c; reflexivity. Qed.

Lemma len_hex_dump_text data : forall size,
  data <> [] ->
  len (loop_text (hex_dump_text size) data) = 3 * len data - 1.
Proof.
  induction data as [|c data IH]; intros size Hne; [congruence|].
  cbn [loop_text]. rewrite len_app, len_cons. unfold hex_dump_text at 1.
  cbv zeta. rewrite len_app, len_fmt_02x_byte, Z.eqb_refl.
  destruct data as [|c' data'].
  - cbn [loop_text]. change (len (@nil byte)) with 0. cbn. lia.
  - rewrite (IH size) by discriminate. change (len (lit " ")) with 1. lia.
Qed.

(** X15.  A hex dump takes three characters for each byte but the last,
    which takes two.  So on a fresh sink of maximum [m] the dump of a
    value is complete exactly when three times its size is at most [m]:
    with the 64 of the driver, up to 21 bytes. *)
Theorem hex_dump_fits_exactly (data : list byte) (m : Z) :
  data <> [] -> 1 <= m <= SIZE_MAX -> 3 * len data - 1 < SIZE_MAX ->
  fst (print_property_hex_dump (strbuf_alloc m) data) = (3 * len data <=? m).
Proof.
  intros Hne Hm Hlen.
  pose proof (len_hex_dump_text data (len data) Hne) as Hl.
  destruct (renders_fresh _ _ m (renders_kind_main Main.DISP_HEX_DUMP data)
              (nul_free_text_main _ _) Hm) as (H1 & _).
  { cbn [text_of_kind_main]. lia. }
  cbn [Main.print_kind text_of_kind_main] in H1. rewrite H1, Hl.
  destruct (Z.ltb_spec (3 * len data - 1) m), (Z.leb_spec (3 * len data) m);
    try reflexivity; lia.
Qed.

Lemma hex_dump_fits_exactly_witness :
  repeat Byte.xff 22 <> [] /\ 1 <= 64 <= SIZE_MAX
  /\ 3 * len (repeat Byte.xff 22) - 1 < SIZE_MAX
  /\ fst (print_property_hex_dump (strbuf_alloc 64) (repeat Byte.xff 22)) = false.
Proof.
  assert (H1 : repeat Byte.xff 22 <> []) by discriminate.
  assert (H2 : 1 <= 64 <= SIZE_MAX) by (unfold SIZE_MAX; lia).
  assert (H3 : 3 * len (repeat Byte.xff 22) - 1 < SIZE_MAX) by (vm_compute; reflexivity).
  split; [exact H1|]. split; [exact H2|]. split; [exact H3|].
  exact (hex_dump_fits_exactly (repeat Byte.xff 22) 64 H1 H2 H3).
Defined.

(** * The driver *)

(** ** The capacity of the sink under the formatters *)

Lemma grows_printf chunk : grows (fun sb => strbuf_printf sb chunk) chunk.
Proof.
  intros sb text Ht _ Hfull. now apply (strbuf_printf_cap sb text).
Qed.

Lemma grows_nil : grows (fun sb => (true, sb)) [].
Proof. intros sb text _ _ _. cbn [snd]. lia. Qed.

Lemma grows_seq f g F G :
  renders f F -> grows f F -> grows g G ->
  grows (fun sb => let '(ok, sb1) := f sb in if ok then g sb1 else (false, sb1))
        (F ++ G).
Proof.
  intros Hr Hf Hg sb text Ht Hlt Hfull.
  rewrite !len_app in Hfull. pose proof (len_nonneg G) as HG.
  pose proof (len_nonneg F) as HF.
  destruct (Hr sb text Ht Hlt ltac:(rewrite len_app; lia))
    as (a1 & Ht1 & Hm1 & _ & Hok1).
  specialize (Hf sb text Ht Hlt ltac:(rewrite len_app; lia)).
  destruct (f sb) as [ok sb1]. cbn [fst snd] in *. destruct ok; [|exact Hf].
  destruct Hok1 as [-> Hlt1].
  specialize (Hg sb1 (text ++ F) Ht1 ltac:(lia) ltac:(rewrite !len_app; lia)).
  lia.
Qed.

Lemma grows_loop {A} (body : strbuf -> A -> bool -> bool * strbuf)
    (chunk : A -> bool -> list byte) items :
  (forall x last, renders (fun sb => body sb x last) (chunk x last)) ->
  (forall x last, grows (fun sb => body sb x last) (chunk x last)) ->
  grows (fun sb => print_loop body sb items) (loop_text chunk items).
Proof.
  intros Hr Hg. induction items as [|x items IH]; cbn [print_loop loop_text].
  - apply grows_nil.
  - apply (grows_seq _ _ _ _ (Hr x _) (Hg x _) IH).
Qed.

Lemma grows_hex_string_char c :
  grows (fun sb => Main.hex_string_char sb c) (escape_byte c).
Proof.
  unfold Main.hex_string_char, escape_byte.
  destruct (Byte.eqb c backslash || Byte.eqb c quote) eqn:E.
  - assert (Hc : is_nul c = false /\ isprint c = true).
    { apply orb_prop in E as [E | E]; apply Byte.byte_dec_bl in E; subst c;
        split; reflexivity. }
    destruct Hc as [-> ->].
    intros sb text Ht _ Hfull.
    change [backslash; c] with ([backslash] ++ [c]) in *.
    rewrite app_assoc in Hfull.
    assert (Hfull1 : len (text ++ [backslash]) < SIZE_MAX).
    { rewrite len_app in Hfull. change (len [c]) with 1 in Hfull. lia. }
    destruct (strbuf_printf_tracks sb text [backslash] Ht Hfull1) as (H1 & _).
    pose proof (strbuf_printf_cap sb text [backslash] Ht Hfull1) as Hc1.
    destruct (strbuf_printf sb [backslash]) as [ok1 sb1]. cbn [fst snd] in *.
    pose proof (strbuf_printf_cap sb1 (text ++ [backslash]) [c] H1 Hfull) as Hc2.
    lia.
  - destruct (is_nul c); [apply grows_printf|].
    destruct (isprint c); apply grows_printf.
Qed.

Lemma grows_hex_string_main data :
  grows (fun sb => Main.print_property_hex_string sb data) (quoted data).
Proof.
  unfold Main.print_property_hex_string, quoted.
  apply (grows_seq (fun sb => strbuf_printf sb [quote])
           (fun sb1 =>
              let '(ok, sb2) :=
                print_loop (fun sb c (_ : bool) => Main.hex_string_char sb c) sb1 data in
              if ok then strbuf_printf sb2 [quote] else (false, sb2))).
  - apply renders_printf.
  - apply grows_printf.
  - rewrite <- loop_text_flat_map. apply grows_seq.
    + apply renders_loop. intros c _. apply renders_hex_string_char.
    + apply grows_loop; intros c _;
        [apply renders_hex_string_char | apply grows_hex_string_char].
    + apply grows_printf.
Qed.

Lemma grows_hex_string_part001 data :
  grows (fun sb => Part001.print_property_hex_string sb data) (quoted_part001 data).
Proof.
  unfold Part001.print_property_hex_string, quoted_part001.
  apply (grows_seq (fun sb => strbuf_printf sb [quote])
           (fun sb1 =>
              let '(ok, sb2) :=
                print_loop (fun sb c (_ : bool) =>
                              strbuf_printf sb (Part001.hex_string_char_text c)) sb1 data in
              if ok then strbuf_printf sb2 [quote] else (false, sb2))).
  - apply renders_printf.
  - apply grows_printf.
  - rewrite <- loop_text_flat_map. apply grows_seq.
    + apply renders_loop. intros c _. apply renders_printf.
    + apply grows_loop; intros c _; [apply renders_printf | apply grows_printf].
    + apply grows_printf.
Qed.

Lemma grows_kind_main disp data :
  grows (fun sb => Main.print_kind disp sb data) (text_of_kind_main disp data).
Proof.
  destruct disp; cbn [Main.print_kind text_of_kind_main].
  - apply grows_loop; intros c last; [apply renders_printf | apply grows_printf].
  - apply grows_printf.
  - apply grows_printf.
  - unfold Main.print_property_string, bytes_at. cbn [Z.to_nat skipn].
    rewrite cstring_prefix. apply grows_hex_string_main.
  - apply grows_hex_string_main.
  - apply grows_hex_string_main.
  - apply grows_loop; intros c last; [apply renders_printf | apply grows_printf].
  - apply grows_loop; intros c last; [apply renders_printf | apply grows_printf].
Qed.

Lemma grows_kind_part001 disp data :
  grows (fun sb => Part001.print_kind disp sb data) (text_of_kind_part001 disp data).
Proof.
  destruct disp; cbn [Part001.print_kind text_of_kind_part001].
  - apply grows_loop; intros c last; [apply renders_printf | apply grows_printf].
  - apply grows_printf.
  - apply grows_printf.
  - unfold Part001.print_property_string, bytes_at. cbn [Z.to_nat skipn].
    rewrite cstring_prefix. apply grows_hex_string_part001.
  - apply grows_hex_string_part001.
  - apply grows_hex_string_part001.
  - apply grows_loop; intros c last; [apply renders_printf | apply grows_printf].
Qed.

(** ** The length of the text of a value *)

Lemma len_fmt_x n : len (fmt_x n) <= 16.
Proof.
  unfold fmt_x, len. rewrite length_rev.
  exact (len_hex_digits_rev 16 n).
Qed.

Lemma len_zero_pad w digits :
  len (zero_pad w digits) = Z.max (Z.of_nat w) (len digits).
Proof.
  unfold zero_pad. rewrite len_app, len_repeat. unfold len. lia.
Qed.

Lemma len_dec_digits_rev fuel : forall n,
  len (dec_digits_rev fuel n) <= Z.of_nat fuel.
Proof.
  induction fuel as [|fuel IH]; intros n; [cbn; lia|].
  cbn [dec_digits_rev]. destruct (n <? 10).
  - change (len [byte.of_Z (48 + n)]) with 1. lia.
  - rewrite len_cons. specialize (IH (n / 10)). lia.
Qed.

Lemma len_fmt_lld n : len (fmt_lld n) <= 21.
Proof.
  unfold fmt_lld. destruct (n <? 2 ^ 63); rewrite ?len_app; unfold len at 1;
    try change (length (lit "-")) with 1%nat; unfold len; rewrite length_rev.
  - pose proof (len_dec_digits_rev 20 n) as H. unfold len in H. lia.
  - pose proof (len_dec_digits_rev 20 (2 ^ 64 - n)) as H. unfold len in H. lia.
Qed.

Lemma len_flat_map_bound {A} (f : A -> list byte) (B : Z) items :
  (forall x, len (f x) <= B) -> len (flat_map f items) <= B * len items.
Proof.
  intros H. induction items as [|x items IH]; [cbn; lia|].
  cbn [flat_map]. rewrite len_app, len_cons. specialize (H x). lia.
Qed.

Lemma len_loop_text_bound {A} (chunk : A -> bool -> list byte) (B : Z) items :
  (forall x last, len (chunk x last) <= B) ->
  len (loop_text chunk items) <= B * len items.
Proof.
  intros H. induction items as [|x items IH]; [cbn; lia|].
  cbn [loop_text]. rewrite len_app, len_cons.
  specialize (H x (match items with [] => true | _ => false end)). lia.
Qed.

Lemma len_records width data :
  0 < width -> 0 <= len (records width data) <= len data.
Proof.
  intros Hw. unfold records. pose proof (len_nonneg data) as Hd.
  assert (H : 0 <= len data / width <= len data).
  { split; [apply Z.div_pos; lia|]. apply Z.div_le_upper_bound; nia. }
  set (n := Z.to_nat (len data / width)).
  assert (Hn : len (map (fun i => bytes_at data (width * Z.of_nat i) width) (seq 0 n))
               = Z.of_nat n).
  { unfold len. now rewrite length_map, length_seq. }
  rewrite Hn. subst n. lia.
Qed.

Lemma len_escape_byte c : len (escape_byte c) <= 4.
Proof. destruct c; apply Z.leb_le; reflexivity. Qed.

Lemma len_hex_string_char_text c : len (Part001.hex_string_char_text c) <= 4.
Proof. destruct c; apply Z.leb_le; reflexivity. Qed.

Lemma len_cstring_le data : len (cstring data) <= len data.
Proof. exact (proj2 (strnlen_le data)). Qed.

Lemma len_quoted data : len (quoted data) <= 4 * len data + 2.
Proof.
  unfold quoted. rewrite !len_app.
  pose proof (len_flat_map_bound escape_byte 4 data len_escape_byte).
  change (len [quote]) with 1. lia.
Qed.

Lemma len_quoted_part001 data : len (quoted_part001 data) <= 4 * len data + 2.
Proof.
  unfold quoted_part001. rewrite !len_app.
  pose proof (len_flat_map_bound Part001.hex_string_char_text 4 data
                len_hex_string_char_text).
  change (len [quote]) with 1. lia.
Qed.

Lemma len_phys_range_text r last : len (Main.phys_range_text r last) <= 37.
Proof.
  unfold Main.phys_range_text. rewrite !len_app.
  pose proof (len_fmt_x (le_combine (bytes_at r 0 8))).
  pose proof (len_fmt_x (le_combine (bytes_at r 8 8))).
  change (len (lit "0x")) with 2. change (len (lit ",")) with 1.
  destruct last; [change (len (lit "")) with 0 | change (len (lit "; ")) with 2]; lia.
Qed.

Lemma len_segment_range_text r last : len (Main.segment_range_text r last) <= 131.
Proof.
  unfold Main.segment_range_text. rewrite !len_app.
  pose proof (len_fmt_x (le_combine (bytes_at r 0 8))).
  pose proof (len_fmt_x (le_combine (bytes_at r 8 8))).
  pose proof (len_fmt_x (le_combine (bytes_at r 16 8))).
  pose proof (len_fmt_x (le_combine (bytes_at r 24 4))).
  pose proof (len_fmt_x (le_combine (bytes_at r 28 4))).
  change (len (lit "{ phys=0x")) with 9. change (len (lit ", virt=0x")) with 9.
  change (len (lit ", remap=0x")) with 10. change (len (lit ", size=0x")) with 9.
  change (len (lit ", flags=0x")) with 10. change (len (lit " }")) with 2.
  destruct last; [change (len (lit "")) with 0 | change (len (lit "; ")) with 2]; lia.
Qed.

Lemma len_physaddr_len_text r last : len (Part001.physaddr_len_text r last) <= 37.
Proof.
  unfold Part001.physaddr_len_text. rewrite !len_app.
  pose proof (len_fmt_x (le_combine (bytes_at r 0 8))).
  pose proof (len_fmt_x (le_combine (bytes_at r 8 8))).
  unfold fmt_016llx. rewrite len_zero_pad.
  change (len (lit "0x")) with 2. change (len (lit ",")) with 1.
  destruct last; [change (len (lit "")) with 0 | change (len (lit "; ")) with 2]; lia.
Qed.

Lemma len_hex_dump_chunk size c last : len (hex_dump_text size c last) <= 3.
Proof.
  unfold hex_dump_text. cbv zeta. rewrite len_app, len_fmt_02x_byte, Z.eqb_refl.
  destruct last; [change (len (lit "")) with 0 | change (len (lit " ")) with 1]; lia.
Qed.

Lemma len_text_main disp data :
  len (text_of_kind_main disp data) <= 131 * len data + 21.
Proof.
  pose proof (len_nonneg data) as Hd.
  destruct disp; cbn [text_of_kind_main].
  - pose proof (len_loop_text_bound (hex_dump_text (len data)) 3 data
                  (len_hex_dump_chunk (len data))). lia.
  - pose proof (len_hex_int_text data). lia.
  - unfold dec_int_text. pose proof (len_fmt_lld (read_uint data (len data))). lia.
  - pose proof (len_quoted_cstring data). pose proof (len_quoted data). lia.
  - pose proof (len_quoted data). lia.
  - pose proof (len_quoted data). lia.
  - pose proof (len_loop_text_bound Main.phys_range_text 37
                  (records Main.sizeof_phys_range data) len_phys_range_text).
    pose proof (len_records Main.sizeof_phys_range data eq_refl). nia.
  - pose proof (len_loop_text_bound Main.segment_range_text 131
                  (records Main.sizeof_segment_range data) len_segment_range_text).
    pose proof (len_records Main.sizeof_segment_range data eq_refl). nia.
Qed.

Lemma len_text_part001 disp data :
  len (text_of_kind_part001 disp data) <= 131 * len data + 21.
Proof.
  pose proof (len_nonneg data) as Hd.
  destruct disp; cbn [text_of_kind_part001].
  - pose proof (len_loop_text_bound (hex_dump_text (len data)) 3 data
                  (len_hex_dump_chunk (len data))). lia.
  - pose proof (len_hex_int_text data). lia.
  - unfold dec_int_text. pose proof (len_fmt_lld (read_uint data (len data))). lia.
  - pose proof (len_quoted_part001 (cstring data)).
    pose proof (len_cstring_le data). lia.
  - pose proof (len_quoted_part001 data). lia.
  - pose proof (len_quoted_part001 data). lia.
  - pose proof (len_loop_text_bound Part001.physaddr_len_text 37
                  (records 16 data) len_physaddr_len_text).
    pose proof (len_records 16 data eq_refl). nia.
Qed.

(** ** One property on the sink of the driver *)

Lemma main_print_on_driver_sink verbose sb name value :
  driver_sink verbose sb -> 0 < len value -> len value < 2 ^ 31 ->
  let r := Main.print_property (rewind sb) name value in
  driver_sink verbose (snd r)
  /\ contents (snd r) ++ (if fst r then lit "" else lit "...")
     = shown_value verbose
         (text_of_kind_main (Main.compute_display_type name value) value).
Proof.
  intros ([text Ht] & Hmax & Hcap) Hv Hsz r. subst r.
  rewrite (main_print_property_rewind sb text name value Ht Hv).
  unfold Main.print_property.
  set (disp := Main.compute_display_type name value).
  set (full := text_of_kind_main disp value).
  assert (Hfull : len full < SIZE_MAX).
  { pose proof (len_text_main disp value). unfold SIZE_MAX. fold full in H. lia. }
  pose proof (tracks_cleared sb text Ht) as Htc.
  destruct (renders_empty (fun s => Main.print_kind disp s value) full (cleared sb)
              (renders_kind_main _ _) (nul_free_text_main _ _) Htc Hfull)
    as (Hok & Hc & Hm & text' & Ht' & _).
  pose proof (grows_kind_main disp value (cleared sb) [] Htc) as Hg.
  cbv beta in Hok, Hc, Hm, Ht', Hg.
  change (max (cleared sb)) with (max sb) in *.
  change (cap (cleared sb)) with (cap sb) in *.
  change (len (@nil byte)) with 0 in Hg. cbn [app] in Hg.
  pose proof Ht as (Hcap0 & _).
  specialize (Hg ltac:(lia) Hfull).
  pose proof Ht' as (Hcap' & _). rewrite Hm in Hcap'.
  split.
  - split; [exists text'; exact Ht'|]. split; [now rewrite Hm|].
    intros Hnv. specialize (Hcap Hnv). rewrite Hnv in Hmax. lia.
  - rewrite Hok, Hc. unfold shown_value. rewrite Hmax.
    destruct verbose.
    + apply Z.ltb_lt in Hfull. rewrite Hfull. cbn [orb]. apply app_nil_r.
    + cbn [orb]. destruct (len full <? 64); [apply app_nil_r|].
      specialize (Hcap eq_refl). rewrite Hmax in Hcap'.
      replace (cap (snd (Main.print_kind disp (cleared sb) value))) with 64 by lia.
      reflexivity.
Qed.

Lemma part001_print_on_driver_sink verbose sb name value :
  driver_sink verbose sb -> 0 < len value -> len value < 2 ^ 31 ->
  let r := Part001.print_property (rewind sb) name value in
  driver_sink verbose (snd r)
  /\ contents (snd r) ++ (if fst r then lit "" else lit "...")
     = shown_value verbose
         (text_of_kind_part001 (Part001.compute_display_type name value) value).
Proof.
  intros ([text Ht] & Hmax & Hcap) Hv Hsz r. subst r.
  rewrite (part001_print_property_rewind sb text name value Ht Hv).
  unfold Part001.print_property.
  set (disp := Part001.compute_display_type name value).
  set (full := text_of_kind_part001 disp value).
  assert (Hfull : len full < SIZE_MAX).
  { pose proof (len_text_part001 disp value). unfold SIZE_MAX. fold full in H. lia. }
  pose proof (tracks_cleared sb text Ht) as Htc.
  destruct (renders_empty (fun s => Part001.print_kind disp s value) full (cleared sb)
              (renders_kind_part001 _ _) (nul_free_text_part001 _ _) Htc Hfull)
    as (Hok & Hc & Hm & text' & Ht' & _).
  pose proof (grows_kind_part001 disp value (cleared sb) [] Htc) as Hg.
  cbv beta in Hok, Hc, Hm, Ht', Hg.
  change (max (cleared sb)) with (max sb) in *.
  change (cap (cleared sb)) with (cap sb) in *.
  change (len (@nil byte)) with 0 in Hg. cbn [app] in Hg.
  pose proof Ht as (Hcap0 & _).
  specialize (Hg ltac:(lia) Hfull).
  pose proof Ht' as (Hcap' & _). rewrite Hm in Hcap'.
  split.
  - split; [exists text'; exact Ht'|]. split; [now rewrite Hm|].
    intros Hnv. specialize (Hcap Hnv). rewrite Hnv in Hmax. lia.
  - rewrite Hok, Hc. unfold shown_value. rewrite Hmax.
    destruct verbose.
    + apply Z.ltb_lt in Hfull. rewrite Hfull. cbn [orb]. apply app_nil_r.
    + cbn [orb]. destruct (len full <? 64); [apply app_nil_r|].
      specialize (Hcap eq_refl). rewrite Hmax in Hcap'.
      replace (cap (snd (Part001.print_kind disp (cleared sb) value))) with 64 by lia.
      reflexivity.
Qed.

Lemma driver_sink_alloc verbose :
  driver_sink verbose (strbuf_alloc (if verbose then u64 (-1) else 64)).
Proof.
  destruct verbose.
  - change (u64 (-1)) with SIZE_MAX.
    split; [exists []; apply tracks_alloc; unfold SIZE_MAX; lia|].
    split; [reflexivity | discriminate].
  - split; [exists []; apply tracks_alloc; unfold SIZE_MAX; lia|].
    split; reflexivity.
Qed.

(** ** The observers of [devicetree_print] over a tree *)

Lemma nth_existsb (f : byte -> bool) l d i :
  (i < length l)%nat -> f (nth i l d) = true -> existsb f l = true.
Proof.
  revert i. induction l as [|x l IH]; intros i Hi H; [cbn in Hi; lia|].
  cbn [existsb]. destruct i as [|i]; cbn [nth] in H.
  - now rewrite H.
  - cbn [length] in Hi. rewrite (IH i) by (try lia; exact H). apply orb_true_r.
Qed.

Lemma valid_name_c_str p :
  valid_property p = true ->
  Driver.c_str (prop_name p) = Some (cstring (prop_name p)).
Proof.
  intros Hv. apply valid_property_inv in Hv as (Hn & Hz & _).
  unfold Driver.c_str.
  rewrite (nth_existsb is_nul (prop_name p) Byte.x00 31); [reflexivity| |].
  - unfold len, sizeof_name in Hn. lia.
  - now rewrite Hz.
Qed.

Lemma slice_rest buf off x :
  holds buf off x ->
  exists rest, slice buf off (len buf - off) = Some (x ++ rest).
Proof.
  intros H. pose proof (holds_end _ _ _ H) as [He H0].
  pose proof (len_nonneg x) as Hx.
  unfold holds, slice in H.
  destruct ((0 <=? off) && (0 <=? len x) && (off + len x <=? len buf));
    [|discriminate].
  injection H as H.
  exists (skipn (Z.to_nat (len x)) (skipn (Z.to_nat off) buf)).
  unfold slice.
  replace ((0 <=? off) && (0 <=? len buf - off) && (off + (len buf - off) <=? len buf))
    with true by (symmetry; rewrite !andb_true_iff, !Z.leb_le; lia).
  f_equal. rewrite <- H at 1. rewrite firstn_skipn.
  apply firstn_all2. rewrite length_skipn. unfold len. lia.
Qed.

Lemma tree_text_Node print_indent text_of verbose ps cs depth before :
  tree_text print_indent text_of verbose (Node ps cs) depth before
  = match name_of ps before with
    | None => None
    | Some view =>
        match Driver.c_str view with
        | None => None
        | Some s =>
            forest_text print_indent text_of verbose cs (Z.succ depth)
              (print_indent depth ++ s ++ lit ":" ++ Driver.newline
               ++ flat_map (property_line print_indent text_of verbose (Z.succ depth)) ps)
              (Some view)
        end
    end.
Proof. reflexivity. Qed.

Lemma forest_text_cons print_indent text_of verbose c cs depth text nm :
  forest_text print_indent text_of verbose (c :: cs) depth text nm
  = match tree_text print_indent text_of verbose c depth nm with
    | None => None
    | Some (text', nm') =>
        forest_text print_indent text_of verbose cs depth (text ++ text') nm'
    end.
Proof. reflexivity. Qed.

(** The scan for the name of a node. *)
Lemma find_node_name_scan ps : forall depth st,
  exists st',
    observe None (Some Driver.find_node_name_cb) (map (property_event depth) ps) st
    = (st', false)
    /\ Driver.node_name st' = name_of ps (Driver.node_name st)
    /\ Driver.sb st' = Driver.sb st
    /\ Driver.stdout st' = Driver.stdout st
    /\ Driver.lost st' = Driver.lost st.
Proof.
  induction ps as [|p ps IH]; intros depth st; cbn [map observe name_of fold_left].
  - exists st. auto.
  - cbn [deliver property_event]. unfold Driver.find_node_name_cb at 1.
    destruct (strcmp_eq (cstring (prop_name p)) (lit "name")) eqn:E.
    + destruct (IH depth (Driver.set_node_name st (prop_value p)))
        as (st' & H & Hn & Hs & Ho & Hl).
      exists st'. rewrite H. unfold name_of in *. cbn [fold_left]. rewrite ?E.
      cbn [Driver.set_node_name Driver.node_name Driver.sb Driver.stdout
           Driver.lost] in *. auto.
    + destruct (IH depth st) as (st' & H & Hn & Hs & Ho & Hl).
      exists st'. rewrite H. unfold name_of in *. cbn [fold_left]. rewrite ?E. auto.
Qed.

Section DriverWalk.
Variable print_indent : Z -> list byte.
Variable print_property : strbuf -> list byte -> list byte -> bool * strbuf.
Variable text_of : list byte -> list byte -> list byte.
Variable verbose : bool.
Hypothesis Hprint : forall sb name value,
  driver_sink verbose sb -> 0 < len value -> len value < 2 ^ 31 ->
  driver_sink verbose (snd (print_property (rewind sb) name value))
  /\ contents (snd (print_property (rewind sb) name value))
     ++ (if fst (print_property (rewind sb) name value) then lit "" else lit "...")
     = shown_value verbose (text_of name value).
Variable buf : list byte.

Local Abbreviation ncb := (Some (Driver.node_cb print_indent buf)).
Local Abbreviation pcb := (Some (Driver.property_cb print_indent print_property)).

Lemma driver_quiet : quiet ncb pcb.
Proof.
  intros [depth node size np nc | depth name value size] st; cbn [deliver].
  - unfold Driver.node_cb. destruct (slice buf node size); [|reflexivity].
    destruct (devicetree_node_scan_properties _ _ _) as [[ok st1]|]; [|reflexivity].
    cbv zeta. destruct (Driver.node_name _); [|reflexivity].
    destruct (Driver.c_str _); reflexivity.
  - unfold Driver.property_cb. destruct (Driver.c_str name); reflexivity.
Qed.

(** The node observer on a node of a valid tree. *)
Lemma node_cb_valid ps cs off depth st view s :
  valid_tree (Node ps cs) = true ->
  holds buf off (encode (Node ps cs)) ->
  name_of ps (Driver.node_name st) = Some view ->
  Driver.c_str view = Some s ->
  exists st',
    Driver.node_cb print_indent buf depth off (len buf - off) (len ps) (len cs) st
    = (st', false)
    /\ Driver.node_name st' = Some view
    /\ Driver.sb st' = Driver.sb st
    /\ Driver.stdout st'
       = Driver.stdout st ++ print_indent depth ++ s ++ lit ":" ++ Driver.newline
    /\ Driver.lost st' = Driver.lost st.
Proof.
  intros Hv Hh Hname Hs.
  pose proof (valid_tree_inv _ _ Hv) as (Hps & Hcs & Hvps & Hvcs).
  destruct (slice_rest buf off _ Hh) as [rest Hslice].
  unfold Driver.node_cb. rewrite Hslice.
  cbn [encode]. rewrite <- !app_assoc.
  rewrite (scan_header_and_properties (Some Driver.find_node_name_cb) ps (len cs)
             (flat_map encode cs ++ rest) st Hvps Hps)
    by (pose proof (len_nonneg cs); lia).
  destruct (find_node_name_scan ps 1 st) as (st1 & Hscan & Hn & Hsb & Hout & Hl).
  rewrite Hscan.
  assert (Hok : false || (len cs =? 0) || (sizeof_node <=? len (flat_map encode cs ++ rest))
                = true).
  { destruct cs as [|c cs']; [reflexivity|].
    cbn [orb flat_map]. apply orb_true_iff. right. apply Z.leb_le.
    rewrite !len_app. pose proof (len_encode_ge c).
    pose proof (len_nonneg (flat_map encode cs')). pose proof (len_nonneg rest).
    lia. }
  rewrite Hok. cbn [negb]. rewrite Hn, Hname, Hs.
  eexists. split; [reflexivity|].
  cbn [Driver.printf Driver.node_name Driver.sb Driver.stdout Driver.lost].
  rewrite Hn, Hname, Hsb, Hout, Hl. auto.
Qed.

(** The property observer over the properties of a node. *)
Lemma property_cb_valid ps : forall depth st,
  forallb valid_property ps = true ->
  driver_sink verbose (Driver.sb st) ->
  exists st',
    observe ncb pcb (map (property_event depth) ps) st = (st', false)
    /\ Driver.node_name st' = Driver.node_name st
    /\ driver_sink verbose (Driver.sb st')
    /\ Driver.stdout st'
       = Driver.stdout st
         ++ flat_map (property_line print_indent text_of verbose depth) ps
    /\ Driver.lost st' = Driver.lost st.
Proof.
  induction ps as [|p ps IH]; intros depth st Hv Hsink; cbn [map observe flat_map].
  - exists st. rewrite app_nil_r. auto.
  - cbn [forallb] in Hv. apply andb_prop in Hv as [Hp Hps].
    cbn [deliver property_event]. unfold Driver.property_cb at 1.
    rewrite (valid_name_c_str p Hp).
    pose proof (valid_property_inv _ Hp) as (_ & _ & Hsz).
    pose proof (len_nonneg (prop_value p)) as H0.
    set (name := cstring (prop_name p)).
    set (value := prop_value p) in *.
    cbn [Driver.printf Driver.sb].
    destruct (0 <? len value) eqn:Epos.
    + apply Z.ltb_lt in Epos.
      destruct (Hprint (Driver.sb st) name value Hsink Epos (proj2 Hsz)) as [Hsink' Htext].
      destruct (print_property (rewind (Driver.sb st)) name value)
        as [complete sb'] eqn:Ep.
      cbn [fst snd] in Hsink', Htext.
      match goal with
      | |- context [observe ncb pcb _ ?s] =>
          destruct (IH depth s Hps) as (st' & Hobs & Hn & Hs & Ho & Hl);
            [exact Hsink'|]
      end.
      exists st'. rewrite Hobs. split; [reflexivity|].
      split; [exact Hn|]. split; [exact Hs|]. split; [|exact Hl].
      rewrite Ho.
      cbn [Driver.printf Driver.set_sb Driver.stdout Driver.sb].
      unfold property_line. fold name. fold value.
      replace (0 <? len value) with true by (symmetry; apply Z.ltb_lt; lia).
      rewrite <- Htext. rewrite <- !app_assoc. reflexivity.
    + match goal with
      | |- context [observe ncb pcb _ ?s] =>
          destruct (IH depth s Hps) as (st' & Hobs & Hn & Hs & Ho & Hl);
            [exact Hsink|]
      end.
      exists st'. rewrite Hobs. split; [reflexivity|].
      split; [exact Hn|]. split; [exact Hs|]. split; [|exact Hl].
      rewrite Ho. cbn [Driver.printf Driver.stdout].
      unfold property_line. fold name. fold value. rewrite Epos.
      rewrite <- !app_assoc. reflexivity.
Qed.

(** The observers over consecutive subtrees. *)
Lemma walk_forest cs :
  Forall (fun t => forall depth off st txt nm',
            valid_tree t = true -> holds buf off (encode t) ->
            driver_sink verbose (Driver.sb st) ->
            tree_text print_indent text_of verbose t depth (Driver.node_name st)
            = Some (txt, nm') ->
            exists st',
              observe ncb pcb (events (len buf) t depth off) st = (st', false)
              /\ Driver.node_name st' = nm'
              /\ driver_sink verbose (Driver.sb st')
              /\ Driver.stdout st' = Driver.stdout st ++ txt
              /\ Driver.lost st' = Driver.lost st) cs ->
  forall depth off st text0 txt nm',
    forallb valid_tree cs = true -> holds buf off (flat_map encode cs) ->
    driver_sink verbose (Driver.sb st) ->
    forest_text print_indent text_of verbose cs depth text0 (Driver.node_name st)
    = Some (txt, nm') ->
    exists st' added,
      observe ncb pcb (forest_events Z.succ (len buf) cs depth off) st = (st', false)
      /\ txt = text0 ++ added
      /\ Driver.node_name st' = nm'
      /\ driver_sink verbose (Driver.sb st')
      /\ Driver.stdout st' = Driver.stdout st ++ added
      /\ Driver.lost st' = Driver.lost st.
Proof.
  induction 1 as [|c cs Hc _ IH]; intros depth off st text0 txt nm' Hv Hh Hsink Ht.
  - cbn in Ht. injection Ht as <- <-. exists st, [].
    rewrite !app_nil_r. cbn. auto 10.
  - cbn [forallb] in Hv. apply andb_prop in Hv as [Hvc Hvcs].
    cbn [flat_map] in Hh. apply holds_app in Hh as [Hh1 Hh2].
    rewrite forest_text_cons in Ht.
    destruct (tree_text print_indent text_of verbose c depth (Driver.node_name st))
      as [[text1 nm1]|] eqn:Et; [|discriminate].
    destruct (Hc depth off st text1 nm1 Hvc Hh1 Hsink Et)
      as (st1 & Hobs1 & Hn1 & Hs1 & Ho1 & Hl1).
    rewrite <- Hn1 in Ht.
    destruct (IH depth (off + len (encode c)) st1 (text0 ++ text1) txt nm'
                Hvcs Hh2 Hs1 Ht) as (st2 & added & Hobs2 & Htxt & Hn2 & Hs2 & Ho2 & Hl2).
    exists st2, (text1 ++ added).
    rewrite forest_events_cons, observe_app. fold (events (len buf) c depth off).
    rewrite Hobs1, Hobs2. split; [reflexivity|].
    split; [now rewrite Htxt, app_assoc|]. split; [exact Hn2|].
    split; [exact Hs2|]. split; [now rewrite Ho2, Ho1, app_assoc | congruence].
Qed.

(** The observers over a valid tree print the lines of the tree. *)
Lemma walk_tree t : forall depth off st txt nm',
  valid_tree t = true -> holds buf off (encode t) ->
  driver_sink verbose (Driver.sb st) ->
  tree_text print_indent text_of verbose t depth (Driver.node_name st)
  = Some (txt, nm') ->
  exists st',
    observe ncb pcb (events (len buf) t depth off) st = (st', false)
    /\ Driver.node_name st' = nm'
    /\ driver_sink verbose (Driver.sb st')
    /\ Driver.stdout st' = Driver.stdout st ++ txt
    /\ Driver.lost st' = Driver.lost st.
Proof.
  induction t as [ps cs IH] using tree_induction.
  intros depth off st txt nm' Hv Hh Hsink Ht.
  pose proof (valid_tree_inv _ _ Hv) as (Hps & Hcs & Hvps & Hvcs).
  rewrite tree_text_Node in Ht.
  destruct (name_of ps (Driver.node_name st)) as [view|] eqn:En; [|discriminate].
  destruct (Driver.c_str view) as [s|] eqn:Es; [|discriminate].
  destruct (node_cb_valid ps cs off depth st view s Hv Hh En Es)
    as (st1 & Hnode & Hn1 & Hs1 & Ho1 & Hl1).
  pose proof Hh as Hh'.
  apply holds_encode_Node in Hh' as (_ & Hprops & Hkids).
  destruct (property_cb_valid ps (Z.succ depth) st1 Hvps)
    as (st2 & Hobs2 & Hn2 & Hs2 & Ho2 & Hl2); [now rewrite Hs1|].
  rewrite <- Hn1, <- Hn2 in Ht.
  destruct (walk_forest cs IH (Z.succ depth) _ st2 _ txt nm' Hvcs Hkids Hs2 Ht)
    as (st3 & added & Hobs3 & Htxt & Hn3 & Hs3 & Ho3 & Hl3).
  exists st3. unfold events. rewrite events_from_Node.
  cbn [observe deliver]. rewrite Hnode. rewrite observe_app, Hobs2, Hobs3.
  split; [reflexivity|]. split; [exact Hn3|]. split; [exact Hs3|].
  split; [|congruence].
  rewrite Ho3, Ho2, Ho1, Htxt. rewrite <- !app_assoc. reflexivity.
Qed.

(** [devicetree_print] on a valid tree followed by any bytes. *)
Lemma devicetree_print_valid t rest txt nm :
  valid_tree t = true -> Z.of_nat (height t) < 2 ^ 32 ->
  buf = encode t ++ rest ->
  tree_text print_indent text_of verbose t 0 None = Some (txt, nm) ->
  Driver.devicetree_print print_indent print_property buf verbose
  = Some (len rest =? 0, txt).
Proof.
  intros Hv Hheight Hbuf Ht.
  set (st0 := {| Driver.node_name := None;
                 Driver.sb := strbuf_alloc (if verbose then u64 (-1) else 64);
                 Driver.stdout := []; Driver.lost := false |}).
  assert (Hh : holds buf 0 (encode t)) by (rewrite Hbuf; apply holds_prefix).
  destruct (walk_tree t 0 0 st0 txt nm Hv Hh (driver_sink_alloc verbose) Ht)
    as (st' & Hobs & _ & _ & Hout & Hlost).
  rewrite <- (events32_events t (len buf) 0 0) in Hobs by lia.
  unfold Driver.devicetree_print. cbv zeta. fold st0.
  rewrite (devicetree_iterate_fuel _ _ _ (height t)).
  destruct (iterate_node_valid ncb pcb t buf
              (Nat.max (height t) (Datatypes.S (length buf))) 0 0 st0
              Hv Hh ltac:(lia)) as [d Hd].
  rewrite Hd, Hobs. rewrite Hlost. cbn [Driver.lost st0].
  rewrite Hout. cbn [Driver.stdout st0 app andb]. f_equal. f_equal.
  rewrite Hbuf, len_app. pose proof (len_nonneg rest).
  destruct (Z.eqb_spec (len rest) 0); [apply Z.eqb_eq | apply Z.eqb_neq]; lia.
Qed.
End DriverWalk.

(** ** [devicetree_print] and [main] *)

Lemma print_of_valid_tree (t : tree) (rest : list byte)
    (print_verbose print_tree : bool) :
  valid_tree t = true -> Z.of_nat (height t) < 2 ^ 32 ->
  (forall txt nm,
      tree_text (MainTool.print_indent print_tree) main_text print_verbose t 0 None
      = Some (txt, nm) ->
      MainTool.devicetree_print print_verbose print_tree (encode t ++ rest)
      = Some (len rest =? 0, txt))
  /\ (forall txt nm,
         tree_text Part001Tool.print_indent part001_text print_verbose t 0 None
         = Some (txt, nm) ->
         Part001Tool.devicetree_print print_verbose (encode t ++ rest)
         = Some (len rest =? 0, txt)).
Proof.
  intros Hv Hh. split; intros txt nm Ht.
  - unfold MainTool.devicetree_print.
    apply (devicetree_print_valid (MainTool.print_indent print_tree)
             Main.print_property main_text print_verbose
             (fun sb name value => main_print_on_driver_sink print_verbose sb name value)
             (encode t ++ rest) t rest txt nm Hv Hh eq_refl Ht).
  - unfold Part001Tool.devicetree_print.
    apply (devicetree_print_valid Part001Tool.print_indent
             Part001.print_property part001_text print_verbose
             (fun sb name value =>
                part001_print_on_driver_sink print_verbose sb name value)
             (encode t ++ rest) t rest txt nm Hv Hh eq_refl Ht).
Qed.

(** X16.  What [devicetree_print] prints, in both variants, for a valid
    tree whose names can all be printed: the root has a property called
    name, and the value in use as the name of each node (the value of its
    last property called name, or else the name in use before the node)
    holds a terminator; this is when [tree_text] is defined.  For each
    node, in the order of the buffer, it prints a line with the name in
    use, then a line for each of its properties, one level deeper, then its
    children.  A property line has the name, the size, and for a value
    that is not empty its text: whole with -v or when shorter than 64
    characters, else its first 63 characters and three dots.  The result
    is true exactly when nothing follows the tree in the buffer.  Nothing
    is said of a tree with a name that has no terminator or with a root
    that has no name. *)
Theorem devicetree_print_shows_the_tree (t : tree) (rest : list byte)
    (print_verbose print_tree : bool) :
  valid_tree t = true -> Z.of_nat (height t) < 2 ^ 32 ->
  (forall txt nm,
      tree_text (MainTool.print_indent print_tree) main_text print_verbose t 0 None
      = Some (txt, nm) ->
      MainTool.devicetree_print print_verbose print_tree (encode t ++ rest)
      = Some (len rest =? 0, txt))
  /\ (forall txt nm,
         tree_text Part001Tool.print_indent part001_text print_verbose t 0 None
         = Some (txt, nm) ->
         Part001Tool.devicetree_print print_verbose (encode t ++ rest)
         = Some (len rest =? 0, txt)).
Proof. apply print_of_valid_tree. Qed.

Lemma devicetree_print_shows_the_tree_witness :
  valid_tree example_tree = true /\ Z.of_nat (height example_tree) < 2 ^ 32
  /\ tree_text (MainTool.print_indent false) main_text false example_tree 0 None
     = Some (example_text, Some (lit "dt" ++ [Byte.x00]))
  /\ MainTool.devicetree_print false false (encode example_tree ++ [Byte.x00])
     = Some (len [Byte.x00] =? 0, example_text).
Proof.
  assert (H1 : valid_tree example_tree = true) by (vm_compute; reflexivity).
  assert (H2 : Z.of_nat (height example_tree) < 2 ^ 32) by (vm_compute; reflexivity).
  assert (H3 : tree_text (MainTool.print_indent false) main_text false example_tree
                 0 None = Some (example_text, Some (lit "dt" ++ [Byte.x00])))
    by (vm_compute; reflexivity).
  split; [exact H1|]. split; [exact H2|]. split; [exact H3|].
  exact (proj1 (devicetree_print_shows_the_tree example_tree [Byte.x00] false false
                  H1 H2) _ _ H3).
Defined.

Lemma bytes_eqb_eq a : forall b, bytes_eqb a b = true -> a = b.
Proof.
  induction a as [|x a IH]; intros [|y b] H; try discriminate H; [reflexivity|].
  cbn [bytes_eqb] in H. apply andb_prop in H as [Hx Hr].
  apply Byte.byte_dec_bl in Hx. subst y. f_equal. now apply IH.
Qed.

(** The loop over the options: it takes every leading -v and -t. *)
Lemma parse_options_flags flags : forall rest v t,
  Forall (fun a => is_option a = true) flags ->
  match rest with
  | [] => True
  | a :: _ => is_option a = false
  end ->
  MainTool.parse_options (flags ++ rest) v t
  = (v || existsb (fun a => strcmp_eq a (lit "-v")) flags,
     t || existsb (fun a => strcmp_eq a (lit "-t")) flags, rest).
Proof.
  induction flags as [|a flags IH]; intros rest v t Hf Hr.
  - cbn [app existsb]. rewrite !orb_false_r.
    destruct rest as [|b rest']; [reflexivity|].
    cbn [MainTool.parse_options]. unfold is_option in Hr.
    apply orb_false_iff in Hr as [-> ->]. reflexivity.
  - pose proof (Forall_inv Hf) as Ha. pose proof (Forall_inv_tail Hf) as Hfs.
    cbv beta in Ha. unfold is_option in Ha.
    cbn [app MainTool.parse_options existsb].
    destruct (strcmp_eq a (lit "-v")) eqn:Ev.
    + assert (Et : strcmp_eq a (lit "-t") = false).
      { destruct (strcmp_eq a (lit "-t")) eqn:Et; [|reflexivity].
        apply bytes_eqb_eq in Ev, Et. rewrite Ev in Et. discriminate Et. }
      rewrite Et, (IH rest true t Hfs Hr). cbn [orb]. now rewrite orb_true_r.
    + cbn [orb] in Ha. rewrite Ha. rewrite (IH rest v true Hfs Hr).
      cbn [orb]. now rewrite orb_true_r.
Qed.

(** X17.  The arguments of the header's [main]: the leading arguments
    that are -v or -t are options, in any order and any number of times;
    exactly one argument must be left after them, the file (so a file
    cannot be called -v or -t, and nothing may follow the file);
    otherwise the usage line is printed and the status is 1.  The status
    is 2 when the file cannot be mapped, 3 when [devicetree_print] returns
    false, and 0 when it returns true. *)
Theorem main_takes_leading_options
    (mmap_file : list byte -> option (list byte))
    (progname arg0 : list byte) (flags rest : list (list byte)) :
  Forall (fun a => is_option a = true) flags ->
  match rest with
  | [] => True
  | a :: _ => is_option a = false
  end ->
  MainTool.main mmap_file progname (arg0 :: flags ++ rest)
  = match rest with
    | [file] =>
        match mmap_file file with
        | None => Some (2, [])
        | Some data =>
            match MainTool.devicetree_print
                    (existsb (fun a => strcmp_eq a (lit "-v")) flags)
                    (existsb (fun a => strcmp_eq a (lit "-t")) flags) data with
            | None => None
            | Some (ok, out) => Some (if ok then 0 else 3, out)
            end
        end
    | _ => Some (1, MainTool.usage progname)
    end.
Proof.
  intros Hf Hr. unfold MainTool.main. cbn [tl].
  rewrite (parse_options_flags flags rest false false Hf Hr). cbn [orb].
  destruct rest as [|file [|x rest']]; try reflexivity.
  unfold Driver.run, MainTool.devicetree_print.
  destruct (mmap_file file); [|reflexivity].
  destruct (Driver.devicetree_print _ _ _ _) as [[[|] out]|]; reflexivity.
Qed.

Lemma main_takes_leading_options_witness :
  Forall (fun a => is_option a = true) [lit "-t"; lit "-v"; lit "-t"]
  /\ is_option (lit "dt.bin") = false
  /\ MainTool.main example_files (lit "devicetree-parse")
       (lit "./devicetree-parse" :: [lit "-t"; lit "-v"; lit "-t"] ++ [lit "dt.bin"])
     = match example_files (lit "dt.bin") with
       | None => Some (2, [])
       | Some data =>
           match MainTool.devicetree_print
                   (existsb (fun a => strcmp_eq a (lit "-v"))
                      [lit "-t"; lit "-v"; lit "-t"])
                   (existsb (fun a => strcmp_eq a (lit "-t"))
                      [lit "-t"; lit "-v"; lit "-t"]) data with
           | None => None
           | Some (ok, out) => Some (if ok then 0 else 3, out)
           end
       end.
Proof.
  assert (H1 : Forall (fun a => is_option a = true) [lit "-t"; lit "-v"; lit "-t"])
    by (repeat constructor).
  assert (H2 : is_option (lit "dt.bin") = false) by reflexivity.
  split; [exact H1|]. split; [exact H2|].
  exact (main_takes_leading_options example_files (lit "devicetree-parse")
           (lit "./devicetree-parse") [lit "-t"; lit "-v"; lit "-t"] [lit "dt.bin"]
           H1 H2).
Defined.

(** X18.  From the command line to the exit status, in both variants,
    with the file as the only argument.  When the file cannot be mapped
    the tool prints nothing and exits with 2.  When the file holds a valid
    tree whose names can all be printed (the root has a property called
    name and every value in use as a name holds a terminator: [tree_text]
    is defined), the tool prints the lines of the tree and exits with 0;
    when bytes follow such a tree in the file it prints the same lines and
    exits with 3.  Nothing is said of a tree with a name that has no
    terminator or with a root that has no name. *)
Theorem tool_exit_status
    (mmap_file : list byte -> option (list byte))
    (progname arg0 file : list byte) (t : tree) (rest : list byte) :
  is_option file = false ->
  valid_tree t = true -> Z.of_nat (height t) < 2 ^ 32 ->
  (mmap_file file = None ->
   MainTool.main mmap_file progname [arg0; file] = Some (2, [])
   /\ Part001Tool.main mmap_file progname [arg0; file] = Some (2, []))
  /\ (mmap_file file = Some (encode t ++ rest) ->
      (forall txt nm,
          tree_text (MainTool.print_indent false) main_text false t 0 None
          = Some (txt, nm) ->
          MainTool.main mmap_file progname [arg0; file]
          = Some (if len rest =? 0 then 0 else 3, txt))
      /\ (forall txt nm,
             tree_text Part001Tool.print_indent part001_text false t 0 None
             = Some (txt, nm) ->
             Part001Tool.main mmap_file progname [arg0; file]
             = Some (if len rest =? 0 then 0 else 3, txt))).
Proof.
  intros Hfile Hv Hh.
  assert (Hmain : MainTool.main mmap_file progname [arg0; file]
                  = Driver.run mmap_file (MainTool.print_indent false)
                      Main.print_property false file).
  { unfold MainTool.main. cbn [tl MainTool.parse_options].
    unfold is_option in Hfile. apply orb_false_iff in Hfile as [-> ->].
    reflexivity. }
  rewrite Hmain. cbn [Part001Tool.main]. unfold Driver.run.
  split; [intros ->; split; reflexivity|].
  intros ->.
  destruct (print_of_valid_tree t rest false false Hv Hh) as [H1 H2].
  split; intros txt nm Ht.
  - unfold MainTool.devicetree_print in H1. rewrite (H1 txt nm Ht).
    now destruct (len rest =? 0).
  - unfold Part001Tool.devicetree_print in H2. rewrite (H2 txt nm Ht).
    now destruct (len rest =? 0).
Qed.

Lemma tool_exit_status_witness :
  is_option (lit "dt.bin") = false
  /\ valid_tree example_tree = true /\ Z.of_nat (height example_tree) < 2 ^ 32
  /\ example_files (lit "dt.bin") = Some (encode example_tree ++ [])
  /\ tree_text (MainTool.print_indent false) main_text false example_tree 0 None
     = Some (example_text, Some (lit "dt" ++ [Byte.x00]))
  /\ MainTool.main example_files (lit "devicetree-parse")
       [lit "./devicetree-parse"; lit "dt.bin"]
     = Some (if len (@nil byte) =? 0 then 0 else 3, example_text).
Proof.
  assert (H0 : is_option (lit "dt.bin") = false) by reflexivity.
  assert (H1 : valid_tree example_tree = true) by (vm_compute; reflexivity).
  assert (H2 : Z.of_nat (height example_tree) < 2 ^ 32) by (vm_compute; reflexivity).
  assert (H3 : example_files (lit "dt.bin") = Some (encode example_tree ++ []))
    by (vm_compute; reflexivity).
  assert (H4 : tree_text (MainTool.print_indent false) main_text false example_tree
                 0 None = Some (example_text, Some (lit "dt" ++ [Byte.x00])))
    by (vm_compute; reflexivity).
  split; [exact H0|]. split; [exact H1|]. split; [exact H2|]. split; [exact H3|].
  split; [exact H4|].
  exact (proj1 (proj2 (tool_exit_status example_files (lit "devicetree-parse")
                         (lit "./devicetree-parse") (lit "dt.bin") example_tree []
                         H0 H1 H2) H3) _ _ H4).
Defined.

(** ** An invariant of the observers on a buffer that is cut *)

Section CutInvariant.
Context {S : Type}.
Variable node_cb : option (node_callback S).
Variable property_cb : option (property_callback S).
Variable Inv : S -> Prop.
Variable good : tree -> Prop.
Variable B : list byte.
Variable k : Z.
Hypothesis Hk : 0 <= k <= len B.
Hypothesis Hq : quiet node_cb property_cb.
Hypothesis good_valid : forall t, good t -> valid_tree t = true.
Hypothesis good_children : forall ps cs, good (Node ps cs) -> Forall good cs.
Hypothesis Hprop : forall ps cs p depth st,
  good (Node ps cs) -> In p ps -> Inv st ->
  Inv (fst (deliver node_cb property_cb (property_event depth p) st)).
Hypothesis Hnode : forall depth off ps cs st,
  good (Node ps cs) -> holds B off (encode (Node ps cs)) ->
  off + sizeof_node <= k -> Inv st ->
  Inv (fst (deliver node_cb property_cb
              (NodeEntered depth off (k - off) (len ps) (len cs)) st)).

Local Abbreviation cut := (firstn (Z.to_nat k) B).
Local Abbreviation walk_cut := (devicetree_iterate_node (S := S) cut node_cb property_cb).

Lemma len_cut : len cut = k.
Proof. apply len_firstn. exact Hk. Qed.

(** The property loop on the cut buffer hands over properties of the
    node only, whole ones. *)
Lemma properties_keep_invariant ps : forall depth p st,
  forallb valid_property ps = true ->
  (forall q d s, In q ps -> Inv s ->
                 Inv (fst (deliver node_cb property_cb (property_event d q) s))) ->
  holds B p (flat_map encode_property ps) ->
  Inv st ->
  match iterate_properties cut property_cb (length ps) depth p st with
  | LFault => True
  | LReturn _ _ st' => Inv st'
  | LNext _ st' => Inv st'
  end.
Proof using Hk Hq.
  clear good good_valid good_children Hprop Hnode.
  induction ps as [|pr ps IH]; intros depth p st Hv Hin Hh Hst;
    cbn [length iterate_properties]; [exact Hst|].
  cbn [forallb] in Hv. apply andb_prop in Hv as [Hpr Hps].
  cbn [flat_map] in Hh.
  pose proof (holds_end _ _ _ Hh) as [Hend Hp0]. rewrite len_app in Hend.
  apply holds_app in Hh as [Hh1 Hh2].
  pose proof (len_nonneg (flat_map encode_property ps)) as Hrest.
  pose proof len_cut as Hlen.
  assert (Hcall : forall st1 stop cb,
             property_cb = Some cb ->
             cb (u32 (depth + 1)) (prop_name pr) (prop_value pr)
               (len (prop_value pr)) st = (st1, stop) ->
             stop = false /\ Inv st1).
  { intros st1 stop cb Ecb Ecall.
    pose proof (Hq (property_event (u32 (depth + 1)) pr) st) as Hs.
    pose proof (Hin pr (u32 (depth + 1)) st (or_introl eq_refl) Hst) as Hi.
    cbn [deliver property_event] in Hs, Hi. rewrite Ecb, Ecall in Hs, Hi.
    cbn [fst snd] in Hs, Hi. split; assumption. }
  assert (Hin' : forall q d s, In q ps -> Inv s ->
                   Inv (fst (deliver node_cb property_cb (property_event d q) s))).
  { intros q d s Hq' Hs. apply Hin; [right; exact Hq' | exact Hs]. }
  destruct (Z.lt_ge_cases k p) as [Hbefore | Hp].
  { (* the header is past the cut *)
    unfold parse_property, data_end, sizeof_prop.
    replace (len cut <? p + 36) with true by (symmetry; apply Z.ltb_lt; lia).
    exact Hst. }
  destruct (Z.le_gt_cases (p + len (encode_property pr)) k) as [Hwhole | Hcut].
  - (* the property is before the cut *)
    assert (Hh1' : holds cut p (encode_property pr))
      by (apply holds_firstn; auto; lia).
    destruct (parse_valid_property _ _ _ Hpr Hh1') as (Hparse & Hname & Hval).
    rewrite Hparse. cbn [pp_name pp_value pp_size pp_next].
    destruct property_cb as [cb|] eqn:Ecb.
    + rewrite Hname, Hval.
      destruct (cb (u32 (depth + 1)) (prop_name pr) (prop_value pr)
                  (len (prop_value pr)) st) as [st1 stop] eqn:Ecall.
      destruct (Hcall st1 stop cb eq_refl Ecall) as [-> Hst1].
      now apply IH.
    + now apply IH.
  - (* the cut is inside the property *)
    pose proof (parse_cut_property B k p pr Hpr Hh1 ltac:(lia)) as Hcutp.
    cbv zeta in Hcutp.
    destruct (k =? p + sizeof_prop + len (prop_value pr)) eqn:E.
    + destruct Hcutp as (Hparse & Hname & Hval).
      rewrite Hparse. cbn [pp_name pp_value pp_size pp_next].
      assert (Hnext : forall st1, Inv st1 ->
                match iterate_properties cut property_cb (length ps) depth k st1 with
                | LFault => True
                | LReturn _ _ st' => Inv st'
                | LNext _ st' => Inv st'
                end).
      { intros st1 Hst1. destruct ps as [|q ps']; cbn [length iterate_properties];
          [exact Hst1|].
        unfold parse_property, data_end, sizeof_prop.
        replace (len cut <? k + 36) with true by (symmetry; apply Z.ltb_lt; lia).
        exact Hst1. }
      destruct property_cb as [cb|] eqn:Ecb.
      * rewrite Hname, Hval.
        destruct (cb (u32 (depth + 1)) (prop_name pr) (prop_value pr)
                    (len (prop_value pr)) st) as [st1 stop] eqn:Ecall.
        destruct (Hcall st1 stop cb eq_refl Ecall) as [-> Hst1].
        now apply Hnext.
      * now apply Hnext.
    + rewrite Hcutp. exact Hst.
Qed.

(** The walk of consecutive subtrees on the cut buffer. *)
Lemma children_keep_invariant fuel cs :
  Forall (fun t => forall off depth st,
            good t -> holds B off (encode t) -> Inv st ->
            (height t <= fuel)%nat ->
            match walk_cut fuel off depth st with
            | Return _ _ _ st' => Inv st'
            | _ => True
            end) cs ->
  forall off depth st,
    Forall good cs -> holds B off (flat_map encode cs) -> Inv st ->
    Forall (fun c => (height c <= fuel)%nat) cs ->
    match iterate_children (fun d s => walk_cut fuel d depth s) (length cs) off st with
    | Return _ _ _ st' => Inv st'
    | _ => True
    end.
Proof.
  induction 1 as [|c cs Hc _ IH]; intros off depth st Hg Hh Hst Hf;
    cbn [length iterate_children]; [exact Hst|].
  pose proof (Forall_inv Hg) as Hgc. pose proof (Forall_inv_tail Hg) as Hgcs.
  pose proof (Forall_inv Hf) as Hfc. pose proof (Forall_inv_tail Hf) as Hfcs.
  cbv beta in Hfc.
  cbn [flat_map] in Hh. apply holds_app in Hh as [Hh1 Hh2].
  pose proof (holds_end _ _ _ Hh1) as [Hend H0].
  pose proof len_cut as Hlen.
  specialize (Hc off depth st Hgc Hh1 Hst Hfc).
  destruct (walk_cut fuel off depth st) as [| |ok d stop st1] eqn:Ew; try exact I.
  destruct ok; [|exact Hc]. destruct stop; [exact Hc|].
  pose proof (good_valid c Hgc) as Hvc.
  destruct (Z.le_gt_cases (off + len (encode c)) k) as [Hwhole | Hcutc].
  - (* the subtree is before the cut: the cursor is at its end *)
    assert (Hh1' : holds cut off (encode c)) by (apply holds_firstn; auto; lia).
    destruct (iterate_node_valid node_cb property_cb c cut fuel off depth st
                Hvc Hh1' Hfc) as [d' Hd'].
    rewrite Ew in Hd'.
    pose proof (quiet_observe node_cb property_cb
                  (events32 (len cut) c depth off) st Hq) as Hs.
    destruct (observe node_cb property_cb _ st) as [st' stop']. cbn in Hs.
    subst stop'. injection Hd' as -> _. now apply IH.
  - (* the cut is in the subtree or before it: the cursor is at the cut *)
    assert (Hd : d = k \/ k < off + sizeof_node).
    { destruct (Z.lt_ge_cases k (off + sizeof_node)) as [Hs | Hl]; [now right|left].
      assert (Hoff : off <= k) by (unfold sizeof_node in Hl; lia).
      pose proof (iterate_node_cut node_cb property_cb Hq c B k fuel off depth st
                    Hvc Hh1 ltac:(lia) Hfc) as Hcut'.
      cbv zeta in Hcut'. rewrite Ew in Hcut'.
      destruct Hcut' as [(_ & d' & st' & E) | (_ & st' & E)]; [discriminate E|].
      now injection E as -> _. }
    destruct Hd as [-> | Hshort].
    2: { (* the header was past the cut: the walk of the subtree had failed *)
      destruct fuel as [|fuel']; [discriminate Ew|].
      rewrite iterate_node_short in Ew by lia. discriminate Ew. }
    destruct cs as [|c' cs']; cbn [length iterate_children]; [exact Hc|].
    pose proof (Forall_inv Hfcs) as Hfc'. cbv beta in Hfc'.
    destruct fuel as [|fuel']; [discriminate Ew|].
    rewrite iterate_node_short by (unfold sizeof_node; lia). exact Hc.
Qed.

(** The walk of a subtree on the cut buffer. *)
Lemma tree_keeps_invariant t : forall fuel off depth st,
  good t -> holds B off (encode t) -> Inv st ->
  (height t <= fuel)%nat ->
  match walk_cut fuel off depth st with
  | Return _ _ _ st' => Inv st'
  | _ => True
  end.
Proof.
  induction t as [ps cs IH] using tree_induction.
  intros fuel off depth st Hg Hh Hst Hf.
  destruct fuel as [|fuel]; [exact I|].
  pose proof (good_valid _ Hg) as Hv.
  pose proof (valid_tree_inv _ _ Hv) as (Hps & Hcs & Hvps & Hvcs).
  pose proof (holds_end _ _ _ Hh) as [Hend Hp0].
  pose proof len_cut as Hlen.
  destruct (Z.lt_ge_cases k (off + sizeof_node)) as [Hshort | Hlong].
  { rewrite iterate_node_short by lia. exact Hst. }
  pose proof Hh as Hh'.
  apply holds_encode_Node in Hh' as (Hhead & Hprops & Hkids).
  assert (Hhead' : holds cut off (le_split 4 (len ps) ++ le_split 4 (len cs))).
  { apply holds_firstn; auto;
      rewrite ?len_app, ?len_le_split; unfold sizeof_node in *; lia. }
  destruct (node_header _ _ _ _ Hv Hhead') as (_ & Hfit & Hnp & Hnc).
  cbn [devicetree_iterate_node]. unfold data_end.
  replace (len cut <? off + sizeof_node) with false
    by (symmetry; apply Z.ltb_ge; lia).
  rewrite Hnp, Hnc.
  replace (len cut - (off + sizeof_node) + sizeof_node) with (k - off) by lia.
  pose proof (Hq (NodeEntered depth off (k - off) (len ps) (len cs)) st) as Hs.
  pose proof (Hnode depth off ps cs st Hg Hh Hlong Hst) as Hi.
  cbn [deliver] in Hs, Hi.
  set (st_stop := match node_cb with
                  | Some cb => cb depth off (k - off) (len ps) (len cs) st
                  | None => (st, false)
                  end) in *.
  destruct st_stop as [st1 stop]. cbn [fst snd] in Hs, Hi. subst stop.
  rewrite !to_nat_len.
  pose proof (properties_keep_invariant ps depth (off + sizeof_node) st1 Hvps
                (fun q d s Hq' Hs' => Hprop ps cs q d s Hg Hq' Hs') Hprops Hi) as Hp.
  destruct (iterate_properties cut property_cb (length ps) depth
              (off + sizeof_node) st1) as [|ok stop st2|p' st2] eqn:Ep;
    [exact I | exact Hp |].
  pose proof (heights_children _ _ _ Hf) as Hfcs.
  pose proof (good_children ps cs Hg) as Hgcs.
  assert (IH' : Forall (fun t => forall off depth st,
                          good t -> holds B off (encode t) -> Inv st ->
                          (height t <= fuel)%nat ->
                          match walk_cut fuel off depth st with
                          | Return _ _ _ st' => Inv st'
                          | _ => True
                          end) cs).
  { revert IH. apply Forall_impl. intros c Hc off' depth' st' Hg' Hh'' Hst' Hf'.
    now apply Hc. }
  destruct (Z.le_gt_cases (off + sizeof_node + len (flat_map encode_property ps)) k)
    as [Hwhole | Hcutp].
  - (* the properties are before the cut *)
    assert (Hprops' : holds cut (off + sizeof_node) (flat_map encode_property ps))
      by (apply holds_firstn; auto; lia).
    rewrite (iterate_properties_valid node_cb property_cb) in Ep by assumption.
    destruct (observe node_cb property_cb _ st1) as [st2' [|]]; [discriminate Ep|].
    injection Ep as <- <-.
    now apply (children_keep_invariant fuel cs IH').
  - (* the cut is in the properties: the loop ended at the cut *)
    pose proof (iterate_properties_cut node_cb property_cb B k ps depth
                  (off + sizeof_node) st1 Hq Hvps Hprops ltac:(lia)) as Hpc.
    cbv zeta in Hpc. rewrite Ep in Hpc.
    destruct Hpc as [(_ & st' & E) | (_ & st' & E)]; [discriminate E|].
    injection E as -> _.
    destruct cs as [|c cs']; cbn [length Z.to_nat iterate_children]; [exact Hp|].
    pose proof (Forall_inv Hfcs) as Hfc. cbv beta in Hfc.
    destruct fuel as [|fuel']; [pose proof (height_pos c); lia|].
    rewrite iterate_node_short by (unfold sizeof_node; lia). exact Hp.
Qed.
End CutInvariant.

(** ** [devicetree_print] on a file that is cut *)

Section CutLoops.
Context {S : Type}.
Variable node_cb : option (node_callback S).
Variable property_cb : option (property_callback S).
Hypothesis Hq : quiet node_cb property_cb.

(** Observers that do not stop never make the property loop return true. *)
Lemma iterate_properties_quiet_return buf n : forall depth p st ok stop st',
  iterate_properties buf property_cb n depth p st = LReturn ok stop st' ->
  ok = false.
Proof.
  induction n as [|n IH]; intros depth p st ok stop st' H;
    cbn [iterate_properties] in H; [discriminate H|].
  destruct (parse_property buf p) as [[pp|]|]; try discriminate H.
  - destruct property_cb as [cb|] eqn:Ecb; [|now apply IH in H].
    destruct (slice buf (pp_name pp) sizeof_name) as [name|]; [|discriminate H].
    destruct (slice buf (pp_value pp) (pp_size pp)) as [value|]; [|discriminate H].
    pose proof (Hq (PropertyFound (u32 (depth + 1)) name value (pp_size pp)) st) as Hs.
    cbn [deliver] in Hs. try rewrite Ecb in Hs.
    destruct (cb _ _ _ _ st) as [st1 stop1]. cbn in Hs. subst stop1.
    now apply IH in H.
  - now injection H as <- _ _.
Qed.

(** When the loop on a cut buffer falls through to the children, every
    property of the node has been handed over. *)
Lemma properties_next_state B k ps : forall depth p st p' st',
  0 <= k <= len B ->
  forallb valid_property ps = true ->
  holds B p (flat_map encode_property ps) ->
  iterate_properties (firstn (Z.to_nat k) B) property_cb (length ps) depth p st
  = LNext p' st' ->
  st' = fst (observe node_cb property_cb
               (map (property_event (u32 (depth + 1))) ps) st).
Proof.
  induction ps as [|pr ps IH]; intros depth p st p' st' Hk Hv Hh H;
    cbn [length iterate_properties map observe] in *.
  { now injection H as _ <-. }
  cbn [forallb] in Hv. apply andb_prop in Hv as [Hpr Hps].
  cbn [flat_map] in Hh.
  pose proof (holds_end _ _ _ Hh) as [Hend Hp0]. rewrite len_app in Hend.
  apply holds_app in Hh as [Hh1 Hh2].
  pose proof (len_nonneg (flat_map encode_property ps)) as Hrest.
  assert (Hlen : len (firstn (Z.to_nat k) B) = k) by (apply len_firstn; lia).
  assert (Hstep : forall st1 p1,
             quiet node_cb property_cb ->
             (match property_cb with
              | None => iterate_properties (firstn (Z.to_nat k) B) property_cb
                          (length ps) depth p1 st
              | Some cb =>
                  let '(s, stop) := cb (u32 (depth + 1)) (prop_name pr) (prop_value pr)
                                      (len (prop_value pr)) st in
                  if stop then LReturn true true s
                  else iterate_properties (firstn (Z.to_nat k) B) property_cb
                         (length ps) depth p1 s
              end = LNext p' st') ->
             (forall s, iterate_properties (firstn (Z.to_nat k) B) property_cb
                          (length ps) depth p1 s = LNext p' st' ->
                        st' = fst (observe node_cb property_cb
                                     (map (property_event (u32 (depth + 1))) ps) s)) ->
             st1 = st' ->
             st' = fst (let '(s, stop) :=
                          deliver node_cb property_cb
                            (property_event (u32 (depth + 1)) pr) st in
                        if stop then (s, true)
                        else observe node_cb property_cb
                               (map (property_event (u32 (depth + 1))) ps) s)).
  { intros st1 p1 _ Hrun Hrest' _. cbn [deliver property_event].
    destruct property_cb as [cb|] eqn:Ecb.
    - pose proof (Hq (property_event (u32 (depth + 1)) pr) st) as Hs.
      cbn [deliver property_event] in Hs. try rewrite Ecb in Hs.
      destruct (cb _ _ _ _ st) as [s stop]. cbn in Hs. subst stop.
      now apply Hrest'.
    - now apply Hrest'. }
  destruct (Z.lt_ge_cases k p) as [Hbefore | Hp].
  { unfold parse_property, data_end, sizeof_prop in H.
    replace (len (firstn (Z.to_nat k) B) <? p + 36) with true in H
      by (symmetry; apply Z.ltb_lt; lia).
    discriminate H. }
  destruct (Z.le_gt_cases (p + len (encode_property pr)) k) as [Hwhole | Hcut].
  - assert (Hh1' : holds (firstn (Z.to_nat k) B) p (encode_property pr))
      by (apply holds_firstn; auto; lia).
    destruct (parse_valid_property _ _ _ Hpr Hh1') as (Hparse & Hname & Hval).
    rewrite Hparse in H. cbn [pp_name pp_value pp_size pp_next] in H.
    apply (Hstep st' (p + len (encode_property pr)) Hq); [|intros s Hs|reflexivity].
    + destruct property_cb; [now rewrite Hname, Hval in H | exact H].
    + now apply (IH depth (p + len (encode_property pr)) s p' st').
  - pose proof (parse_cut_property B k p pr Hpr Hh1 ltac:(lia)) as Hcutp.
    cbv zeta in Hcutp.
    destruct (k =? p + sizeof_prop + len (prop_value pr)) eqn:E.
    + destruct Hcutp as (Hparse & Hname & Hval).
      rewrite Hparse in H. cbn [pp_name pp_value pp_size pp_next] in H.
      apply (Hstep st' k Hq); [|intros s Hs|reflexivity].
      * destruct property_cb; [now rewrite Hname, Hval in H | exact H].
      * destruct ps as [|q ps']; cbn [length iterate_properties map observe] in *.
        -- now injection Hs as _ <-.
        -- unfold parse_property, data_end, sizeof_prop in Hs.
           replace (len (firstn (Z.to_nat k) B) <? k + 36) with true in Hs
             by (symmetry; apply Z.ltb_lt; lia).
           discriminate Hs.
    + rewrite Hcutp in H. discriminate H.
Qed.
End CutLoops.

Lemma find_node_name_quiet : quiet None (Some Driver.find_node_name_cb).
Proof.
  intros [depth node size np nc | depth name value size] st; cbn [deliver];
    [reflexivity|].
  unfold Driver.find_node_name_cb. now destruct (strcmp_eq _ _).
Qed.

Lemma name_of_well_named ps before :
  existsb is_name ps = true ->
  forallb (fun p => negb (is_name p) || existsb is_nul (prop_value p)) ps = true ->
  exists v, name_of ps before = Some v /\ existsb is_nul v = true.
Proof.
  unfold name_of. revert before.
  assert (Hkeep : forall qs b,
             forallb (fun p => negb (is_name p) || existsb is_nul (prop_value p)) qs
             = true ->
             (exists v, b = Some v /\ existsb is_nul v = true) ->
             exists v,
               fold_left (fun nm p =>
                            if strcmp_eq (cstring (prop_name p)) (lit "name")
                            then Some (prop_value p) else nm) qs b = Some v
               /\ existsb is_nul v = true).
  { induction qs as [|q qs IHq]; intros b Hf Hb; cbn [fold_left]; [exact Hb|].
    cbn [forallb] in Hf. apply andb_prop in Hf as [Hq Hqs].
    apply IHq; [exact Hqs|]. unfold is_name in Hq.
    destruct (strcmp_eq (cstring (prop_name q)) (lit "name")); [|exact Hb].
    cbn [negb orb] in Hq. eauto. }
  induction ps as [|p ps IH]; intros before He Hf; [discriminate He|].
  cbn [existsb forallb fold_left] in *. apply andb_prop in Hf as [Hp Hps].
  unfold is_name in He, Hp.
  destruct (strcmp_eq (cstring (prop_name p)) (lit "name")) eqn:E.
  - cbn [negb orb] in Hp. apply Hkeep; eauto.
  - cbn [orb] in He. now apply IH.
Qed.

(** The children of the node that is scanned leave the state as it is. *)
Lemma scan_children_state view fuel n : forall p st,
  match iterate_children
          (fun d s =>
             devicetree_iterate_node view (Some do_not_scan_children)
               (Some Driver.find_node_name_cb) fuel d (u32 (0 + 1)) s) n p st with
  | Return _ _ _ st' => st' = st
  | _ => True
  end.
Proof.
  destruct n as [|n]; intros p st; cbn [iterate_children]; [reflexivity|].
  destruct fuel as [|fuel]; cbn [devicetree_iterate_node]; [exact I|].
  destruct (data_end view <? p + sizeof_node); [reflexivity|].
  destruct (load32 view p); [|exact I].
  destruct (load32 view (p + 4)); [|exact I].
  reflexivity.
Qed.

Lemma slice_cut_rest B k off x :
  holds B off x -> off <= k <= len B ->
  exists rest,
    slice (firstn (Z.to_nat k) B) off (k - off)
    = Some (firstn (Z.to_nat (k - off)) (x ++ rest))
    /\ len (x ++ rest) = len B - off.
Proof.
  intros Hh Hk. pose proof (holds_end _ _ _ Hh) as [He H0].
  destruct (slice_rest B off x Hh) as [rest Hrest].
  exists rest.
  assert (Hskip : skipn (Z.to_nat off) B = x ++ rest).
  { unfold slice in Hrest.
    destruct ((0 <=? off) && (0 <=? len B - off) && (off + (len B - off) <=? len B));
      [|discriminate].
    injection Hrest as <-. symmetry. apply firstn_all2.
    rewrite length_skipn. unfold len. lia. }
  split.
  - unfold slice. rewrite len_firstn by lia.
    replace ((0 <=? off) && (0 <=? k - off) && (off + (k - off) <=? k)) with true
      by (symmetry; rewrite !andb_true_iff, !Z.leb_le; lia).
    f_equal. rewrite skipn_firstn_comm, Hskip, firstn_firstn.
    f_equal. lia.
  - rewrite <- Hskip. pose proof (len_nonneg x). unfold len in *.
    rewrite length_skipn. lia.
Qed.

(** The scan for the name of a node of a well-named tree, on the cut
    buffer: it changes the name only, and when it succeeds the name is
    one of the node, with its terminator. *)
Lemma scan_cut_node B k off ps cs st :
  valid_tree (Node ps cs) = true -> well_named (Node ps cs) = true ->
  holds B off (encode (Node ps cs)) ->
  off + sizeof_node <= k -> k <= len B ->
  exists view ok st1,
    slice (firstn (Z.to_nat k) B) off (k - off) = Some view
    /\ devicetree_node_scan_properties view (Some Driver.find_node_name_cb) st
       = Some (ok, st1)
    /\ Driver.sb st1 = Driver.sb st
    /\ Driver.stdout st1 = Driver.stdout st
    /\ Driver.lost st1 = Driver.lost st
    /\ (ok = true ->
        exists v, Driver.node_name st1 = Some v /\ existsb is_nul v = true).
Proof.
  intros Hv Hw Hh Hlong Hk.
  pose proof (holds_end _ _ _ Hh) as [_ H0].
  pose proof (valid_tree_inv _ _ Hv) as (Hps & Hcs & Hvps & Hvcs).
  cbn [well_named] in Hw. apply andb_prop in Hw as [Hw _].
  apply andb_prop in Hw as [Hhas Hnul].
  destruct (slice_cut_rest B k off _ Hh ltac:(unfold sizeof_node in *; lia))
    as (rest & Hslice & Hlen').
  set (B' := encode (Node ps cs) ++ rest) in *.
  set (k' := k - off) in *.
  assert (Hk' : 0 <= k' <= len B') by (unfold k', sizeof_node in *; lia).
  set (view := firstn (Z.to_nat k') B') in *.
  assert (Hlenv : len view = k') by (apply len_firstn; exact Hk').
  exists view.
  pose proof (holds_prefix (encode (Node ps cs)) rest) as Hh'. fold B' in Hh'.
  apply holds_encode_Node in Hh' as (Hhead & Hprops & _).
  assert (Hhead' : holds view 0 (le_split 4 (len ps) ++ le_split 4 (len cs))).
  { apply holds_firstn; auto;
      rewrite ?len_app, ?len_le_split; unfold k', sizeof_node in *; lia. }
  destruct (node_header _ _ _ _ Hv Hhead') as (_ & Hfit & Hnp & Hnc).
  destruct (devicetree_iterate_total view (Some do_not_scan_children)
              (Some Driver.find_node_name_cb) st)
    as (ok & d & stop & st1 & Hwalk & Hiter & _).
  exists ok, st1. split; [exact Hslice|].
  unfold devicetree_node_scan_properties. rewrite Hiter.
  split; [reflexivity|].
  cbn [devicetree_iterate_node] in Hwalk. unfold data_end in Hwalk.
  replace (len view <? 0 + sizeof_node) with false in Hwalk
    by (symmetry; apply Z.ltb_ge; unfold k', sizeof_node in *; lia).
  rewrite Hnp, Hnc in Hwalk. cbn [do_not_scan_children Z.eqb negb] in Hwalk.
  rewrite !to_nat_len in Hwalk.
  pose proof (properties_keep_invariant None (Some Driver.find_node_name_cb)
                (fun s => Driver.sb s = Driver.sb st
                          /\ Driver.stdout s = Driver.stdout st
                          /\ Driver.lost s = Driver.lost st)
                B' k' Hk' find_node_name_quiet ps 0 (0 + sizeof_node) st Hvps) as Hfields.
  cbv beta in Hfields.
  assert (Hfind : forall q d0 s,
             In q ps ->
             Driver.sb s = Driver.sb st /\ Driver.stdout s = Driver.stdout st
             /\ Driver.lost s = Driver.lost st ->
             Driver.sb (fst (deliver None (Some Driver.find_node_name_cb)
                               (property_event d0 q) s)) = Driver.sb st
             /\ Driver.stdout (fst (deliver None (Some Driver.find_node_name_cb)
                                      (property_event d0 q) s)) = Driver.stdout st
             /\ Driver.lost (fst (deliver None (Some Driver.find_node_name_cb)
                                    (property_event d0 q) s)) = Driver.lost st).
  { intros q d0 s _ Hs. cbn [deliver property_event].
    unfold Driver.find_node_name_cb. destruct (strcmp_eq _ _); exact Hs. }
  specialize (Hfields Hfind Hprops (conj eq_refl (conj eq_refl eq_refl))).
  fold view in Hfields.
  destruct (iterate_properties view (Some Driver.find_node_name_cb) (length ps) 0
              (0 + sizeof_node) st) as [|ok' stop' st2|p' st2] eqn:Ep.
  - discriminate Hwalk.
  - injection Hwalk as <- _ _ <-.
    destruct Hfields as (F1 & F2 & F3). split; [exact F1|]. split; [exact F2|].
    split; [exact F3|].
    intros Hok. exfalso.
    pose proof (iterate_properties_quiet_return None (Some Driver.find_node_name_cb)
                  find_node_name_quiet view (length ps) 0 (0 + sizeof_node) st
                  ok' stop' st2 Ep).
    congruence.
  - pose proof (properties_next_state None (Some Driver.find_node_name_cb)
                  find_node_name_quiet B' k' ps 0 (0 + sizeof_node) st p' st2
                  Hk' Hvps Hprops Ep) as Hst2.
    pose proof (scan_children_state view (length view) (length cs) p' st2)
      as Hkids.
    rewrite Hwalk in Hkids. subst st1.
    destruct (find_node_name_scan ps (u32 (0 + 1)) st) as (st' & Hobs & Hn & Hs & Ho & Hl).
    rewrite Hobs in Hst2. cbn [fst] in Hst2. subst st2.
    split; [exact Hs|]. split; [exact Ho|]. split; [exact Hl|].
    intros _. rewrite Hn. now apply name_of_well_named.
Qed.

Section DriverCut.
Variable print_indent : Z -> list byte.
Variable print_property : strbuf -> list byte -> list byte -> bool * strbuf.
Variable text_of : list byte -> list byte -> list byte.
Variable verbose : bool.
Hypothesis Hprint : forall sb name value,
  driver_sink verbose sb -> 0 < len value -> len value < 2 ^ 31 ->
  driver_sink verbose (snd (print_property (rewind sb) name value))
  /\ contents (snd (print_property (rewind sb) name value))
     ++ (if fst (print_property (rewind sb) name value) then lit "" else lit "...")
     = shown_value verbose (text_of name value).

Local Abbreviation kept :=
  (fun st : Driver.printer =>
     Driver.lost st = false /\ driver_sink verbose (Driver.sb st)).
Local Abbreviation named :=
  (fun t : tree => valid_tree t = true /\ well_named t = true).

(** The property observer on a property of a valid tree prints its
    line: the run is not lost and the sink is as the driver keeps it. *)
Lemma property_cb_keeps buf p depth st :
  valid_property p = true -> kept st ->
  kept (fst (deliver (Some (Driver.node_cb print_indent buf))
               (Some (Driver.property_cb print_indent print_property))
               (property_event depth p) st)).
Proof.
  intros Hp [Hl Hs].
  destruct (property_cb_valid print_indent print_property text_of verbose Hprint
              buf [p] depth st) as (st' & Hobs & _ & Hs' & _ & Hl');
    [cbn [forallb]; now rewrite Hp | exact Hs |].
  cbn [map observe] in Hobs.
  destruct (deliver _ _ (property_event depth p) st) as [s [|]];
    [discriminate Hobs|].
  injection Hobs as ->. cbn [fst]. split; [congruence | exact Hs'].
Qed.

(** The node observer on a node of a well-named tree whose header is
    before the cut: it prints the name of the node, or NODE when the
    cut is in the properties of the node. *)
Lemma node_cb_cut_keeps B k depth off ps cs st :
  named (Node ps cs) -> holds B off (encode (Node ps cs)) ->
  off + sizeof_node <= k -> k <= len B -> kept st ->
  kept (fst (Driver.node_cb print_indent (firstn (Z.to_nat k) B) depth off
               (k - off) (len ps) (len cs) st)).
Proof.
  intros [Hv Hw] Hh Hlong Hk [Hl Hs].
  destruct (scan_cut_node B k off ps cs st Hv Hw Hh Hlong Hk)
    as (view & ok & st1 & Hslice & Hscan & Hsb & Hout & Hlost & Hname).
  unfold Driver.node_cb. rewrite Hslice, Hscan. cbv zeta.
  destruct ok; cbn [negb].
  - destruct (Hname eq_refl) as (v & Hv1 & Hnul). rewrite Hv1.
    unfold Driver.c_str. rewrite Hnul.
    cbn [fst Driver.printf Driver.lost Driver.sb]. rewrite Hlost, Hsb.
    split; assumption.
  - cbn [Driver.set_node_name Driver.node_name].
    change (Driver.c_str (lit "NODE" ++ [Byte.x00])) with (Some (lit "NODE")).
    cbn [fst Driver.printf Driver.set_node_name Driver.lost Driver.sb].
    rewrite Hlost, Hsb.
    split; assumption.
Qed.

(** [devicetree_print] on a file that is cut. *)
Lemma devicetree_print_cut t k :
  valid_tree t = true -> well_named t = true ->
  0 <= k < len (encode t) ->
  exists out,
    Driver.devicetree_print print_indent print_property
      (firstn (Z.to_nat k) (encode t)) verbose
    = Some (k =? len (encode t) - final_padding t, out).
Proof.
  intros Hv Hw Hk.
  set (buf := firstn (Z.to_nat k) (encode t)).
  set (st0 := {| Driver.node_name := None;
                 Driver.sb := strbuf_alloc (if verbose then u64 (-1) else 64);
                 Driver.stdout := []; Driver.lost := false |}).
  assert (Hlen : len buf = k) by (apply len_firstn; lia).
  assert (Hq : quiet (Some (Driver.node_cb print_indent buf))
                 (Some (Driver.property_cb print_indent print_property)))
    by apply driver_quiet.
  unfold Driver.devicetree_print. cbv zeta. fold buf. fold st0.
  rewrite (devicetree_iterate_fuel _ _ _ (height t)).
  set (fuel := Nat.max (height t) (Datatypes.S (length buf))).
  assert (Hf : (height t <= fuel)%nat) by (unfold fuel; lia).
  pose proof (iterate_node_cut _ _ Hq t (encode t) k fuel 0 0 st0
                Hv (holds_whole _) ltac:(lia) Hf) as Hcut.
  cbv zeta in Hcut. fold buf in Hcut.
  pose proof (tree_keeps_invariant
                (Some (Driver.node_cb print_indent buf))
                (Some (Driver.property_cb print_indent print_property))
                kept named (encode t) k ltac:(lia) Hq) as Hinv.
  cbv beta in Hinv. fold buf in Hinv.
  assert (Hkept : match devicetree_iterate_node buf
                          (Some (Driver.node_cb print_indent buf))
                          (Some (Driver.property_cb print_indent print_property))
                          fuel 0 0 st0 with
                  | Return _ _ _ st' => kept st'
                  | _ => True
                  end).
  { apply Hinv with (t := t).
    - now intros t' [H _].
    - intros ps cs [Hv' Hw'].
      pose proof (valid_tree_inv _ _ Hv') as (_ & _ & _ & Hvcs).
      cbn [well_named] in Hw'. apply andb_prop in Hw' as [_ Hwcs].
      apply Forall_forall. intros c Hc.
      rewrite forallb_forall in Hvcs, Hwcs. auto.
    - intros ps cs p depth st [Hv' _] Hin Hst.
      pose proof (valid_tree_inv _ _ Hv') as (_ & _ & Hvps & _).
      rewrite forallb_forall in Hvps.
      apply property_cb_keeps; auto.
    - intros depth off ps cs st Hg Hh Hlong Hst. cbn [deliver].
      apply node_cb_cut_keeps; auto. lia.
    - split; assumption.
    - apply holds_whole.
    - split; [reflexivity | apply driver_sink_alloc].
    - exact Hf. }
  destruct Hcut as [(Hne & d & st' & E) | (He & st' & E)];
    rewrite E in Hkept |- *; destruct Hkept as [Hl _]; rewrite Hl;
    cbn [andb]; eexists; f_equal; f_equal.
  - symmetry. apply Z.eqb_neq. lia.
  - rewrite Hlen, Z.add_0_l, Z.eqb_refl. symmetry. apply Z.eqb_eq. exact He.
Qed.
End DriverCut.

(** X20.  A file that is cut short, in both variants.  When the file holds
    the first [k] bytes only of the encoding of a valid tree in which every
    node has a property called name and every such value has a terminator,
    [devicetree_print] prints what it has seen (each name it prints is a
    terminated string, or NODE for a node whose properties are cut) and
    returns false.  The one exception is a cut exactly where the payload of
    the last property ends, before its padding: there it returns true. *)
Theorem devicetree_print_on_cut_file (t : tree) (k : Z)
    (print_verbose print_tree : bool) :
  valid_tree t = true -> well_named t = true ->
  0 <= k < len (encode t) ->
  (exists out,
      MainTool.devicetree_print print_verbose print_tree
        (firstn (Z.to_nat k) (encode t))
      = Some (k =? len (encode t) - final_padding t, out))
  /\ (exists out,
         Part001Tool.devicetree_print print_verbose
           (firstn (Z.to_nat k) (encode t))
         = Some (k =? len (encode t) - final_padding t, out)).
Proof.
  intros Hv Hw Hk. split.
  - unfold MainTool.devicetree_print.
    apply (devicetree_print_cut (MainTool.print_indent print_tree)
             Main.print_property main_text print_verbose
             (fun sb name value => main_print_on_driver_sink print_verbose sb name value)
             t k Hv Hw Hk).
  - unfold Part001Tool.devicetree_print.
    apply (devicetree_print_cut Part001Tool.print_indent
             Part001.print_property part001_text print_verbose
             (fun sb name value =>
                part001_print_on_driver_sink print_verbose sb name value)
             t k Hv Hw Hk).
Qed.

Lemma devicetree_print_on_cut_file_witness :
  valid_tree example_named_tree = true
  /\ well_named example_named_tree = true
  /\ 0 <= 150 < len (encode example_named_tree)
  /\ exists out,
       MainTool.devicetree_print false true
         (firstn (Z.to_nat 150) (encode example_named_tree))
       = Some (150 =? len (encode example_named_tree)
                      - final_padding example_named_tree, out).
Proof.
  assert (Hv : valid_tree example_named_tree = true) by (vm_compute; reflexivity).
  assert (Hw : well_named example_named_tree = true) by (vm_compute; reflexivity).
  assert (Hk : 0 <= 150 < len (encode example_named_tree))
    by (vm_compute; split; [discriminate | reflexivity]).
  split; [exact Hv|]. split; [exact Hw|]. split; [exact Hk|].
  exact (proj1 (devicetree_print_on_cut_file example_named_tree 150 false true
                  Hv Hw Hk)).
Defined.

(** ** The decision order of the classifier *)

Lemma first_match_if (b : bool) (P : Prop) k rest otherwise y :
  (b = true <-> P) -> first_match rest otherwise y ->
  first_match ((P, k) :: rest) otherwise (if b then k else y).
Proof.
  intros Hb Hy. cbn [first_match]. destruct b.
  - left. split; [now apply Hb | reflexivity].
  - right. split; [|exact Hy]. intros HP. apply Hb in HP. discriminate HP.
Qed.

Lemma first_match_unique rules otherwise : forall k1 k2,
  first_match rules otherwise k1 -> first_match rules otherwise k2 -> k1 = k2.
Proof.
  induction rules as [|[P k] rules IH]; intros k1 k2 H1 H2; cbn [first_match] in *.
  - congruence.
  - destruct H1 as [[HP ->] | [HnP H1]], H2 as [[HP' ->] | [HnP' H2]];
      try contradiction; auto.
Qed.

(** The count of the loop of [measure_string] is the sum over the runs. *)
Lemma run_sum_loop size data : forall i info run,
  printable_run_count (fst (measure_string_loop size i data (info, run)))
  + (if 8 <=? snd (measure_string_loop size i data (info, run))
     then snd (measure_string_loop size i data (info, run)) else 0)
  = printable_run_count info
    + fold_right Z.add 0 (filter (fun n => 8 <=? n) (run_lengths data run)).
Proof.
  induction data as [|c data IH]; intros i info run;
    cbn [measure_string_loop run_lengths].
  - cbn [fst snd filter]. destruct (8 <=? run); cbn [fold_right]; lia.
  - destruct (measure_string_step size i c (info, run)) as [info1 run1] eqn:E.
    rewrite IH. unfold measure_string_step in E.
    destruct (isprint c); inversion E; subst; cbn [printable_run_count filter];
      [reflexivity|].
    destruct (8 <=? run); cbn [fold_right]; lia.
Qed.

Lemma measure_string_run_sum data :
  printable_run_count (measure_string data) = printable_run_sum data.
Proof.
  unfold measure_string, printable_run_sum. cbv zeta.
  pose proof (run_sum_loop (len data) data 0
                {| printable := 0; first_null := len data; after_null := 0;
                   null_count := 0; printable_run_count := 0 |} 0) as H.
  destruct (measure_string_loop (len data) 0 data _) as [info run].
  cbn [fst snd printable_run_count] in H.
  destruct (8 <=? run); cbn [printable_run_count]; lia.
Qed.

Lemma bytes_eqb_refl a : bytes_eqb a a = true.
Proof.
  induction a as [|x a IH]; [reflexivity|]. cbn [bytes_eqb]. rewrite IH, andb_true_r.
  now apply Byte.byte_dec_lb.
Qed.

(** The test of each rule says what section 4.2 says. *)
Lemma rule_small_sizes size : is_hex_int_12 size = true <-> size = 1 \/ size = 2.
Proof. unfold is_hex_int_12. rewrite orb_true_iff, !Z.eqb_eq. tauto. Qed.

Lemma rule_hash name :
  is_dec_int name = true <-> exists rest, name = Byte.x23 :: rest.
Proof.
  unfold is_dec_int, first_char_is. destruct name as [|x name].
  - split; [discriminate | intros [r H]; discriminate H].
  - split.
    + intros H. apply Byte.byte_dec_bl in H. subst x. eauto.
    + intros [r H]. injection H as -> _. reflexivity.
Qed.

Lemma rule_segment name size :
  Main.is_segment_ranges name size = true
  <-> true = true /\ 0 < size /\ size mod 32 = 0 /\ name = lit "segment-ranges".
Proof.
  unfold Main.is_segment_ranges, Main.sizeof_segment_range, strcmp_eq.
  rewrite !andb_true_iff, Z.ltb_lt, Z.eqb_eq. split.
  - intros [[H1 H2] H3]. apply bytes_eqb_eq in H3. auto.
  - intros (_ & H1 & H2 & ->). repeat split; auto.
Qed.

Lemma rule_no_segment name size :
  false = true
  <-> false = true /\ 0 < size /\ size mod 32 = 0 /\ name = lit "segment-ranges".
Proof. split; [discriminate | intros [H _]; exact H]. Qed.

Lemma rule_text_size size n :
  (negb (size =? 4) && negb (size =? 8)) || (u64 (size - 1) <=? n) = true
  <-> (size <> 4 /\ size <> 8) \/ size - 1 <= n.
Proof.
  destruct (Z.eqb_spec size 4) as [-> | H4].
  { change (u64 (4 - 1)) with 3. cbn [negb andb orb]. rewrite Z.leb_le. lia. }
  destruct (Z.eqb_spec size 8) as [-> | H8].
  { change (u64 (8 - 1)) with 7. cbn [negb andb orb]. rewrite Z.leb_le. lia. }
  cbn [negb andb orb]. split; auto.
Qed.

Lemma all_nul_tail tail :
  len (filter (fun c => negb (is_nul c)) tail) = 0
  <-> Forall (fun c => c = Byte.x00) tail.
Proof.
  induction tail as [|x tail IH]; cbn [filter].
  - split; [constructor | reflexivity].
  - destruct (is_nul x) eqn:E; cbn [negb].
    + rewrite IH. split.
      * intros H. constructor; [now apply is_nul_x00 | exact H].
      * intros H. exact (Forall_inv_tail H).
    + split.
      * rewrite len_cons. pose proof (len_nonneg (filter (fun c => negb (is_nul c)) tail)).
        lia.
      * intros H. pose proof (Forall_inv H) as Hx. cbv beta in Hx. subst x.
        discriminate E.
Qed.

Lemma rule_text data :
  is_string (measure_string data) (len data) = true
  <-> Forall (fun c => isprint c = true) (cstring data)
      /\ Forall (fun c => c = Byte.x00) (skipn (Z.to_nat (strnlen data)) data)
      /\ ((len data <> 4 /\ len data <> 8) \/ len data - 1 <= printable_count data).
Proof.
  pose proof (measure_string_fields data) as H. cbv zeta in H.
  destruct H as (Hp & _ & Hf & Ha & _).
  unfold is_string, printable_count. rewrite Hp, Hf, Ha. clear Hp Hf Ha.
  rewrite !andb_true_iff, !Z.eqb_eq, rule_text_size, all_nul_tail.
  pose proof (cstring_prefix data) as Hpre.
  pose proof (firstn_skipn (Z.to_nat (strnlen data)) data) as Hsplit.
  rewrite Hpre in Hsplit.
  set (tail := skipn (Z.to_nat (strnlen data)) data) in *.
  assert (Hhead : Forall (fun c => c = Byte.x00) tail ->
                  (len (filter isprint data) = strnlen data
                   <-> Forall (fun c => isprint c = true) (cstring data))).
  { intros Ht.
    assert (Hnone : filter isprint tail = []).
    { clear -Ht. induction Ht as [|x l Hx _ IH]; [reflexivity|].
      subst x. cbn [filter]. exact IH. }
    rewrite <- Hsplit at 1. rewrite filter_app, Hnone, app_nil_r.
    unfold strnlen. rewrite Forall_forall, <- forallb_forall. split.
    - apply filter_all.
    - intros Hall. now rewrite filter_forallb. }
  tauto.
Qed.

Lemma rule_function name data :
  is_function_prop name data (len data) = true
  <-> (exists post, name = lit "function-" ++ post)
      /\ 8 <= len data /\ len data mod 4 = 0
      /\ Forall (fun c => isprint c = true) (bytes_at data 4 4).
Proof.
  unfold is_function_prop, all_printable_ascii, strncmp_eq.
  rewrite !andb_true_iff, Z.leb_le, Z.eqb_eq, forallb_forall, <- Forall_forall.
  assert (Hn : bytes_eqb (firstn 9 name) (firstn 9 (lit "function-")) = true
               <-> exists post, name = lit "function-" ++ post).
  { change (firstn 9 (lit "function-")) with (lit "function-"). split.
    - intros H. apply bytes_eqb_eq in H. exists (skipn 9 name). rewrite <- H.
      symmetry. apply firstn_skipn.
    - intros [post ->]. reflexivity. }
  rewrite Hn. tauto.
Qed.

Lemma rule_three_quarters data :
  is_hex_string_75 (measure_string data) (len data) = true
  <-> 3 * len data <= 4 * printable_count data.
Proof.
  pose proof (measure_string_fields data) as H. cbv zeta in H.
  destruct H as (Hp & _).
  unfold is_hex_string_75, ge_fraction, printable_count. rewrite Hp, Z.leb_le. lia.
Qed.

Lemma rule_address_main name data :
  (0 <? len data) && (len data mod 16 =? 0)
  && (strstr name (lit "reg") || Main.check_phys_ranges data) = true
  <-> 0 < len data /\ len data mod 16 = 0
      /\ (contains name (lit "reg")
          \/ Forall (plausible 0x1000) (address_ranges data)).
Proof.
  rewrite !andb_true_iff, orb_true_iff, Z.ltb_lt, Z.eqb_eq, strstr_spec,
    check_phys_ranges_spec. tauto.
Qed.

Lemma rule_address_part001 name data :
  (0 <? len data) && (len data mod 16 =? 0)
  && (strstr name (lit "reg")
      || Part001.check_physaddr_length_pairs data (len data / 8)) = true
  <-> 0 < len data /\ len data mod 16 = 0
      /\ (contains name (lit "reg")
          \/ Forall (plausible 0x4000) (address_ranges data)).
Proof.
  rewrite !andb_true_iff, orb_true_iff, Z.ltb_lt, Z.eqb_eq, strstr_spec. split.
  - intros [[H1 H2] H3]. rewrite check_physaddr_length_pairs_spec in H3 by exact H2.
    tauto.
  - intros (H1 & H2 & H3). rewrite check_physaddr_length_pairs_spec by exact H2.
    tauto.
Qed.

Lemma rule_nine_tenths data :
  is_hex_string_90 (measure_string data) (len data) = true
  <-> 2 <= printable_count data /\ 24 <= len data
      /\ 9 * len data <= 10 * (printable_count data + nul_count data).
Proof.
  pose proof (measure_string_fields data) as H. cbv zeta in H.
  destruct H as (Hp & Hn & _).
  unfold is_hex_string_90, ge_fraction, printable_count, nul_count.
  rewrite Hp, Hn, !andb_true_iff, !Z.leb_le. lia.
Qed.

Lemma rule_runs data :
  is_hex_string_60 (measure_string data) (len data) = true
  <-> 0 < printable_run_sum data /\ 24 <= len data
      /\ 6 * len data <= 10 * (printable_run_sum data + nul_count data).
Proof.
  pose proof (measure_string_fields data) as H. cbv zeta in H.
  destruct H as (_ & Hn & _).
  unfold is_hex_string_60, ge_fraction, nul_count.
  rewrite measure_string_run_sum, Hn, !andb_true_iff, Z.ltb_lt, !Z.leb_le. lia.
Qed.

Lemma rule_integer_sizes size : is_hex_int_48 size = true <-> size = 4 \/ size = 8.
Proof. unfold is_hex_int_48. rewrite orb_true_iff, !Z.eqb_eq. tauto. Qed.

(** [compute_display_type] as one chain of tests. *)
Lemma main_compute_chain name data :
  main_kind (Main.compute_display_type name data)
  = if is_hex_int_12 (len data) then SmallHexInteger
    else if is_dec_int name then DecimalInteger
    else if Main.is_segment_ranges name (len data) then SegmentRangeTable
    else if is_string (measure_string data) (len data) then PrintableString
    else if is_function_prop name data (len data) then FunctionDescriptor
    else if is_hex_string_75 (measure_string data) (len data) then QuotedHexString
    else if (0 <? len data) && (len data mod 16 =? 0)
            && (strstr name (lit "reg") || Main.check_phys_ranges data)
         then AddressRangeTable
    else if is_hex_string_90 (measure_string data) (len data) then QuotedHexString
    else if is_hex_string_60 (measure_string data) (len data) then QuotedHexString
    else if is_hex_int_48 (len data) then SmallHexInteger
    else RawHexDump.
Proof.
  unfold Main.compute_display_type, Main.late_rules, Main.sizeof_phys_range.
  cbv zeta.
  destruct (is_hex_int_12 _); [reflexivity|].
  destruct (is_dec_int _); [reflexivity|].
  destruct (Main.is_segment_ranges _ _); [reflexivity|].
  destruct (is_string _ _); [reflexivity|].
  destruct (is_function_prop _ _ _); [reflexivity|].
  destruct (is_hex_string_75 _ _); [reflexivity|].
  destruct ((0 <? len data) && (len data mod 16 =? 0)); cbn [andb];
    [destruct (strstr _ _); cbn [orb]; [reflexivity|];
     destruct (Main.check_phys_ranges _); [reflexivity|] |];
    (destruct (is_hex_string_90 _ _); [reflexivity|];
     destruct (is_hex_string_60 _ _); [reflexivity|];
     destruct (is_hex_int_48 _); reflexivity).
Qed.

Lemma part001_compute_chain name data :
  part001_kind (Part001.compute_display_type name data)
  = if is_hex_int_12 (len data) then SmallHexInteger
    else if is_dec_int name then DecimalInteger
    else if false then SegmentRangeTable
    else if is_string (measure_string data) (len data) then PrintableString
    else if is_function_prop name data (len data) then FunctionDescriptor
    else if is_hex_string_75 (measure_string data) (len data) then QuotedHexString
    else if (0 <? len data) && (len data mod 16 =? 0)
            && (strstr name (lit "reg")
                || Part001.check_physaddr_length_pairs data (len data / 8))
         then AddressRangeTable
    else if is_hex_string_90 (measure_string data) (len data) then QuotedHexString
    else if is_hex_string_60 (measure_string data) (len data) then QuotedHexString
    else if is_hex_int_48 (len data) then SmallHexInteger
    else RawHexDump.
Proof.
  unfold Part001.compute_display_type, Part001.late_rules. cbv zeta.
  destruct (is_hex_int_12 _); [reflexivity|].
  destruct (is_dec_int _); [reflexivity|].
  destruct (is_string _ _); [reflexivity|].
  destruct (is_function_prop _ _ _); [reflexivity|].
  destruct (is_hex_string_75 _ _); [reflexivity|].
  destruct ((0 <? len data) && (len data mod 16 =? 0)); cbn [andb];
    [destruct (strstr _ _); cbn [orb]; [reflexivity|];
     destruct (Part001.check_physaddr_length_pairs _ _); [reflexivity|] |];
    (destruct (is_hex_string_90 _ _); [reflexivity|];
     destruct (is_hex_string_60 _ _); [reflexivity|];
     destruct (is_hex_int_48 _); reflexivity).
Qed.

(** C6.  The rules are tried in the order of section 4.2 and the first
    that matches decides: the kind [compute_display_type] returns is the
    kind of the first of rules 1 to 10 that holds of the name and the
    value, and the raw dump when none holds; no other kind is that of the
    first match.  This is so in both variants; the one of part_001 has no
    rule 3 (it knows no segment ranges) and checks addresses against pages
    of 16 KiB instead of 4 KiB.  In particular a value of 1 or 2 bytes is a
    hexadecimal integer whatever its name is, and a 4-byte value whose name
    begins with [#] is a decimal integer: the rule on the name comes before
    the rule on sizes 4 and 8. *)
Theorem classifier_name_before_size (name rest data : list byte) :
  (forall k,
      first_match (classify_rules 0x1000 true name data) RawHexDump k
      <-> k = main_kind (Main.compute_display_type name data))
  /\ (forall k,
         first_match (classify_rules 0x4000 false name data) RawHexDump k
         <-> k = part001_kind (Part001.compute_display_type name data))
  /\ (len data = 1 \/ len data = 2 ->
      Main.compute_display_type name data = Main.DISP_HEX_INT
      /\ Part001.compute_display_type name data = Part001.DISP_HEX_INT)
  /\ (len data = 4 ->
      Main.compute_display_type (Byte.x23 :: rest) data = Main.DISP_DEC_INT
      /\ Part001.compute_display_type (Byte.x23 :: rest) data = Part001.DISP_DEC_INT).
Proof.
  assert (Hmain : first_match (classify_rules 0x1000 true name data) RawHexDump
                    (main_kind (Main.compute_display_type name data))).
  { rewrite main_compute_chain. unfold classify_rules. cbv zeta.
    apply first_match_if; [apply rule_small_sizes|].
    apply first_match_if; [apply rule_hash|].
    apply first_match_if; [apply rule_segment|].
    apply first_match_if; [apply rule_text|].
    apply first_match_if; [apply rule_function|].
    apply first_match_if; [apply rule_three_quarters|].
    apply first_match_if; [apply rule_address_main|].
    apply first_match_if; [apply rule_nine_tenths|].
    apply first_match_if; [apply rule_runs|].
    apply first_match_if; [apply rule_integer_sizes|].
    reflexivity. }
  assert (Hpart : first_match (classify_rules 0x4000 false name data) RawHexDump
                    (part001_kind (Part001.compute_display_type name data))).
  { rewrite part001_compute_chain. unfold classify_rules. cbv zeta.
    apply first_match_if; [apply rule_small_sizes|].
    apply first_match_if; [apply rule_hash|].
    apply (first_match_if false); [apply rule_no_segment|].
    apply first_match_if; [apply rule_text|].
    apply first_match_if; [apply rule_function|].
    apply first_match_if; [apply rule_three_quarters|].
    apply first_match_if; [apply rule_address_part001|].
    apply first_match_if; [apply rule_nine_tenths|].
    apply first_match_if; [apply rule_runs|].
    apply first_match_if; [apply rule_integer_sizes|].
    reflexivity. }
  split; [|split; [|split]].
  - intros k. split; [|now intros ->].
    intros H. exact (first_match_unique _ _ _ _ H Hmain).
  - intros k. split; [|now intros ->].
    intros H. exact (first_match_unique _ _ _ _ H Hpart).
  - unfold Main.compute_display_type, Part001.compute_display_type, is_hex_int_12.
    intros [-> | ->]; split; reflexivity.
  - unfold Main.compute_display_type, Part001.compute_display_type, is_hex_int_12.
    intros ->. split; reflexivity.
Qed.

Lemma classifier_name_before_size_witness :
  len (le_split 4 2) = 4
  /\ first_match (classify_rules 0x1000 true (lit "#size-cells") (le_split 4 2))
       RawHexDump DecimalInteger
  /\ Main.compute_display_type (Byte.x23 :: lit "size-cells") (le_split 4 2)
     = Main.DISP_DEC_INT
  /\ Part001.compute_display_type (Byte.x23 :: lit "size-cells") (le_split 4 2)
     = Part001.DISP_DEC_INT.
Proof.
  assert (H : len (le_split 4 2) = 4) by reflexivity.
  assert (Hk : DecimalInteger
               = main_kind (Main.compute_display_type (lit "#size-cells")
                              (le_split 4 2))) by reflexivity.
  pose proof (classifier_name_before_size (lit "#size-cells") (lit "size-cells")
                (le_split 4 2)) as W.
  split; [exact H|].
  split; [exact (proj2 (proj1 W DecimalInteger) Hk)|].
  exact (proj2 (proj2 (proj2 W)) H).
Defined.
